(** * translate-docx: paragraph segmentation and reinjection engine

    A shallow embedding of [src/lib/xml-utils.ts] (extraction and
    injection of paragraph text), of [getXmlContent], [setXmlContent] and
    [getTranslatableFiles] from [src/lib/docx-utils.ts], of the plain-text
    translation format ([extract.ts] renders it, [inject.ts] parses it),
    and of what the programs do with them: the loops of [extract.ts],
    [inject.ts] and the web application over the parts of a package, and
    the mapping from original text to translation that they build.

    The source works by regular-expression scanning of JavaScript strings.
    A JavaScript string is a sequence of UTF-16 code units; a regular
    expression without the [u] flag matches code unit by code unit.  The
    regular expressions of the source are kept as syntax trees and run by a
    backtracking matcher written after the ECMAScript specification
    (continuation-passing matchers, left-to-right alternatives, greedy and
    lazy quantifiers, capture groups).

    Conventions of the model:
    - a string is a list of code units ([N]); [js] turns the ASCII text of
      a literal of the source into one;
    - the counter of [extractParagraphSegments] is a Number that holds a
      non-negative integer, and the model has that integer: [increment]
      is [id++] and [numberToString] is the template literal on it, both
      with the rounding of doubles, which sets in at [2^53];
    - a [Map] is a finite map ([gmap]); a [Map] that the source goes
      through with [for ... of] is the list of its entries in the order
      of insertion;
    - the package object ([Record<string, Uint8Array>]) is the finite map
      of its own properties, and reading a property of it also finds the
      properties that it inherits from [Object.prototype];
    - [Object.keys] and the UTF-8 decoder and encoder of the platform are
      parameters, and a theorem states what it assumes of them;
    - the range that the web application selects is two natural numbers;
    - a [while] loop over [exec] counts its iterations down and gives
      [None] if they run out; the theorems show that it gives [Some];
    - the loop inside [String.prototype.replace] ends by the rules of the
      language; [execAll_fuel] shows that its bound is never reached. *)

From Stdlib Require Import NArith Lia String Ascii DecimalNat.
From stdpp Require Import base option list gmap.

Local Open Scope N_scope.
Local Open Scope nat_scope.

(** ** JavaScript strings *)

(** One UTF-16 code unit. *)
Abbreviation char16 := N (only parsing).

Abbreviation jsstring := (list N) (only parsing).

(** A string literal of the source, given here by its ASCII text. *)
Fixpoint js (s : string) : jsstring :=
  match s with
  | EmptyString => []
  | String a s' => N_of_ascii a :: js s'
  end.

(** The double quote character, code unit 34. *)
Definition dquote : char16 := 34%N.

(** [WhiteSpace] and [LineTerminator] of ECMAScript: the characters that
    [\s] matches and that [String.prototype.trim] removes. *)
Definition isWhiteSpace (c : char16) : bool :=
  ((9 <=? c) && (c <=? 13) || (c =? 32) || (c =? 160) || (c =? 5760)
   || (8192 <=? c) && (c <=? 8202) || (c =? 8232) || (c =? 8233)
   || (c =? 8239) || (c =? 8287) || (c =? 12288) || (c =? 65279))%N.

(** [\d] *)
Definition isDigit (c : char16) : bool := ((48 <=? c) && (c <=? 57))%N.

(** The word characters of [\b] and [\w]: [A-Za-z0-9_]. *)
Definition isWordChar (c : char16) : bool :=
  (isDigit c || (65 <=? c) && (c <=? 90) || (97 <=? c) && (c <=? 122)
   || (c =? 95))%N.

(** [String.prototype.trim] *)
Fixpoint trimStart (s : jsstring) : jsstring :=
  match s with
  | c :: s' => if isWhiteSpace c then trimStart s' else s
  | [] => []
  end.

Definition trimEnd (s : jsstring) : jsstring :=
  reverse (trimStart (reverse s)).

Definition trim (s : jsstring) : jsstring := trimEnd (trimStart s).

(** [Array.prototype.join] *)
Fixpoint join (sep : jsstring) (l : list jsstring) : jsstring :=
  match l with
  | [] => []
  | [x] => x
  | x :: l' => x ++ sep ++ join sep l'
  end.

(** [String.prototype.split] with a one-character separator: the pieces
    between the occurrences of [sep]; always at least one piece. *)
Fixpoint splitAcc (sep : char16) (cur : jsstring) (s : jsstring)
  : list jsstring :=
  match s with
  | [] => [reverse cur]
  | c :: s' =>
      if (c =? sep)%N then reverse cur :: splitAcc sep [] s'
      else splitAcc sep (c :: cur) s'
  end.

Definition split (sep : char16) (s : jsstring) : list jsstring :=
  splitAcc sep [] s.

(** The digits of a decimal numeral. *)
Fixpoint digitsOfUint (u : Decimal.uint) : jsstring :=
  match u with
  | Decimal.Nil => []
  | Decimal.D0 u' => 48%N :: digitsOfUint u'
  | Decimal.D1 u' => 49%N :: digitsOfUint u'
  | Decimal.D2 u' => 50%N :: digitsOfUint u'
  | Decimal.D3 u' => 51%N :: digitsOfUint u'
  | Decimal.D4 u' => 52%N :: digitsOfUint u'
  | Decimal.D5 u' => 53%N :: digitsOfUint u'
  | Decimal.D6 u' => 54%N :: digitsOfUint u'
  | Decimal.D7 u' => 55%N :: digitsOfUint u'
  | Decimal.D8 u' => 56%N :: digitsOfUint u'
  | Decimal.D9 u' => 57%N :: digitsOfUint u'
  end.

(** The decimal numeral of a natural number. *)
Definition decimal (n : nat) : jsstring := digitsOfUint (Nat.to_uint n).

Definition decimalN (x : N) : jsstring := digitsOfUint (N.to_uint x).

(** ** Numbers

    The counter of [extractParagraphSegments] is a Number, a double.  It
    holds a non-negative integer (the default [0], or the [nextId] of an
    earlier call); the natural number of the model is that integer.  Up to
    [2^53] every integer is a double; above, a double is a multiple of a
    power of two with a significand of 53 bits. *)

(** The double nearest to a non-negative integer, ties to the even
    significand.  (From [2^1024 - 2^970] on the nearest double is
    [Infinity]; the counter, which grows by [id++] only, never gets
    there.) *)
Definition roundDouble (m : N) : N :=
  let size := N.size m in
  if (size <=? 53)%N then m
  else
    let shift := (size - 53)%N in
    let q := N.shiftr m shift in
    let r := (m - N.shiftl q shift)%N in
    let half := N.shiftl 1 (shift - 1) in
    let q' :=
      if (half <? r)%N || (r =? half)%N && N.odd q then (q + 1)%N else q in
    N.shiftl q' shift.

(** [id++] on the counter: the new value is the double nearest to
    [id + 1].  Below [2^53] the sum is a double ([increment_roundDouble]
    has the two cases as one). *)
Definition increment (id : nat) : nat :=
  if (N.of_nat id <? 2 ^ 53)%N then S id
  else N.to_nat (roundDouble (N.of_nat id + 1)).

(** [Number::toString] in radix 10 takes integers [n], [k] and [s] with
    [k >= 1], [10^(k-1) <= s < 10^k] and [s * 10^(n-k)] equal to [x] as a
    double, [k] as small as possible and then, as the engines do,
    [s * 10^(n-k)] closest to [x] and [s] even between two that are equally
    close.  For an integer [x] with [d] digits [n] is [d] or [d + 1], and
    [s] is next to [x / 10^(n-k)]: these are the candidates. *)
Definition candidates (x : N) (k n : nat) : list (nat * N) :=
  let p := (10 ^ N.of_nat (n - k))%N in
  map (pair n)
    (List.filter
       (fun s => (10 ^ N.of_nat (k - 1) <=? s)%N && (s <? 10 ^ N.of_nat k)%N
                 && (roundDouble (s * p) =? x)%N)
       [(x / p)%N; (x / p + 1)%N]).

Definition distance (x : N) (k : nat) (c : nat * N) : N :=
  let v := (c.2 * 10 ^ N.of_nat (c.1 - k))%N in
  if (v <? x)%N then (x - v)%N else (v - x)%N.

Definition closer (x : N) (k : nat) (best c : nat * N) : nat * N :=
  if (distance x k c <? distance x k best)%N then c
  else if (distance x k c =? distance x k best)%N && N.even c.2 then c
  else best.

(** [n], [k] and [s] for the integer double [x] of [d] digits, trying [k]
    and then the larger values ([count] of them; [k = d] succeeds, with
    [s = x]). *)
Fixpoint shortest (x : N) (d count k : nat) : nat * nat * N :=
  match count with
  | 0 => (d, d, x)
  | S count' =>
      match candidates x k d ++ candidates x k (S d) with
      | c :: cs => let best := foldl (closer x k) c cs in (best.1, k, best.2)
      | [] => shortest x d count' (S k)
      end
  end.

(** [Number::toString] for an integer double from [2^53] on: the digits
    of [s] and [n - k] zeros when [n <= 21], else the exponent form, one
    digit, the others after a point if there are any, [e+] and [n - 1]. *)
Definition bigNumberToString (x : N) : jsstring :=
  let d := length (decimalN x) in
  let '(n, k, s) := shortest x d d 1 in
  if n <=? 21 then decimalN s ++ repeat 48%N (n - k)
  else
    match decimalN s with
    | [] => []
    | first :: others =>
        first :: (if k =? 1 then [] else 46%N :: others)
          ++ js "e+" ++ decimal (n - 1)
    end.

(** The counter inside a template literal, [`p${id}`]: below [2^53] its
    decimal numeral. *)
Definition numberToString (id : nat) : jsstring :=
  if (N.of_nat id <? 2 ^ 53)%N then decimal id
  else bigNumberToString (N.of_nat id).

(** ** Regular expressions *)

(** The fragment of the pattern syntax that the source uses.  A quantified
    atom is always a one-character class there (a negated bracket class,
    the dot, a digit), so [Star] takes a class. *)
Inductive regex : Type :=
  | Eps                                    (* the empty pattern *)
  | Char (c : char16)                      (* a literal character *)
  | Cls (p : char16 -> bool)               (* a class: [\s], [[^>]], ... *)
  | WordBoundary                           (* [\b] *)
  | LineStart                              (* [^], no [m] flag *)
  | LineEnd                                (* [$], no [m] flag *)
  | Seq (r1 r2 : regex)                    (* r1 r2 *)
  | Star (greedy : bool) (p : char16 -> bool) (* [p]* and [p]*? *)
  | Optional (r : regex)                   (* r? *)
  | Group (n : nat) (r : regex).           (* the n-th capture group *)

(** The literal characters of [s] in sequence. *)
Fixpoint str (s : jsstring) : regex :=
  match s with
  | [] => Eps
  | c :: s' => Seq (Char c) (str s')
  end.

(** The matcher state of the specification is the end index in the input
    and the captures.  The input and the index are kept together as a
    zipper: the characters before the index, nearest first, and the
    characters from the index on. *)
Record MatchState : Type := mkState {
  before : jsstring;
  after : jsstring;
  captures : list (nat * jsstring)
}.

Definition endIndex (x : MatchState) : nat := length (before x).

(** The characters consumed between state [x] and a later state [y]. *)
Definition consumed (x y : MatchState) : jsstring :=
  reverse (take (endIndex y - endIndex x) (before y)).

Definition setCapture (n : nat) (s : jsstring) (y : MatchState)
  : MatchState :=
  mkState (before y) (after y) ((n, s) :: captures y).

(** The latest value of capture [n]; [None] is [undefined]. *)
Fixpoint getCapture (n : nat) (caps : list (nat * jsstring))
  : option jsstring :=
  match caps with
  | [] => None
  | (m, s) :: caps' => if Nat.eqb m n then Some s else getCapture n caps'
  end.

Definition Continuation : Type := MatchState -> option MatchState.

Definition orElse (a b : option MatchState) : option MatchState :=
  match a with
  | Some y => Some y
  | None => b
  end.

Definition isWordBefore (x : MatchState) : bool :=
  match before x with
  | c :: _ => isWordChar c
  | [] => false
  end.

Definition isWordAfter (x : MatchState) : bool :=
  match after x with
  | c :: _ => isWordChar c
  | [] => false
  end.

(** The quantifier loop over a class: each iteration consumes one
    character of the class.  A greedy loop tries one more iteration before
    the continuation, a lazy loop tries the continuation first. *)
Fixpoint repeatCls (greedy : bool) (p : char16 -> bool) (k : Continuation)
  (bef aft : jsstring) (caps : list (nat * jsstring)) : option MatchState :=
  match aft with
  | c :: aft' =>
      if p c then
        if greedy
        then orElse (repeatCls greedy p k (c :: bef) aft' caps)
                    (k (mkState bef aft caps))
        else orElse (k (mkState bef aft caps))
                    (repeatCls greedy p k (c :: bef) aft' caps)
      else k (mkState bef aft caps)
  | [] => k (mkState bef aft caps)
  end.

(** [matcher r k x]: match [r] at state [x] and continue with [k];
    [None] is failure, after every alternative has been tried. *)
Fixpoint matcher (r : regex) (k : Continuation) (x : MatchState)
  : option MatchState :=
  match r with
  | Eps => k x
  | Char c =>
      match after x with
      | d :: aft' =>
          if (d =? c)%N then k (mkState (d :: before x) aft' (captures x))
          else None
      | [] => None
      end
  | Cls p =>
      match after x with
      | d :: aft' =>
          if p d then k (mkState (d :: before x) aft' (captures x))
          else None
      | [] => None
      end
  | WordBoundary =>
      if xorb (isWordBefore x) (isWordAfter x) then k x else None
  | LineStart =>
      match before x with [] => k x | _ :: _ => None end
  | LineEnd =>
      match after x with [] => k x | _ :: _ => None end
  | Seq r1 r2 => matcher r1 (matcher r2 k) x
  | Star greedy p => repeatCls greedy p k (before x) (after x) (captures x)
  | Optional r1 =>
      orElse
        (matcher r1
           (fun y => if Nat.eqb (endIndex y) (endIndex x) then None else k y)
           x)
        (k x)
  | Group n r1 =>
      matcher r1 (fun y => k (setCapture n (consumed x y) y)) x
  end.

(** ** RegExp objects and the string methods that take them *)

(** What [exec] returns and what a [replace] callback receives. *)
Record MatchResult : Type := mkResult {
  index : nat;                       (* where the match starts *)
  matched : jsstring;                (* [m[0]] *)
  groups : list (nat * jsstring);    (* the captures, see [group] *)
  lastIndexAfter : nat               (* where the match ends *)
}.

(** [m[n]]; [None] is [undefined]. *)
Definition group (n : nat) (m : MatchResult) : option jsstring :=
  getCapture n (groups m).

(** [x || ''] for a string or [undefined]. *)
Definition orEmpty (o : option jsstring) : jsstring :=
  match o with
  | Some s => s
  | None => []
  end.

(** The search of [RegExpBuiltinExec]: try the pattern at the current
    index, then at each later index up to the end of the input. *)
Fixpoint searchFrom (r : regex) (bef aft : jsstring) : option MatchResult :=
  let x := mkState bef aft [] in
  match matcher r Some x with
  | Some y =>
      Some (mkResult (endIndex x) (consumed x y) (captures y) (endIndex y))
  | None =>
      match aft with
      | [] => None
      | c :: aft' => searchFrom r (c :: bef) aft'
      end
  end.

(** [re.exec(s)] for a global [re] whose [lastIndex] is [lastIndex]: the
    result and the new [lastIndex]. *)
Definition exec (r : regex) (s : jsstring) (lastIndex : nat)
  : option MatchResult * nat :=
  if Nat.ltb (length s) lastIndex then (None, 0)
  else
    match searchFrom r (reverse (take lastIndex s)) (drop lastIndex s) with
    | Some m => (Some m, lastIndexAfter m)
    | None => (None, 0)
    end.

(** [s.match(re)] for a [re] without the [g] flag: the first match. *)
Definition matchFirst (r : regex) (s : jsstring) : option MatchResult :=
  searchFrom r [] s.

(** The loop of [String.prototype.replace] with a global [re] that
    collects the matches before any replacement is computed: [exec] until
    [null], and after an empty match [lastIndex] moves one further. *)
Fixpoint execAll (fuel : nat) (r : regex) (s : jsstring) (lastIndex : nat)
  : list MatchResult :=
  match fuel with
  | 0 => []
  | S fuel' =>
      match exec r s lastIndex with
      | (Some m, li) =>
          m :: execAll fuel' r s
                 (match matched m with [] => S li | _ :: _ => li end)
      | (None, _) => []
      end
  end.

(** Every call but the last moves [lastIndex] forward, and [exec] answers
    [null] once it is past the end: [length s + 2] calls are enough. *)
Definition globalMatches (r : regex) (s : jsstring) : list MatchResult :=
  execAll (length s + 2) r s 0.

(** The second half of [replace]: the input between the matches, and for
    each match its replacement. *)
Fixpoint substitute (s : jsstring) (nextSourcePosition : nat)
  (rs : list (MatchResult * jsstring)) : jsstring :=
  match rs with
  | [] => drop nextSourcePosition s
  | (m, replacement) :: rs' =>
      if Nat.leb nextSourcePosition (index m) then
        take (index m - nextSourcePosition) (drop nextSourcePosition s)
        ++ replacement
        ++ substitute s (index m + length (matched m)) rs'
      else substitute s nextSourcePosition rs'
  end.

(** [s.replace(re, replacement)] for a replacement string without [$]. *)
Definition replaceString (r : regex) (s replacement : jsstring) : jsstring :=
  substitute s 0 (map (fun m => (m, replacement)) (globalMatches r s)).

(** The calls of a callback that keeps a variable of its closure between
    the calls: one call per match, in order. *)
Fixpoint callEach {A : Type} (cb : A -> MatchResult -> jsstring * A) (st : A)
  (ms : list MatchResult) : list (MatchResult * jsstring) :=
  match ms with
  | [] => []
  | m :: ms' =>
      let '(replacement, st') := cb st m in
      (m, replacement) :: callEach cb st' ms'
  end.

(** [s.replace(re, cb)] for such a callback. *)
Definition replaceStateful {A : Type} (r : regex) (s : jsstring)
  (cb : A -> MatchResult -> jsstring * A) (st : A) : jsstring :=
  substitute s 0 (callEach cb st (globalMatches r s)).

(** The calls of a callback that may fail to return. *)
Fixpoint callEachOpt (cb : MatchResult -> option jsstring)
  (ms : list MatchResult) : option (list (MatchResult * jsstring)) :=
  match ms with
  | [] => Some []
  | m :: ms' =>
      replacement ← cb m;
      rs ← callEachOpt cb ms';
      Some ((m, replacement) :: rs)
  end.

(** [s.replace(re, cb)] for such a callback. *)
Definition replaceOpt (r : regex) (s : jsstring)
  (cb : MatchResult -> option jsstring) : option jsstring :=
  rs ← callEachOpt cb (globalMatches r s);
  Some (substitute s 0 rs).

(** [while ((m = re.exec(s)) !== null) body]: the loop of the source over
    the matches of a global [re].  Nothing in the loop itself bounds the
    number of iterations, so the model counts them down from [fuel] and
    answers [None] when they run out. *)
Fixpoint whileExecFrom {A : Type} (fuel : nat) (r : regex) (s : jsstring)
  (lastIndex : nat) (body : A -> MatchResult -> option A) (acc : A)
  : option A :=
  match fuel with
  | 0 => None
  | S fuel' =>
      match exec r s lastIndex with
      | (Some m, li) =>
          acc' ← body acc m;
          whileExecFrom fuel' r s li body acc'
      | (None, _) => Some acc
      end
  end.

(** The loop from [lastIndex = 0], with one iteration allowed for each
    character of the input and one more for the last call of [exec]. *)
Definition whileExec {A : Type} (r : regex) (s : jsstring)
  (body : A -> MatchResult -> option A) (acc : A) : option A :=
  whileExecFrom (S (length s)) r s 0 body acc.

(** ** [xml-utils.ts] *)

Definition notGt (c : char16) : bool := negb (c =? 62)%N.
Definition notLt (c : char16) : bool := negb (c =? 60)%N.
Definition anyChar (c : char16) : bool := true.

(** [PARAGRAPH_REGEX], flags [g] and [s]; with spaces between its parts the
    pattern is [<w:p \b [^>]* > ( .*? ) <\/w:p>]. *)
Definition PARAGRAPH_REGEX : regex :=
  Seq (str (js "<w:p"))
    (Seq WordBoundary
       (Seq (Star true notGt)
          (Seq (Char 62%N)
             (Seq (Group 1 (Star false anyChar))
                (str (js "</w:p>")))))).

(** [TEXT_ELEMENT_REGEX], flag [g]; with spaces between its parts the
    pattern is [<w:t ( \s [^>]* )? > ( [^<]* ) <\/w:t>]. *)
Definition TEXT_ELEMENT_REGEX : regex :=
  Seq (str (js "<w:t"))
    (Seq (Optional (Group 1 (Seq (Cls isWhiteSpace) (Star true notGt))))
       (Seq (Char 62%N)
          (Seq (Group 2 (Star true notLt))
             (str (js "</w:t>"))))).

(** The pattern that [replaceParagraphText] applies to the whole match to
    find the attributes of the opening tag, no flags; with spaces between
    its parts it is [<w:p ( \s [^>]* )? >]. *)
Definition OPEN_TAG_REGEX : regex :=
  Seq (str (js "<w:p"))
    (Seq (Optional (Group 1 (Seq (Cls isWhiteSpace) (Star true notGt))))
       (Char 62%N)).

Record ParagraphSegment : Type := mkSegment {
  id : jsstring;
  text : jsstring;
  translation : option jsstring;
  source : jsstring;
  runCount : nat
}.

(** [escapeXml] *)
Definition escapeXml (text : jsstring) : jsstring :=
  replaceString (Char 39%N)
    (replaceString (Char dquote)
       (replaceString (Char 62%N)
          (replaceString (Char 60%N)
             (replaceString (Char 38%N) text (js "&amp;"))
             (js "&lt;"))
          (js "&gt;"))
       (js "&quot;"))
    (js "&apos;").

(** [unescapeXml] *)
Definition unescapeXml (text : jsstring) : jsstring :=
  replaceString (str (js "&apos;"))
    (replaceString (str (js "&quot;"))
       (replaceString (str (js "&gt;"))
          (replaceString (str (js "&lt;"))
             (replaceString (str (js "&amp;")) text [38%N])
             [60%N])
          [62%N])
       [dquote])
    [39%N].

(** The inner loop of [extractParagraphSegments]: the texts of the text
    runs of a paragraph, [texts.push(textMatch[2] || '')] for each match. *)
Definition collectTexts (paragraphContent : jsstring)
  : option (list jsstring) :=
  whileExec TEXT_ELEMENT_REGEX paragraphContent
    (fun texts textMatch => Some (texts ++ [orEmpty (group 2 textMatch)]))
    [].

(** The body of the loop of [extractParagraphSegments] for one match of
    the paragraph pattern. *)
Definition extractBody (source : jsstring)
  (st : list ParagraphSegment * nat) (m : MatchResult)
  : option (list ParagraphSegment * nat) :=
  let '(segments, id) := st in
  let paragraphContent := orEmpty (group 1 m) in
  texts ← collectTexts paragraphContent;
  let combinedText := join [] texts in
  if Nat.eqb (length (trim combinedText)) 0 then Some (segments, id)
  else
    Some (segments ++
            [mkSegment (js "p" ++ numberToString id) combinedText None
               source (length texts)],
          increment id).

(** [extractParagraphSegments(xml, source, startId)]: the segments and
    [nextId]. *)
Definition extractParagraphSegments (xml source : jsstring) (startId : nat)
  : option (list ParagraphSegment * nat) :=
  whileExec PARAGRAPH_REGEX xml (extractBody source) ([], startId).

(** The callback of the inner [replace]; [isFirst] is the variable of the
    enclosing function that the callback reads and writes. *)
Definition textCallback (translation : jsstring) (isFirst : bool)
  (textMatch : MatchResult) : jsstring * bool :=
  let attributes := orEmpty (group 1 textMatch) in
  if isFirst then
    (js "<w:t" ++ attributes ++ js ">" ++ escapeXml translation
       ++ js "</w:t>", false)
  else (js "<w:t" ++ attributes ++ js "></w:t>", false).

(** The first lines of the callback of the outer [replace]: its own loop
    over the text runs, and [originalText], the key of the paragraph. *)
Definition originalTextOf (paragraphContent : jsstring) : option jsstring :=
  texts ← whileExec TEXT_ELEMENT_REGEX paragraphContent
            (fun texts textMatch =>
               Some (texts ++ [orEmpty (group 2 textMatch)]))
            [];
  Some (join [] texts).

(** The callback of the outer [replace], for a match [fullMatch] whose
    first group is [paragraphContent]. *)
Definition paragraphCallback (translations : gmap jsstring jsstring)
  (fullMatch paragraphContent : jsstring) : option jsstring :=
  originalText ← originalTextOf paragraphContent;
  match translations !! originalText with
  | None => Some fullMatch
  | Some translation =>
      let newParagraphContent :=
        replaceStateful TEXT_ELEMENT_REGEX paragraphContent
          (textCallback translation) true in
      Some (js "<w:p"
              ++ orEmpty (matchFirst OPEN_TAG_REGEX fullMatch ≫= group 1)
              ++ js ">" ++ newParagraphContent ++ js "</w:p>")
  end.

(** [replaceParagraphText(xml, translations)].  The first group of the
    paragraph pattern takes part in every match, so the callback always
    receives a string for it. *)
Definition replaceParagraphText (xml : jsstring)
  (translations : gmap jsstring jsstring) : option jsstring :=
  replaceOpt PARAGRAPH_REGEX xml
    (fun m => paragraphCallback translations (matched m)
                (orEmpty (group 1 m))).

(** ** [docx-utils.ts] *)

(** What a call gives: a value, the message of the [Error] it throws, or
    the [TypeError] that the decoder of the platform throws for an
    argument that holds no bytes. *)
Inductive outcome (A : Type) : Type :=
  | Returned (value : A)
  | Thrown (message : jsstring)
  | TypeErrorThrown.

Arguments Returned {A} value.
Arguments Thrown {A} message.
Arguments TypeErrorThrown {A}.

(** The package is a plain object, [Record<string, Uint8Array>]: a finite
    map holds its own properties, and [files[path]] also finds the
    properties that every plain object inherits from [Object.prototype].
    These are their names; the values are functions, and for [__proto__]
    the prototype object itself: none is a falsy value, none holds
    bytes. *)
Definition objectPrototypeNames : list jsstring :=
  [js "constructor"; js "__defineGetter__"; js "__defineSetter__";
   js "hasOwnProperty"; js "__lookupGetter__"; js "__lookupSetter__";
   js "isPrototypeOf"; js "propertyIsEnumerable"; js "toString";
   js "valueOf"; js "__proto__"; js "toLocaleString"].

Definition inherited (path : jsstring) : bool :=
  bool_decide (path ∈ objectPrototypeNames).

Section DocxUtils.
(** [new TextDecoder().decode], the UTF-8 decoder of the platform, from
    the bytes of a [Uint8Array]. *)
Variable decode : list N -> jsstring.

(** [getXmlContent(files, path)]: what the call gives, and the package
    after the call.  [files[path]] is an own entry, or else an inherited
    property, or else [undefined]; only [undefined] fails the test
    [if (!file)], and the decoder throws a [TypeError] for an inherited
    property. *)
Definition getXmlContent (files : gmap jsstring (list N)) (path : jsstring)
  : outcome jsstring * gmap jsstring (list N) :=
  match files !! path with
  | Some file => (Returned (decode file), files)
  | None =>
      if inherited path then (TypeErrorThrown, files)
      else (Thrown (js "File not found in DOCX: " ++ path), files)
  end.
End DocxUtils.

(** [RegExp.prototype.test] for a pattern without the [g] flag. *)
Definition test (r : regex) (s : jsstring) : bool :=
  match matchFirst r s with Some _ => true | None => false end.

(** [translatablePatterns] of [getTranslatableFiles]: [^ word\/document\.xml $],
    [^ word\/header \d* \.xml $], [^ word\/footer \d* \.xml $],
    [^ word\/footnotes\.xml $], [^ word\/endnotes\.xml $] and
    [^ word\/comments\.xml $], none with a flag. *)
Definition translatablePatterns : list regex :=
  [Seq LineStart (Seq (str (js "word/document.xml")) LineEnd);
   Seq LineStart
     (Seq (str (js "word/header"))
        (Seq (Star true isDigit) (Seq (str (js ".xml")) LineEnd)));
   Seq LineStart
     (Seq (str (js "word/footer"))
        (Seq (Star true isDigit) (Seq (str (js ".xml")) LineEnd)));
   Seq LineStart (Seq (str (js "word/footnotes.xml")) LineEnd);
   Seq LineStart (Seq (str (js "word/endnotes.xml")) LineEnd);
   Seq LineStart (Seq (str (js "word/comments.xml")) LineEnd)].

(** The predicate of the [filter] of [getTranslatableFiles]:
    [translatablePatterns.some(pattern => pattern.test(path))]. *)
Definition isTranslatable (path : jsstring) : bool :=
  existsb (fun pattern => test pattern path) translatablePatterns.

Section Package.
(** [new TextEncoder().encode], the UTF-8 encoder of the platform. *)
Variable encode : jsstring -> list N.

(** [Object.keys] on a package: its paths, in the order of the object. *)
Variable objectKeys : gmap jsstring (list N) -> list jsstring.

(** [setXmlContent(files, path, content)]: the package after the call.
    The assignment [files[path] = ...] sets or adds the own property,
    but for the name [__proto__], when the object has no own property of
    that name, it goes to the setter that the object inherits: that
    changes the prototype and adds no entry.  (The model keeps the
    prototype fixed; the programs assign translatable paths only and
    never change it.) *)
Definition setXmlContent (files : gmap jsstring (list N))
  (path content : jsstring) : gmap jsstring (list N) :=
  match files !! path with
  | Some _ => <[path := encode content]> files
  | None =>
      if bool_decide (path = js "__proto__") then files
      else <[path := encode content]> files
  end.

(** [getTranslatableFiles(files)] *)
Definition getTranslatableFiles (files : gmap jsstring (list N))
  : list jsstring :=
  List.filter isTranslatable (objectKeys files).
End Package.

(** ** The plain-text form: [extract.ts] and [inject.ts] *)

Definition newline : char16 := 10%N.

(** The text that [main] of [extract.ts] writes to the [.txt] file. *)
Definition simpleFormat (allSegments : list ParagraphSegment) : jsstring :=
  join [newline]
    (map (fun seg => js "[" ++ id seg ++ js "]" ++ [newline] ++ text seg
                       ++ [newline])
       allSegments).

(** The pattern of a marker line in [parseTxtTranslations], no flags; with
    spaces between its parts it is [^ \[ ( p \d+ ) \] $]. *)
Definition ID_LINE_REGEX : regex :=
  Seq LineStart
    (Seq (Char 91%N)
       (Seq (Group 1 (Seq (Char 112%N) (Seq (Cls isDigit) (Star true isDigit))))
          (Seq (Char 93%N) LineEnd))).

(** The two places of [parseTxtTranslations] that save the paragraph read
    so far. *)
Definition savePrevious (translations : gmap jsstring jsstring)
  (currentId : option jsstring) (currentText : list jsstring)
  : gmap jsstring jsstring :=
  match currentId with
  | Some currentId' =>
      if Nat.ltb 0 (length currentText)
      then <[currentId' := trim (join [newline] currentText)]> translations
      else translations
  | None => translations
  end.

(** The body of its loop over the lines; the state is [translations],
    [currentId] ([None] is [null]) and [currentText]. *)
Definition parseLine
  (st : gmap jsstring jsstring * option jsstring * list jsstring)
  (line : jsstring)
  : gmap jsstring jsstring * option jsstring * list jsstring :=
  let '(translations, currentId, currentText) := st in
  match matchFirst ID_LINE_REGEX line with
  | Some idMatch =>
      (savePrevious translations currentId currentText,
       Some (orEmpty (group 1 idMatch)), [])
  | None =>
      match currentId with
      | Some _ => (translations, currentId, currentText ++ [line])
      | None => st
      end
  end.

(** [parseTxtTranslations(content)] *)
Definition parseTxtTranslations (content : jsstring)
  : gmap jsstring jsstring :=
  let lines := split newline content in
  let '(translations, currentId, currentText) :=
    foldl parseLine (∅, None, []) lines in
  savePrevious translations currentId currentText.

(** ** The programs: [extract.ts], [inject.ts] and the web application *)

Section Programs.
Variable decode : list N -> jsstring.
Variable encode : jsstring -> list N.
Variable objectKeys : gmap jsstring (list N) -> list jsstring.

(** The loop of [main] of [extract.ts] and of [processFile] over the
    translatable files, from the values of [allSegments] and [nextId]
    before it.  An error of [getXmlContent] ends the loop; [None] is a
    loop of [extractParagraphSegments] that runs out of iterations. *)
Fixpoint extractFiles (files : gmap jsstring (list N))
  (translatableFiles : list jsstring)
  (allSegments : list ParagraphSegment) (nextId : nat)
  : option (outcome (list ParagraphSegment * nat)) :=
  match translatableFiles with
  | [] => Some (Returned (allSegments, nextId))
  | filePath :: rest =>
      match getXmlContent decode files filePath with
      | (Thrown message, _) => Some (Thrown message)
      | (TypeErrorThrown, _) => Some TypeErrorThrown
      | (Returned xml, files') =>
          '(segments, newNextId) ←
            extractParagraphSegments xml filePath nextId;
          extractFiles files' rest (allSegments ++ segments) newNextId
      end
  end.

(** Extraction over a package: [allSegments] and [nextId] after the
    loop. *)
Definition extractAll (files : gmap jsstring (list N))
  : option (outcome (list ParagraphSegment * nat)) :=
  extractFiles files (getTranslatableFiles objectKeys files) [] 0.

(** The loop of [main] of [inject.ts] and of [injectTranslations] over the
    translatable files: the package after the loop. *)
Fixpoint injectFiles (textMap : gmap jsstring jsstring)
  (translatableFiles : list jsstring) (files : gmap jsstring (list N))
  : option (outcome (gmap jsstring (list N))) :=
  match translatableFiles with
  | [] => Some (Returned files)
  | filePath :: rest =>
      match getXmlContent decode files filePath with
      | (Thrown message, _) => Some (Thrown message)
      | (TypeErrorThrown, _) => Some TypeErrorThrown
      | (Returned xml, files') =>
          newXml ← replaceParagraphText xml textMap;
          injectFiles textMap rest (setXmlContent encode files' filePath newXml)
      end
  end.

(** Injection over a package; the list of the translatable files is taken
    before the loop. *)
Definition injectAll (files : gmap jsstring (list N))
  (textMap : gmap jsstring jsstring)
  : option (outcome (gmap jsstring (list N))) :=
  injectFiles textMap (getTranslatableFiles objectKeys files) files.
End Programs.

(** A string as a condition: the empty string is false. *)
Definition truthy (s : jsstring) : bool := negb (Nat.eqb (length s) 0).

(** The body of the loops that build [textMap]:
    [if (translation && translation.trim().length > 0)
       textMap.set(originalText, translation)]. *)
Definition textMapStep (idToTranslation textMap : gmap jsstring jsstring)
  (i originalText : jsstring) : gmap jsstring jsstring :=
  match idToTranslation !! i with
  | Some translation =>
      if truthy translation && Nat.ltb 0 (length (trim translation))
      then <[originalText := translation]> textMap
      else textMap
  | None => textMap
  end.

(** [textMap] of [injectTranslations] of the web application: one step
    for each of [originalSegments]. *)
Definition textMapOfApp (originalSegments : list ParagraphSegment)
  (idToTranslation : gmap jsstring jsstring) : gmap jsstring jsstring :=
  foldl (fun textMap segment =>
           textMapStep idToTranslation textMap (id segment) (text segment))
    ∅ originalSegments.

(** [Map.prototype.set] on a map kept in the order of insertion, the
    order in which [for ... of] visits it. *)
Fixpoint mapSet (m : list (jsstring * jsstring)) (k v : jsstring)
  : list (jsstring * jsstring) :=
  match m with
  | [] => [(k, v)]
  | (k', v') :: m' =>
      if decide (k' = k) then (k, v) :: m' else (k', v') :: mapSet m' k v
  end.

(** [idToOriginal] of [main] of [inject.ts]. *)
Definition idToOriginal (segments : list ParagraphSegment)
  : list (jsstring * jsstring) :=
  foldl (fun m segment => mapSet m (id segment) (text segment)) [] segments.

(** [textMap] of [main] of [inject.ts]: one step for each entry of
    [idToOriginal]. *)
Definition textMapOfMain (segments : list ParagraphSegment)
  (idToTranslation : gmap jsstring jsstring) : gmap jsstring jsstring :=
  foldl (fun textMap entry =>
           textMapStep idToTranslation textMap entry.1 entry.2)
    ∅ (idToOriginal segments).

(** [filteredSegments] and [formattedText] of the web application, for a
    range given by two natural numbers: [all.slice(start, end)], and the
    same rendering as [simpleFormat]. *)
Definition filteredSegments (all : list ParagraphSegment)
  (startParagraph endParagraph : nat) : list ParagraphSegment :=
  take (endParagraph - startParagraph) (drop startParagraph all).

Definition formattedText (all : list ParagraphSegment)
  (startParagraph endParagraph : nat) : jsstring :=
  simpleFormat (filteredSegments all startParagraph endParagraph).

(** * Auxiliary definitions

    What each pattern of the source matches, written as a function of the
    input; the way a paragraph content splits into its text runs; and the
    values that the statements below name. *)

(** [extends x y]: the state [y] is the state [x] moved forward in the
    same input. *)
Definition extends (x y : MatchState) : Prop :=
  exists m, before y = reverse m ++ before x /\ after x = m ++ after y.

(** [stripPrefix p s]: the rest of [s] after its prefix [p]. *)
Fixpoint stripPrefix (p s : jsstring) : option jsstring :=
  match p with
  | [] => Some s
  | c :: p' =>
      match s with
      | d :: s' => if (d =? c)%N then stripPrefix p' s' else None
      | [] => None
      end
  end.

(** [span p s]: the longest prefix of [s] of characters of the class [p],
    and the rest. *)
Fixpoint span (p : char16 -> bool) (s : jsstring) : jsstring * jsstring :=
  match s with
  | c :: s' =>
      if p c then let '(a, w) := span p s' in (c :: a, w) else ([], s)
  | [] => ([], [])
  end.

(** [breakOn p s]: the input before the first occurrence of [p] in [s], and
    the input after it. *)
Fixpoint breakOn (p s : jsstring) : option (jsstring * jsstring) :=
  match stripPrefix p s with
  | Some rest => Some ([], rest)
  | None =>
      match s with
      | [] => None
      | c :: s' =>
          match breakOn p s' with
          | Some (a, rest) => Some (c :: a, rest)
          | None => None
          end
      end
  end.

(** The text of a text run and the input after the run, from the input
    after the [>] of its opening tag. *)
Definition textPhase (z : jsstring) : option (jsstring * jsstring) :=
  let '(t, u) := span notLt z in
  rest ← stripPrefix (js "</w:t>") u;
  Some (t, rest).

(** The attributes after their first character, then the text. *)
Definition attrsPhase (v : jsstring)
  : option (jsstring * jsstring * jsstring) :=
  let '(a, w) := span notGt v in
  match w with
  | _ :: z => '(t, rest) ← textPhase z; Some (a, t, rest)
  | [] => None
  end.

(** A text run at the start of the input: its attributes ([None] when the
    tag has none), its text and the input after it. *)
Definition runAt (s : jsstring)
  : option (option jsstring * jsstring * jsstring) :=
  v ← stripPrefix (js "<w:t") s;
  match v with
  | c :: v' =>
      if isWhiteSpace c then
        '(a, t, rest) ← attrsPhase v'; Some (Some (c :: a), t, rest)
      else if (c =? 62)%N then
        '(t, rest) ← textPhase v'; Some (None, t, rest)
      else None
  | [] => None
  end.

(** The text of a run element with attributes [a] and text [t]. *)
Definition runElement (a : option jsstring) (t : jsstring) : jsstring :=
  js "<w:t" ++ orEmpty a ++ js ">" ++ t ++ js "</w:t>".

Definition runCaptures (a : option jsstring) (t : jsstring)
  : list (nat * jsstring) :=
  (2, t) :: match a with Some a' => [(1, a')] | None => [] end.

(** The text of a paragraph block with opening-tag text [a] after [<w:p]
    and content [c]. *)
Definition paragraphElement (a c : jsstring) : jsstring :=
  js "<w:p" ++ a ++ js ">" ++ c ++ js "</w:p>".

(** A paragraph block at the start of the input: what stands between
    [<w:p] and the first [>], the content up to the first closing tag, and
    the input after that tag. *)
Definition paragraphAt (s : jsstring)
  : option (jsstring * jsstring * jsstring) :=
  v ← stripPrefix (js "<w:p") s;
  if match v with c :: _ => isWordChar c | [] => false end then None
  else
    let '(a, w) := span notGt v in
    match w with
    | _ :: z => '(c, rest) ← breakOn (js "</w:p>") z; Some (a, c, rest)
    | [] => None
    end.

(** An opening paragraph tag at the start of the input, as the pattern of
    line 110 sees it: its attributes ([None] when it has none) and the
    input after the tag. *)
Definition openTagAt (s : jsstring) : option (option jsstring * jsstring) :=
  v ← stripPrefix (js "<w:p") s;
  match v with
  | c :: v' =>
      if isWhiteSpace c then
        let '(a, w) := span notGt v' in
        match w with
        | _ :: z => Some (Some (c :: a), z)
        | [] => None
        end
      else if (c =? 62)%N then Some (None, v')
      else None
  | [] => None
  end.

(** The end of the text-run pattern, from the [>] of the opening tag. *)
Definition TEXT_TAIL : regex :=
  Seq (Char 62%N) (Seq (Group 2 (Star true notLt)) (str (js "</w:t>"))).

(** The optional attribute group of the text-run pattern and of the
    pattern of line 110. *)
Definition ATTRS_GROUP : regex :=
  Optional (Group 1 (Seq (Cls isWhiteSpace) (Star true notGt))).

(** [for (const x of l) acc = body(acc, x)] for a body that may fail. *)
Fixpoint foldOpt {A B : Type} (body : A -> B -> option A) (acc : A)
  (l : list B) : option A :=
  match l with
  | [] => Some acc
  | x :: l' => acc' ← body acc x; foldOpt body acc' l'
  end.

Section Scan.
(** What a pattern matches at the start of an input: the matched text,
    the input after it and the captures. *)
Variable matchAt :
  jsstring -> option (jsstring * jsstring * list (nat * jsstring)).

(** The first match in [s]: the input before it, the matched text, the
    input after it, the captures. *)
Fixpoint findFirst (s : jsstring)
  : option (jsstring * jsstring * jsstring * list (nat * jsstring)) :=
  match matchAt s with
  | Some (mt, rest, caps) => Some ([], mt, rest, caps)
  | None =>
      match s with
      | [] => None
      | c :: s' =>
          match findFirst s' with
          | Some (pre, mt, rest, caps) => Some (c :: pre, mt, rest, caps)
          | None => None
          end
      end
  end.

(** [Parse s l tail]: the successive matches in [s], each with the input
    between the previous match and it, and the input after the last. *)
Inductive Parse
  : jsstring -> list (jsstring * jsstring * list (nat * jsstring)) ->
    jsstring -> Prop :=
| Parse_nil s : findFirst s = None -> Parse s [] s
| Parse_cons s pre mt rest caps l tail :
    findFirst s = Some (pre, mt, rest, caps) ->
    Parse rest l tail ->
    Parse s ((pre, mt, caps) :: l) tail.

(** The results that [exec] gives for the matches of a parse that starts
    at index [off]. *)
Fixpoint results (off : nat)
  (l : list (jsstring * jsstring * list (nat * jsstring)))
  : list MatchResult :=
  match l with
  | [] => []
  | (pre, mt, caps) :: l' =>
      mkResult (off + length pre) mt caps (off + length pre + length mt)
      :: results (off + length pre + length mt) l'
  end.

(** The input with each match replaced. *)
Fixpoint assemble
  (l : list (jsstring * jsstring * list (nat * jsstring)))
  (reps : list jsstring) (tail : jsstring) : jsstring :=
  match l, reps with
  | (pre, _, _) :: l', rep :: reps' => pre ++ rep ++ assemble l' reps' tail
  | _, _ => tail
  end.
End Scan.

(** The text-run pattern in the form of [Scan]. *)
Definition runMatchAt (s : jsstring)
  : option (jsstring * jsstring * list (nat * jsstring)) :=
  '(a, t, rest) ← runAt s;
  Some (runElement a t, rest, runCaptures a t).

(** The paragraph pattern in that form. *)
Definition paragraphMatchAt (s : jsstring)
  : option (jsstring * jsstring * list (nat * jsstring)) :=
  '(a, c, rest) ← paragraphAt s;
  Some (paragraphElement a c, rest, [(1, c)]).

(** A string without [<]. *)
Definition noLt (t : jsstring) : Prop := Forall (fun c => notLt c = true) t.

(** A string without [>]. *)
Definition noGt (t : jsstring) : Prop := Forall (fun c => notGt c = true) t.

(** The attributes that the optional group can capture: nothing, or a
    white-space character followed by characters other than [>]. *)
Definition wfAttrs (a : option jsstring) : Prop :=
  match a with
  | None => True
  | Some [] => False
  | Some (c :: a') => isWhiteSpace c = true /\ noGt a'
  end.

(** Whether a scan succeeds. *)
Definition isSome {A : Type} (o : option A) : bool :=
  match o with Some _ => true | None => false end.

(** A text run of a paragraph: the content before it, its attributes and
    its text. *)
Definition runEntry (e : jsstring * option jsstring * jsstring)
  : jsstring * jsstring * list (nat * jsstring) :=
  let '(pre, a, t) := e in (pre, runElement a t, runCaptures a t).

(** Its attributes are those of a tag and its text has no [<]. *)
Definition wfRun (e : jsstring * option jsstring * jsstring) : Prop :=
  wfAttrs e.1.2 /\ noLt e.2.

(** The content of a paragraph with the texts of its runs replaced. *)
Fixpoint rebuild (rl : list (jsstring * option jsstring * jsstring))
  (ts : list jsstring) (tail : jsstring) : jsstring :=
  match rl, ts with
  | (pre, a, _) :: rl', t :: ts' =>
      pre ++ runElement a t ++ rebuild rl' ts' tail
  | _, _ => tail
  end.

(** The text runs themselves with their new texts. *)
Fixpoint retext (rl : list (jsstring * option jsstring * jsstring))
  (ts : list jsstring) : list (jsstring * option jsstring * jsstring) :=
  match rl, ts with
  | (pre, a, _) :: rl', t :: ts' => (pre, a, t) :: retext rl' ts'
  | _, _ => []
  end.

(** The text runs of a paragraph content as the run pattern finds them:
    the attributes ([None] when the tag has none) and the text of each. *)
Definition textRuns (paragraphContent : jsstring)
  : list (option jsstring * jsstring) :=
  map (fun m => (group 1 m, orEmpty (group 2 m)))
    (globalMatches TEXT_ELEMENT_REGEX paragraphContent).

(** [RunParse s rl tail]: the content [s] is the runs [rl], each after the
    content that stands before it, and then [tail]. *)
Definition RunParse (s : jsstring)
  (rl : list (jsstring * option jsstring * jsstring)) (tail : jsstring)
  : Prop :=
  Parse runMatchAt s (map runEntry rl) tail /\ Forall wfRun rl.

(** The texts that the inner [replace] gives to the runs. *)
Definition newTexts (translation : jsstring) (isFirst : bool)
  (rl : list (jsstring * option jsstring * jsstring)) : list jsstring :=
  match rl with
  | [] => []
  | _ :: rl' =>
      (if isFirst then escapeXml translation else [])
      :: map (fun _ => []) rl'
  end.

(** A one-character pattern in the form of [Scan]. *)
Definition charMatchAt (c : char16) (s : jsstring)
  : option (jsstring * jsstring * list (nat * jsstring)) :=
  match s with
  | d :: rest => if (d =? c)%N then Some ([d], rest, []) else None
  | [] => None
  end.

(** Every [c] of [s] replaced by [rep]. *)
Fixpoint replaceChar (c : char16) (rep s : jsstring) : jsstring :=
  match s with
  | [] => []
  | d :: s' => (if (d =? c)%N then rep else [d]) ++ replaceChar c rep s'
  end.

(** The texts of the text runs of the paragraph block [m]. *)
Definition paragraphTexts (m : MatchResult) : list jsstring :=
  map snd (textRuns (orEmpty (group 1 m))).

(** The counter after [k] increments. *)
Definition advance (id k : nat) : nat := Nat.iter k increment id.

(** The segments that the loop of [extractParagraphSegments] adds for
    paragraphs with the given run texts, from counter [id] on. *)
Fixpoint segmentsOf (source : jsstring) (id : nat)
  (ps : list (list jsstring)) : list ParagraphSegment :=
  match ps with
  | [] => []
  | texts :: ps' =>
      if Nat.eqb (length (trim (join [] texts))) 0
      then segmentsOf source id ps'
      else mkSegment (js "p" ++ numberToString id) (join [] texts) None
             source (length texts)
           :: segmentsOf source (increment id) ps'
  end.

(** The pattern of line 110 in the form of [Scan]. *)
Definition openTagMatchAt (s : jsstring)
  : option (jsstring * jsstring * list (nat * jsstring)) :=
  '(a, rest) ← openTagAt s;
  Some (js "<w:p" ++ orEmpty a ++ js ">", rest,
        match a with Some a' => [(1, a')] | None => [] end).

(** [noCloseIn x Z]: in the input [x ++ Z] no closing paragraph tag starts
    inside [x]. *)
Fixpoint noCloseIn (x Z : jsstring) : Prop :=
  match x with
  | [] => True
  | d :: x' =>
      stripPrefix (js "</w:p>") (d :: x' ++ Z) = None /\ noCloseIn x' Z
  end.

(** ** Escaping, one character at a time *)

(** What [escapeXml] writes for one character. *)
Definition escapeChar (c : char16) : jsstring :=
  if (c =? 38)%N then js "&amp;"
  else if (c =? 60)%N then js "&lt;"
  else if (c =? 62)%N then js "&gt;"
  else if (c =? dquote)%N then js "&quot;"
  else if (c =? 39)%N then js "&apos;"
  else [c].

(** A character that [escapeXml] leaves as it is. *)
Definition plain (c : char16) : Prop :=
  c <> 38%N /\ c <> 60%N /\ c <> 62%N /\ c <> 34%N /\ c <> 39%N.

(** A literal pattern in the form of [Scan]. *)
Definition strMatchAt (e s : jsstring)
  : option (jsstring * jsstring * list (nat * jsstring)) :=
  rest ← stripPrefix e s; Some (e, rest, []).

(** [noOcc e x Z]: in the input [x ++ Z] no occurrence of [e] starts
    inside [x]. *)
Fixpoint noOcc (e x Z : jsstring) : Prop :=
  match x with
  | [] => True
  | d :: x' => stripPrefix e (d :: x' ++ Z) = None /\ noOcc e x' Z
  end.

(** [goodTokens e tokens]: the input cut into pieces, each of which is the
    literal [e] or has no occurrence of it starting inside it. *)
Fixpoint goodTokens (e : jsstring) (tokens : list jsstring) : Prop :=
  match tokens with
  | [] => True
  | tk :: tokens' =>
      (tk = e \/ noOcc e tk (concat tokens')) /\ goodTokens e tokens'
  end.

(** The text after some of the replacements of [unescapeXml]: the
    characters of [D] are back, the others are still escaped. *)
Definition stage (D : list char16) (d : char16) : jsstring :=
  if existsb (N.eqb d) D then [d] else escapeChar d.

(** [afterAmp w t]: no [&] of [t] is followed by [w]. *)
Fixpoint afterAmp (w t : jsstring) : Prop :=
  match t with
  | [] => True
  | d :: t' => (d = 38%N -> stripPrefix w t' = None) /\ afterAmp w t'
  end.

(** ** The paths of the translatable parts *)

(** The pattern [^ word\/<name>\.xml $]. *)
Definition fixedPart (name : jsstring) : regex :=
  Seq LineStart (Seq (str (js "word/" ++ name ++ js ".xml")) LineEnd).

(** The pattern [^ word\/<name> \d* \.xml $]. *)
Definition numberedPart (name : jsstring) : regex :=
  Seq LineStart
    (Seq (str (js "word/" ++ name))
       (Seq (Star true isDigit) (Seq (str (js ".xml")) LineEnd))).

(** A string of digits. *)
Definition allDigits (ds : jsstring) : Prop :=
  Forall (fun c => isDigit c = true) ds.

(** ** Marker lines and rendered blocks *)

(** The identifier of a marker line: the line is [[p], digits, at least
    one, and []]. *)
Definition markerId (line : jsstring) : option jsstring :=
  v ← stripPrefix (js "[p") line;
  match span isDigit v with
  | (d :: ds, w) =>
      if decide (w = [93%N]) then Some (112%N :: d :: ds) else None
  | ([], _) => None
  end.

(** An identifier that a marker line can carry: [p] and one digit or
    more. *)
Definition isMarkerId (i : jsstring) : Prop :=
  exists d ds, i = 112%N :: d :: ds /\ allDigits (d :: ds).

(** The lines of the block that [simpleFormat] writes for a segment. *)
Definition blockLines (seg : ParagraphSegment) : list jsstring :=
  (js "[" ++ id seg ++ js "]") :: split newline (text seg) ++ [[]].

(** What [parseTxtTranslations] returns from a state of its loop. *)
Definition finalOf
  (st : gmap jsstring jsstring * option jsstring * list jsstring)
  : gmap jsstring jsstring :=
  savePrevious st.1.1 st.1.2 st.2.

(** A segment whose block reads back as one block: its identifier can
    stand in a marker line and no line of its text is a marker line. *)
Definition wfBlock (seg : ParagraphSegment) : Prop :=
  isMarkerId (id seg) /\
  Forall (fun line => markerId line = None) (split newline (text seg)).

(** The entry that a block gives. *)
Definition setTrimmed (m : gmap jsstring jsstring) (seg : ParagraphSegment)
  : gmap jsstring jsstring :=
  <[id seg := trim (text seg)]> m.

(** ** Opening tags and the pieces of a document part *)

(** Attributes that are empty or start with white space. *)
Definition startsBlank (a : jsstring) : Prop :=
  match a with [] => True | d :: _ => isWhiteSpace d = true end.

(** A document part put together from the pieces before its blocks, the
    blocks and the rest. *)
Definition pieces (blocks : list (jsstring * jsstring)) (tail : jsstring)
  : jsstring :=
  concat (map (fun b => b.1 ++ b.2) blocks) ++ tail.

(** ** The paragraph blocks of a rewritten part *)

(** The start of a paragraph block: [<w:p] and then no word character. *)
Definition opens (s : jsstring) : bool :=
  match stripPrefix (js "<w:p") s with
  | Some v => negb (match v with c :: _ => isWordChar c | [] => false end)
  | None => false
  end.

(** Attributes that do not start with a word character. *)
Definition headOK (a : jsstring) : Prop :=
  match a with d :: _ => isWordChar d = false | [] => True end.

(** The key of a paragraph after the injection, from its text runs
    before: the paragraph keeps its key when the key is not in the
    mapping; otherwise the key becomes the escaped translation, or stays
    empty when the paragraph has no text run to take it. *)
Definition newKey (translations : gmap jsstring jsstring)
  (runs : list (option jsstring * jsstring)) : jsstring :=
  match translations !! join [] (map snd runs) with
  | Some translation =>
      match runs with [] => [] | _ :: _ => escapeXml translation end
  | None => join [] (map snd runs)
  end.

(** An entry of the parse of a part and the entry of the rewritten part
    that stands for it. *)
Definition writtenEntry (translations : gmap jsstring jsstring)
  (e e' : jsstring * jsstring * list (nat * jsstring)) : Prop :=
  e'.1.1 = e.1.1 /\
  paragraphCallback translations e.1.2 (orEmpty (getCapture 1 e.2))
    = Some e'.1.2 /\
  exists c', e'.2 = [(1, c')] /\
    join [] (map snd (textRuns c'))
    = newKey translations (textRuns (orEmpty (getCapture 1 e.2))).

(** ** The inputs of the examples *)

(** A paragraph block with no content but a run of one space, followed by
    a paragraph block with text. *)
Definition C5_example : jsstring :=
  js "<w:p><w:r><w:t> </w:t></w:r></w:p><w:p><w:r><w:t>Hi</w:t></w:r></w:p>".

(** The content of a paragraph with two text runs, the second with an
    attribute. *)
Definition C2_example : jsstring :=
  js "<w:r><w:t>Hello</w:t></w:r>"
  ++ js "<w:r><w:t xml:space='preserve'> world</w:t></w:r>".

(** A paragraph block with one text run. *)
Definition C6_example : jsstring := js "<w:p><w:r><w:t>A</w:t></w:r></w:p>".

(** Two paragraph blocks with text, and the counter [2^53], the first
    integer whose successor is no double. *)
Definition C9_example : jsstring :=
  js "<w:p><w:r><w:t>A</w:t></w:r></w:p><w:p><w:r><w:t>B</w:t></w:r></w:p>".

Definition C9_startId : nat := N.to_nat (2 ^ 53).

(** The two segments of the example of the plain-text round trip. *)
Definition C8_segments : list ParagraphSegment :=
  [mkSegment (js "p0") (js "A") None (js "word/document.xml") 1;
   mkSegment (js "p1") (js "B") None (js "word/document.xml") 1].

(** A package with one translatable part and one other entry; a decoder
    and an encoder that take each byte as one code unit; the paths of a
    package in the order of the map. *)
Definition example_xml : jsstring :=
  js "<w:p><w:r><w:t>Hello</w:t></w:r></w:p><w:p/>".

Definition example_files : gmap jsstring (list N) :=
  {[ js "word/document.xml" := example_xml;
     js "word/styles.xml" := js "<w:styles/>" ]}.

Definition example_keys (files : gmap jsstring (list N)) : list jsstring :=
  (map_to_list files).*1.

Definition example_code (bytes : list N) : list N := bytes.

(** Two segments, and the first with a text that needs trimming. *)
Definition example_segments : list ParagraphSegment :=
  [mkSegment (js "p0") (js " Tom & Jerry") None (js "word/document.xml") 2;
   mkSegment (js "p1") (js "[p1] twice") None (js "word/header1.xml") 1].

(** A paragraph block after an empty paragraph written as [<w:p/>]: the
    paragraph pattern matches the two together. *)
Definition example_self_closing : jsstring :=
  js "<w:p/><w:p w:rsidR='1'><w:r><w:t>A</w:t></w:r></w:p>".

(** * Lemmas *)

(** ** Prefixes and spans *)

Lemma stripPrefix_Some (p s rest : jsstring) :
  stripPrefix p s = Some rest -> s = p ++ rest.
Proof.
  revert s. induction p as [|c p IH]; intros s H; simpl in *.
  - congruence.
  - destruct s as [|d s']; [discriminate|].
    destruct (N.eqb_spec d c); [|discriminate].
    subst. f_equal. auto.
Qed.

Lemma stripPrefix_app (p rest : jsstring) :
  stripPrefix p (p ++ rest) = Some rest.
Proof.
  induction p as [|c p IH]; simpl; [reflexivity|].
  rewrite N.eqb_refl. exact IH.
Qed.

Lemma span_app (p : char16 -> bool) (s : jsstring) :
  s = (span p s).1 ++ (span p s).2.
Proof.
  induction s as [|c s IH]; simpl; [reflexivity|].
  destruct (p c); [|reflexivity].
  destruct (span p s) as [a w]; simpl in *. congruence.
Qed.

Lemma span_Forall (p : char16 -> bool) (s : jsstring) :
  Forall (fun c => p c = true) (span p s).1.
Proof.
  induction s as [|c s IH]; simpl; [constructor|].
  destruct (p c) eqn:E; [|constructor].
  destruct (span p s) as [a w]; simpl in *. constructor; assumption.
Qed.

Lemma span_rest (p : char16 -> bool) (s : jsstring) c w :
  (span p s).2 = c :: w -> p c = false.
Proof.
  induction s as [|d s IH]; simpl; [discriminate|].
  destruct (p d) eqn:E.
  - destruct (span p s) as [a w']; simpl in *. exact IH.
  - intros [= -> _]. exact E.
Qed.

Lemma span_all (p : char16 -> bool) (a s : jsstring) :
  Forall (fun c => p c = true) a ->
  span p (a ++ s) = (a ++ (span p s).1, (span p s).2).
Proof.
  induction 1 as [|c a Hc _ IH]; simpl.
  - destruct (span p s); reflexivity.
  - rewrite Hc, IH. reflexivity.
Qed.

Lemma span_stop (p : char16 -> bool) (c : char16) (s : jsstring) :
  p c = false -> span p (c :: s) = ([], c :: s).
Proof. intros H. simpl. rewrite H. reflexivity. Qed.

(** ** The matcher on literals and quantified classes *)

Lemma matcher_str (p : jsstring) (k : Continuation) bef aft caps :
  matcher (str p) k (mkState bef aft caps) =
  match stripPrefix p aft with
  | Some rest => k (mkState (reverse p ++ bef) rest caps)
  | None => None
  end.
Proof.
  revert bef aft. induction p as [|c p IH]; intros bef aft; simpl.
  - reflexivity.
  - destruct aft as [|d aft']; [reflexivity|].
    destruct (d =? c)%N eqn:E; [|reflexivity].
    apply N.eqb_eq in E. subst d. rewrite IH.
    rewrite reverse_cons, <- app_assoc. reflexivity.
Qed.

(** A greedy loop followed by something that fails on every character of
    the class stops exactly where the class ends. *)
Lemma repeatCls_greedy (p : char16 -> bool) (k : Continuation) bef aft caps :
  (forall b c w, p c = true -> k (mkState b (c :: w) caps) = None) ->
  repeatCls true p k bef aft caps =
  k (mkState (reverse (span p aft).1 ++ bef) (span p aft).2 caps).
Proof.
  intros Hk. revert bef. induction aft as [|c aft IH]; intros bef; simpl.
  - reflexivity.
  - destruct (p c) eqn:E; [|reflexivity].
    rewrite IH. destruct (span p aft) as [a w]; simpl.
    rewrite reverse_cons, <- app_assoc. simpl.
    rewrite (Hk bef c aft E).
    destruct (k _); reflexivity.
Qed.

Ltac js_norm :=
  repeat match goal with
  | |- context [js ?s] =>
      let v := eval vm_compute in (js s) in change (js s) with v
  end.

Lemma consumed_app b a c m a' c' :
  consumed (mkState b a c) (mkState (reverse m ++ b) a' c') = m.
Proof.
  unfold consumed, endIndex; simpl.
  rewrite length_app, length_reverse.
  replace (length m + length b - length b) with (length (reverse m))
    by (rewrite length_reverse; lia).
  rewrite take_app_length. apply reverse_involutive.
Qed.

Lemma consumed_cons b a c d m a' c' :
  consumed (mkState b a c) (mkState (reverse m ++ d :: b) a' c') = d :: m.
Proof.
  replace (reverse m ++ d :: b) with (reverse (d :: m) ++ b)
    by (rewrite reverse_cons, <- app_assoc; reflexivity).
  apply consumed_app.
Qed.

Lemma TEXT_TAIL_at b w caps :
  matcher TEXT_TAIL Some (mkState b w caps) =
  match w with
  | d :: z =>
      if (d =? 62)%N then
        match textPhase z with
        | Some (t, rest) =>
            Some (mkState (reverse (js "</w:t>") ++ reverse t ++ d :: b) rest
                    ((2, t) :: caps))
        | None => None
        end
      else None
  | [] => None
  end.
Proof.
  unfold TEXT_TAIL. cbn [matcher after before captures].
  destruct w as [|d z]; [reflexivity|].
  destruct (d =? 62)%N; [|reflexivity].
  rewrite repeatCls_greedy.
  - unfold textPhase. destruct (span notLt z) as [t u] eqn:E. cbn [fst snd].
    rewrite consumed_app. unfold setCapture. cbn [before after captures].
    rewrite matcher_str.
    destruct (stripPrefix (js "</w:t>") u); reflexivity.
  - intros b' c w' Hc. unfold setCapture. cbn [before after captures].
    rewrite matcher_str. js_norm. cbn [stripPrefix].
    unfold notLt in Hc. destruct (c =? 60)%N; [discriminate|reflexivity].
Qed.

Lemma whiteSpace_notGt c : isWhiteSpace c = true -> notGt c = true.
Proof.
  unfold notGt. destruct (N.eqb_spec c 62%N) as [->|]; [|reflexivity].
  vm_compute. discriminate.
Qed.

Lemma ATTRS_GROUP_at (T : regex) b v caps :
  (forall b' c w caps',
     notGt c = true -> matcher T Some (mkState b' (c :: w) caps') = None) ->
  matcher ATTRS_GROUP (matcher T Some) (mkState b v caps) =
  match v with
  | c :: v' =>
      if isWhiteSpace c then
        matcher T Some
          (mkState (reverse (span notGt v').1 ++ c :: b) (span notGt v').2
             ((1, c :: (span notGt v').1) :: caps))
      else matcher T Some (mkState b v caps)
  | [] => matcher T Some (mkState b [] caps)
  end.
Proof.
  intros HT. unfold ATTRS_GROUP.
  cbn [matcher after before captures].
  destruct v as [|c v']; [reflexivity|].
  destruct (isWhiteSpace c) eqn:Ews; [|reflexivity].
  rewrite repeatCls_greedy.
  - rewrite consumed_cons. unfold setCapture, endIndex.
    cbn [before after captures].
    rewrite length_app. cbn [length].
    replace (length (reverse (span notGt v').1) + S (length b) =? length b)
      with false by (symmetry; apply Nat.eqb_neq; lia).
    rewrite (HT b c v' caps (whiteSpace_notGt c Ews)).
    destruct (matcher T Some _); reflexivity.
  - intros b' d w Hd. unfold setCapture, endIndex.
    cbn [before after captures].
    destruct (length b' =? length b); [reflexivity|].
    apply HT, Hd.
Qed.

Lemma TEXT_TAIL_notGt b c w caps :
  notGt c = true -> matcher TEXT_TAIL Some (mkState b (c :: w) caps) = None.
Proof.
  intros H. rewrite TEXT_TAIL_at. unfold notGt in H.
  destruct (c =? 62)%N; [discriminate|reflexivity].
Qed.

Lemma notGt_false c : notGt c = false -> c = 62%N.
Proof.
  unfold notGt. destruct (N.eqb_spec c 62%N); [auto|discriminate].
Qed.

Lemma notLt_false c : notLt c = false -> c = 60%N.
Proof.
  unfold notLt. destruct (N.eqb_spec c 60%N); [auto|discriminate].
Qed.

Ltac list_norm :=
  unfold runElement, paragraphElement, orEmpty; js_norm;
  repeat first
    [ rewrite reverse_app | rewrite reverse_cons | rewrite reverse_nil
    | rewrite <- app_assoc | progress cbn [app] ].

Lemma TEXT_at bef aft :
  matcher TEXT_ELEMENT_REGEX Some (mkState bef aft []) =
  match runAt aft with
  | Some (a, t, rest) =>
      Some (mkState (reverse (runElement a t) ++ bef) rest (runCaptures a t))
  | None => None
  end.
Proof.
  change TEXT_ELEMENT_REGEX
    with (Seq (str (js "<w:t")) (Seq ATTRS_GROUP TEXT_TAIL)).
  cbn [matcher]. rewrite matcher_str. unfold runAt.
  destruct (stripPrefix (js "<w:t") aft) as [v|]; [|reflexivity].
  cbn [mbind option_bind].
  rewrite ATTRS_GROUP_at by apply TEXT_TAIL_notGt.
  destruct v as [|c v'].
  - rewrite TEXT_TAIL_at. reflexivity.
  - destruct (isWhiteSpace c) eqn:Ews.
    + unfold attrsPhase. rewrite TEXT_TAIL_at.
      destruct (span notGt v') as [a w] eqn:Esp. cbn [fst snd].
      destruct w as [|d z]; [reflexivity|].
      assert (d = 62%N) as ->.
      { apply notGt_false, (span_rest notGt v' d z). rewrite Esp. reflexivity. }
      cbn [N.eqb Pos.eqb].
      destruct (textPhase z) as [[t rest]|]; [|reflexivity].
      cbn [mbind option_bind]. f_equal. f_equal.
      list_norm. reflexivity.
    + rewrite TEXT_TAIL_at.
      destruct (c =? 62)%N eqn:Ec; [|reflexivity].
      apply N.eqb_eq in Ec. subst c.
      destruct (textPhase v') as [[t rest]|]; [|reflexivity].
      cbn [mbind option_bind]. f_equal. f_equal.
      list_norm. reflexivity.
Qed.

(** A lazy loop over any character, followed by something that succeeds
    exactly on the inputs that start with [q], stops at the first
    occurrence of [q]. *)
Lemma repeatCls_lazy (q : jsstring) (k : Continuation) bef aft caps :
  (forall b w, stripPrefix q w = None -> k (mkState b w caps) = None) ->
  (forall b w, stripPrefix q w <> None -> k (mkState b w caps) <> None) ->
  repeatCls false anyChar k bef aft caps =
  match breakOn q aft with
  | Some (a, rest) => k (mkState (reverse a ++ bef) (q ++ rest) caps)
  | None => None
  end.
Proof.
  intros Hn Hs. revert bef. induction aft as [|c aft IH]; intros bef.
  - cbn [repeatCls breakOn].
    destruct (stripPrefix q []) as [rest|] eqn:E.
    + apply stripPrefix_Some in E. rewrite <- E. reflexivity.
    + apply Hn, E.
  - cbn [repeatCls breakOn anyChar].
    destruct (stripPrefix q (c :: aft)) as [rest|] eqn:E.
    + pose proof (Hs bef (c :: aft)) as H. rewrite E in H.
      apply stripPrefix_Some in E. rewrite <- E.
      destruct (k _); [reflexivity|]. exfalso. apply H; congruence.
    + rewrite (Hn bef (c :: aft) E). cbn [orElse]. rewrite IH.
      destruct (breakOn q aft) as [[a rest]|]; [|reflexivity].
      rewrite reverse_cons, <- app_assoc. reflexivity.
Qed.

Lemma PARAGRAPH_at bef aft :
  matcher PARAGRAPH_REGEX Some (mkState bef aft []) =
  match paragraphMatchAt aft with
  | Some (mt, rest, caps) => Some (mkState (reverse mt ++ bef) rest caps)
  | None => None
  end.
Proof.
  unfold PARAGRAPH_REGEX, paragraphMatchAt, paragraphAt.
  cbn [matcher]. rewrite matcher_str.
  destruct (stripPrefix (js "<w:p") aft) as [v|]; [|reflexivity].
  cbn [mbind option_bind].
  unfold isWordBefore, isWordAfter. cbn [before after captures].
  js_norm. cbn [reverse rev_append app].
  change (isWordChar 112%N) with true. cbn [xorb].
  destruct (match v with [] => false | c :: _ => isWordChar c end);
    [reflexivity|].
  cbn [negb].
  rewrite repeatCls_greedy.
  2:{ intros b c w Hc. cbn [after]. unfold notGt in Hc.
      destruct (c =? 62)%N; [discriminate|reflexivity]. }
  destruct (span notGt v) as [a w] eqn:Esp. cbn [fst snd after before captures].
  destruct w as [|d z]; [reflexivity|].
  assert (d = 62%N) as ->.
  { apply notGt_false, (span_rest notGt v d z). rewrite Esp. reflexivity. }
  cbn [N.eqb Pos.eqb].
  rewrite (repeatCls_lazy [60; 47; 119; 58; 112; 62]%N).
  - destruct (breakOn _ z) as [[c rest]|]; [|reflexivity].
    cbn [mbind option_bind].
    change (62%N :: reverse a ++ 112%N :: 58%N :: 119%N :: 60%N :: bef)
      with ([] ++ 62%N :: reverse a ++ 112%N :: 58%N :: 119%N :: 60%N :: bef)
      at 1.
    rewrite consumed_app. unfold setCapture. cbn [before after captures].
    rewrite matcher_str, stripPrefix_app. f_equal. f_equal.
    unfold paragraphElement. list_norm. reflexivity.
  - intros b w Hw. unfold setCapture. cbn [before after captures].
    rewrite matcher_str, Hw. reflexivity.
  - intros b w Hw. unfold setCapture. cbn [before after captures].
    rewrite matcher_str. destruct (stripPrefix _ w); congruence.
Qed.

(** ** Text runs: what [runAt] accepts *)

Lemma span_pair (p : char16 -> bool) s :
  span p s = ((span p s).1, (span p s).2).
Proof. destruct (span p s); reflexivity. Qed.

Lemma textPhase_sound z t rest :
  textPhase z = Some (t, rest) -> z = t ++ js "</w:t>" ++ rest /\ noLt t.
Proof.
  unfold textPhase. rewrite (span_pair notLt z).
  destruct (stripPrefix _ _) as [r|] eqn:E; [|discriminate].
  cbn [mbind option_bind]. intros [= <- <-].
  apply stripPrefix_Some in E. split; [|apply span_Forall].
  rewrite <- E. apply span_app.
Qed.

Lemma textPhase_complete t rest :
  noLt t -> textPhase (t ++ js "</w:t>" ++ rest) = Some (t, rest).
Proof.
  intros Ht. unfold textPhase. rewrite (span_all notLt t _ Ht).
  js_norm. cbn [app]. rewrite span_stop by reflexivity. cbn [fst snd].
  rewrite app_nil_r. reflexivity.
Qed.

Lemma attrsPhase_sound v a t rest :
  attrsPhase v = Some (a, t, rest) ->
  v = a ++ js ">" ++ t ++ js "</w:t>" ++ rest /\ noGt a /\ noLt t.
Proof.
  unfold attrsPhase. rewrite (span_pair notGt v).
  destruct (span notGt v).2 as [|d z] eqn:E; [discriminate|].
  destruct (textPhase z) as [[t' rest']|] eqn:Et; [|discriminate].
  cbn [mbind option_bind]. intros [= <- <- <-].
  destruct (textPhase_sound _ _ _ Et) as [-> Ht].
  pose proof (notGt_false _ (span_rest _ _ _ _ E)) as ->.
  split; [|split; [apply span_Forall|exact Ht]].
  rewrite (span_app notGt v) at 1. rewrite E. reflexivity.
Qed.

Lemma attrsPhase_complete a t rest :
  noGt a -> noLt t ->
  attrsPhase (a ++ js ">" ++ t ++ js "</w:t>" ++ rest) = Some (a, t, rest).
Proof.
  intros Ha Ht. unfold attrsPhase. rewrite (span_all notGt a _ Ha).
  change (js ">" ++ ?x) with (62%N :: x).
  rewrite span_stop by reflexivity. cbn [fst snd]. rewrite app_nil_r.
  rewrite textPhase_complete by exact Ht. reflexivity.
Qed.

Lemma runAt_sound s a t rest :
  runAt s = Some (a, t, rest) ->
  s = runElement a t ++ rest /\ wfAttrs a /\ noLt t.
Proof.
  unfold runAt.
  destruct (stripPrefix (js "<w:t") s) as [v|] eqn:E; [|discriminate].
  apply stripPrefix_Some in E. subst s. cbn [mbind option_bind].
  destruct v as [|c v']; [discriminate|].
  destruct (isWhiteSpace c) eqn:Ews.
  - destruct (attrsPhase v') as [[[a' t'] rest']|] eqn:Ea; [|discriminate].
    cbn [mbind option_bind]. intros [= <- <- <-].
    destruct (attrsPhase_sound _ _ _ _ Ea) as (-> & Ha & Ht).
    split; [|split; [split; assumption|assumption]].
    list_norm. reflexivity.
  - destruct (c =? 62)%N eqn:Ec; [|discriminate].
    apply N.eqb_eq in Ec. subst c.
    destruct (textPhase v') as [[t' rest']|] eqn:Et; [|discriminate].
    cbn [mbind option_bind]. intros [= <- <- <-].
    destruct (textPhase_sound _ _ _ Et) as (-> & Ht).
    split; [|split; [exact I|assumption]].
    list_norm. reflexivity.
Qed.

Lemma runAt_complete a t rest :
  wfAttrs a -> noLt t -> runAt (runElement a t ++ rest) = Some (a, t, rest).
Proof.
  intros Ha Ht. unfold runAt, runElement. rewrite <- !app_assoc.
  rewrite stripPrefix_app. cbn [mbind option_bind].
  destruct a as [[|c a']|]; cbn [orEmpty wfAttrs] in *; [contradiction| |].
  - destruct Ha as [Hc Ha]. cbn [app]. rewrite Hc.
    rewrite attrsPhase_complete by assumption. reflexivity.
  - cbn [app]. change (js ">" ++ ?x) with (62%N :: x).
    change (isWhiteSpace 62%N) with false. cbn [N.eqb Pos.eqb].
    rewrite textPhase_complete by assumption. reflexivity.
Qed.

Lemma runMatchAt_sound s mt rest caps :
  runMatchAt s = Some (mt, rest, caps) -> s = mt ++ rest /\ mt <> [].
Proof.
  unfold runMatchAt.
  destruct (runAt s) as [[[a t] rest']|] eqn:E; [|discriminate].
  cbn [mbind option_bind]. intros [= <- <- <-].
  destruct (runAt_sound _ _ _ _ E) as (-> & _). split; [reflexivity|].
  unfold runElement. js_norm. discriminate.
Qed.

(** Whether a string that has no [<] is a prefix does not depend on what
    follows a [<] in the input. *)
Lemma stripPrefix_before_lt q x y y' :
  noLt q ->
  isSome (stripPrefix q (x ++ 60%N :: y)) =
  isSome (stripPrefix q (x ++ 60%N :: y')).
Proof.
  intros Hq. revert x. induction Hq as [|c q Hc _ IH]; intros x.
  - reflexivity.
  - destruct x as [|d x]; cbn [app stripPrefix].
    + unfold notLt in Hc. rewrite N.eqb_sym. destruct (c =? 60)%N;
        [discriminate|reflexivity].
    + destruct (d =? c)%N; [apply IH|reflexivity].
Qed.

Lemma runElement_head a t rest :
  exists y, runElement a t ++ rest = 60%N :: 119%N :: y.
Proof. unfold runElement. js_norm. cbn [app]. eauto. Qed.

Lemma textPhase_cons c z :
  textPhase (c :: z) =
  if notLt c then '(t, rest) ← textPhase z; Some (c :: t, rest)
  else rest ← stripPrefix (js "</w:t>") (c :: z); Some ([], rest).
Proof.
  unfold textPhase. cbn [span]. destruct (notLt c); [|reflexivity].
  destruct (span notLt z) as [t u].
  destruct (stripPrefix _ u); reflexivity.
Qed.

Lemma attrsPhase_cons c v :
  attrsPhase (c :: v) =
  if notGt c then '(a, t, rest) ← attrsPhase v; Some (c :: a, t, rest)
  else '(t, rest) ← textPhase v; Some ([], t, rest).
Proof.
  unfold attrsPhase. cbn [span]. destruct (notGt c); [|reflexivity].
  destruct (span notGt v) as [a w]. destruct w; [reflexivity|].
  destruct (textPhase w) as [[t rest]|]; reflexivity.
Qed.

Lemma isSome_bind {A B : Type} (o : option A) (f : A -> option B) :
  (forall x, isSome (f x) = true) -> isSome (o ≫= f) = isSome o.
Proof. intros H. destruct o; simpl; auto. Qed.

Section Subst.
Variables (a : option jsstring) (t t' R R' : jsstring).
Hypothesis Ha : wfAttrs a.
Hypothesis Ht : noLt t.
Hypothesis Ht' : noLt t'.

Lemma textPhase_subst x :
  isSome (textPhase (x ++ runElement a t ++ R)) =
  isSome (textPhase (x ++ runElement a t' ++ R')).
Proof.
  destruct (runElement_head a t R) as [y Hy].
  destruct (runElement_head a t' R') as [y' Hy'].
  rewrite Hy, Hy'. clear Hy Hy'.
  induction x as [|c x IH]; cbn [app].
  - rewrite !textPhase_cons. reflexivity.
  - rewrite !textPhase_cons. destruct (notLt c) eqn:Ec.
    + rewrite !isSome_bind by (intros [? ?]; reflexivity). exact IH.
    + rewrite !isSome_bind by reflexivity.
      apply notLt_false in Ec. subst c. js_norm.
      change (isSome (stripPrefix [47; 119; 58; 116; 62]%N
                        (x ++ 60%N :: 119%N :: y)) =
              isSome (stripPrefix [47; 119; 58; 116; 62]%N
                        (x ++ 60%N :: 119%N :: y'))).
      apply stripPrefix_before_lt. repeat constructor.
Qed.

Lemma attrsPhase_subst x :
  isSome (attrsPhase (x ++ runElement a t ++ R)) =
  isSome (attrsPhase (x ++ runElement a t' ++ R')).
Proof.
  induction x as [|c x IH]; cbn [app].
  - assert (forall u U, noLt u ->
              isSome (attrsPhase (runElement a u ++ U)) = true) as H.
    { intros u U Hu. unfold runElement. rewrite <- !app_assoc.
      rewrite (app_assoc (js "<w:t") (orEmpty a)).
      rewrite attrsPhase_complete; [reflexivity| |exact Hu].
      apply Forall_app. split; [js_norm; repeat constructor|].
      destruct a as [[|d a']|]; cbn [orEmpty wfAttrs] in *;
        [contradiction| |constructor].
      destruct Ha. constructor; [apply whiteSpace_notGt|]; assumption. }
    rewrite !H by assumption. reflexivity.
  - rewrite !attrsPhase_cons. destruct (notGt c).
    + rewrite !isSome_bind by (intros [[? ?] ?]; reflexivity). exact IH.
    + rewrite !isSome_bind by (intros [? ?]; reflexivity).
      apply textPhase_subst.
Qed.

Lemma runAt_subst x :
  isSome (runAt (x ++ runElement a t ++ R)) =
  isSome (runAt (x ++ runElement a t' ++ R')).
Proof.
  destruct x as [|c1 x].
  { cbn [app]. rewrite !runAt_complete by assumption. reflexivity. }
  unfold runAt.
  destruct (runElement_head a t R) as [y Hy].
  destruct (runElement_head a t' R') as [y' Hy'].
  js_norm.
  destruct x as [|c2 [|c3 [|c4 x]]]; cbn [app stripPrefix];
    rewrite ?Hy, ?Hy'; cbn [app stripPrefix N.eqb Pos.eqb];
    (destruct (c1 =? 60)%N; [|reflexivity]);
    try (destruct (c2 =? 119)%N; [|reflexivity]);
    try (destruct (c3 =? 58)%N; [|reflexivity]);
    try (destruct (c4 =? 116)%N; [|reflexivity]);
    try reflexivity.
  cbn [mbind option_bind]. rewrite <- ?Hy, <- ?Hy'.
  destruct x as [|c x]; cbn [app].
  - rewrite Hy, Hy'. reflexivity.
  - destruct (isWhiteSpace c).
    + rewrite !isSome_bind by (intros [[? ?] ?]; reflexivity).
      apply attrsPhase_subst.
    + destruct (c =? 62)%N; [|reflexivity].
      rewrite !isSome_bind by (intros [? ?]; reflexivity).
      apply textPhase_subst.
Qed.
End Subst.

(** ** The loops over the matches of a pattern *)

Section ScanLemmas.
Variable matchAt :
  jsstring -> option (jsstring * jsstring * list (nat * jsstring)).

Variable r : regex.

Hypothesis matchAt_matcher : forall bef aft,
  matcher r Some (mkState bef aft []) =
  match matchAt aft with
  | Some (mt, rest, caps) => Some (mkState (reverse mt ++ bef) rest caps)
  | None => None
  end.

Hypothesis matchAt_sound : forall s mt rest caps,
  matchAt s = Some (mt, rest, caps) -> s = mt ++ rest /\ mt <> [].

Lemma findFirst_sound s pre mt rest caps :
  findFirst matchAt s = Some (pre, mt, rest, caps) ->
  s = pre ++ mt ++ rest /\ mt <> [] /\
  matchAt (mt ++ rest) = Some (mt, rest, caps).
Proof.
  revert pre. induction s as [|c s IH]; intros pre; simpl.
  - destruct (matchAt []) as [[[mt' rest'] caps']|] eqn:E; [|discriminate].
    intros [= <- -> -> ->]. destruct (matchAt_sound _ _ _ _ E) as [H1 H2].
    rewrite <- H1. auto.
  - destruct (matchAt (c :: s)) as [[[mt' rest'] caps']|] eqn:E.
    + intros [= <- -> -> ->]. destruct (matchAt_sound _ _ _ _ E) as [H1 H2].
      simpl. rewrite <- H1. auto.
    + destruct (findFirst matchAt s) as [[[[pre' mt'] rest'] caps']|];
        [|discriminate].
      intros [= <- -> -> ->]. destruct (IH pre' eq_refl) as (H1 & H2 & H3).
      simpl. rewrite <- H1. auto.
Qed.

Lemma searchFrom_findFirst bef aft :
  searchFrom r bef aft =
  match findFirst matchAt aft with
  | Some (pre, mt, rest, caps) =>
      Some (mkResult (length bef + length pre) mt caps
              (length bef + length pre + length mt))
  | None => None
  end.
Proof.
  revert bef. induction aft as [|c aft IH]; intros bef.
  - cbn [searchFrom findFirst]. rewrite matchAt_matcher.
    destruct (matchAt []) as [[[mt rest] caps]|]; [|reflexivity].
    rewrite consumed_app. unfold endIndex. cbn [before captures length].
    rewrite length_app, length_reverse. f_equal. f_equal; lia.
  - cbn [searchFrom findFirst]. rewrite matchAt_matcher.
    destruct (matchAt (c :: aft)) as [[[mt rest] caps]|].
    + rewrite consumed_app. unfold endIndex. cbn [before captures length].
      rewrite length_app, length_reverse. f_equal. f_equal; lia.
    + rewrite IH.
      destruct (findFirst matchAt aft) as [[[[pre mt] rest] caps]|];
        [|reflexivity].
      cbn [length]. f_equal. f_equal; lia.
Qed.

Lemma exec_findFirst p s :
  exec r (p ++ s) (length p) =
  match findFirst matchAt s with
  | Some (pre, mt, rest, caps) =>
      (Some (mkResult (length p + length pre) mt caps
               (length p + length pre + length mt)),
       length p + length pre + length mt)
  | None => (None, 0)
  end.
Proof.
  unfold exec.
  replace (length (p ++ s) <? length p) with false
    by (symmetry; apply Nat.ltb_ge; rewrite length_app; lia).
  rewrite take_app_length, drop_app_length, searchFrom_findFirst.
  rewrite length_reverse.
  destruct (findFirst matchAt s) as [[[[pre mt] rest] caps]|]; reflexivity.
Qed.

Lemma Parse_total s : exists l tail, Parse matchAt s l tail.
Proof.
  remember (length s) as n eqn:Hn. revert s Hn.
  induction n as [n IH] using lt_wf_ind. intros s ->.
  destruct (findFirst matchAt s) as [[[[pre mt] rest] caps]|] eqn:E.
  - destruct (findFirst_sound _ _ _ _ _ E) as (H1 & H2 & _).
    destruct (IH (length rest)) with (s := rest) as (l & tail & HP);
      [|reflexivity|].
    + subst s. rewrite !length_app. destruct mt; [congruence|simpl; lia].
    + exists ((pre, mt, caps) :: l), tail. econstructor; eassumption.
  - exists [], s. constructor. exact E.
Qed.

Lemma execAll_Parse s l tail :
  Parse matchAt s l tail ->
  forall p fuel, length s < fuel ->
  execAll fuel r (p ++ s) (length p) = results (length p) l.
Proof.
  induction 1 as [s E|s pre mt rest caps l tail E H IH]; intros p fuel Hf.
  - destruct fuel; [lia|]. cbn [execAll]. rewrite exec_findFirst, E.
    reflexivity.
  - destruct fuel; [lia|]. cbn [execAll results].
    rewrite exec_findFirst, E. cbn [matched].
    destruct (findFirst_sound _ _ _ _ _ E) as (-> & H2 & _).
    destruct mt as [|c mt]; [congruence|]. f_equal.
    specialize (IH (p ++ pre ++ c :: mt) fuel).
    rewrite !length_app in IH. rewrite <- !app_assoc in IH.
    rewrite Nat.add_assoc in IH. apply IH.
    rewrite !length_app in Hf. simpl in Hf. lia.
Qed.

Lemma globalMatches_Parse s l tail :
  Parse matchAt s l tail -> globalMatches r s = results 0 l.
Proof.
  intros H. unfold globalMatches.
  apply (execAll_Parse s l tail H [] (length s + 2)). lia.
Qed.

Lemma whileExecFrom_Parse {A : Type} (body : A -> MatchResult -> option A)
  s l tail :
  Parse matchAt s l tail ->
  forall p fuel acc, length s < fuel ->
  whileExecFrom fuel r (p ++ s) (length p) body acc =
  foldOpt body acc (results (length p) l).
Proof.
  induction 1 as [s E|s pre mt rest caps l tail E H IH];
    intros p fuel acc Hf.
  - destruct fuel; [lia|]. cbn [whileExecFrom]. rewrite exec_findFirst, E.
    reflexivity.
  - destruct fuel; [lia|]. cbn [whileExecFrom results foldOpt].
    rewrite exec_findFirst, E.
    destruct (body acc _) as [acc'|]; [|reflexivity].
    cbn [mbind option_bind].
    destruct (findFirst_sound _ _ _ _ _ E) as (-> & H2 & _).
    specialize (IH (p ++ pre ++ mt) fuel acc').
    rewrite !length_app in IH. rewrite <- !app_assoc in IH.
    rewrite Nat.add_assoc in IH. apply IH.
    rewrite !length_app in Hf. destruct mt; [congruence|]. simpl in Hf. lia.
Qed.

Lemma whileExec_Parse {A : Type} (body : A -> MatchResult -> option A)
  s l tail acc :
  Parse matchAt s l tail ->
  whileExec r s body acc = foldOpt body acc (results 0 l).
Proof.
  intros H. unfold whileExec.
  apply (whileExecFrom_Parse body s l tail H [] (S (length s)) acc). lia.
Qed.

Lemma substitute_Parse s l tail :
  Parse matchAt s l tail ->
  forall p off rs, off = length p ->
  map fst rs = results off l ->
  substitute (p ++ s) off rs = assemble l (map snd rs) tail.
Proof.
  induction 1 as [s E|s pre mt rest caps l tail E H IH];
    intros p off rs -> Hrs.
  - destruct rs; [|discriminate]. simpl. apply drop_app_length.
  - destruct rs as [|[m rep] rs]; [discriminate|].
    cbn [map results fst snd] in *. injection Hrs as -> Hrs.
    cbn [substitute assemble index matched].
    destruct (findFirst_sound _ _ _ _ _ E) as (-> & H2 & _).
    replace (length p <=? length p + length pre) with true
      by (symmetry; apply Nat.leb_le; lia).
    rewrite drop_app_length.
    replace (length p + length pre - length p) with (length pre) by lia.
    rewrite take_app_length. f_equal. f_equal.
    specialize (IH (p ++ pre ++ mt) (length p + length pre + length mt) rs).
    rewrite <- !app_assoc in IH. apply IH; [|exact Hrs].
    rewrite !length_app. lia.
Qed.

Lemma Parse_assemble s l tail :
  Parse matchAt s l tail -> s = assemble l (map (fun e => e.1.2) l) tail.
Proof.
  induction 1 as [s E|s pre mt rest caps l tail E H IH]; simpl; [reflexivity|].
  destruct (findFirst_sound _ _ _ _ _ E) as (-> & _). congruence.
Qed.
End ScanLemmas.

(** ** Text runs: the loops of the source over them *)

Lemma TEXT_matchAt bef aft :
  matcher TEXT_ELEMENT_REGEX Some (mkState bef aft []) =
  match runMatchAt aft with
  | Some (mt, rest, caps) => Some (mkState (reverse mt ++ bef) rest caps)
  | None => None
  end.
Proof.
  rewrite TEXT_at. unfold runMatchAt.
  destruct (runAt aft) as [[[a t] rest]|]; reflexivity.
Qed.

Lemma findFirst_run s pre mt rest caps :
  findFirst runMatchAt s = Some (pre, mt, rest, caps) ->
  exists a t, mt = runElement a t /\ caps = runCaptures a t /\
              wfAttrs a /\ noLt t /\ s = pre ++ runElement a t ++ rest.
Proof.
  intros E.
  destruct (findFirst_sound runMatchAt runMatchAt_sound _ _ _ _ _ E)
    as (Hs & _ & Hm).
  unfold runMatchAt in Hm.
  destruct (runAt (mt ++ rest)) as [[[a t] rest']|] eqn:Er; [|discriminate].
  cbn [mbind option_bind] in Hm. injection Hm as <- <- <-.
  destruct (runAt_sound _ _ _ _ Er) as (_ & Ha & Ht).
  exists a, t. auto.
Qed.

Lemma Parse_runs s l tail :
  Parse runMatchAt s l tail ->
  exists rl, l = map runEntry rl /\ Forall wfRun rl.
Proof.
  induction 1 as [s E|s pre mt rest caps l tail E H IH].
  - exists []. split; [reflexivity|constructor].
  - destruct IH as (rl & -> & Hrl).
    destruct (findFirst_run _ _ _ _ _ E) as (a & t & -> & -> & Ha & Ht & _).
    exists ((pre, a, t) :: rl). split; [reflexivity|].
    constructor; [split; assumption|assumption].
Qed.

Lemma findFirst_subst pre a t t' R R' :
  wfAttrs a -> noLt t -> noLt t' ->
  findFirst runMatchAt (pre ++ runElement a t ++ R) =
    Some (pre, runElement a t, R, runCaptures a t) ->
  findFirst runMatchAt (pre ++ runElement a t' ++ R') =
    Some (pre, runElement a t', R', runCaptures a t').
Proof.
  intros Ha Ht Ht'. induction pre as [|c pre IH]; intros E.
  - cbn [app]. destruct (runElement_head a t' R') as [y Hy].
    pose proof (runAt_complete a t' R' Ha Ht') as Hr.
    rewrite Hy in *. cbn [findFirst]. unfold runMatchAt. rewrite Hr.
    reflexivity.
  - cbn [app findFirst] in *.
    pose proof (runAt_subst a t t' R R' Ha Ht Ht' (c :: pre)) as Hs.
    cbn [app] in Hs.
    destruct (runMatchAt (c :: pre ++ runElement a t ++ R))
      as [[[? ?] ?]|] eqn:E1; [discriminate E|].
    assert (runMatchAt (c :: pre ++ runElement a t' ++ R') = None) as ->.
    { unfold runMatchAt in *.
      destruct (runAt (c :: pre ++ runElement a t ++ R)) as [[[? ?] ?]|];
        [discriminate E1|].
      destruct (runAt (c :: pre ++ runElement a t' ++ R')) as [[[? ?] ?]|];
        [discriminate Hs|reflexivity]. }
    destruct (findFirst runMatchAt (pre ++ runElement a t ++ R))
      as [[[[pre0 mt0] rest0] caps0]|]; [|discriminate E].
    injection E as -> -> -> ->. rewrite IH by reflexivity. reflexivity.
Qed.

Lemma Parse_rebuild rl : forall s tail ts,
  Parse runMatchAt s (map runEntry rl) tail ->
  Forall noLt ts -> length ts = length rl ->
  Parse runMatchAt (rebuild rl ts tail) (map runEntry (retext rl ts)) tail.
Proof.
  induction rl as [|[[pre a] t] rl IH]; intros s tail ts HP Hts Hlen.
  - destruct ts; [|discriminate]. inversion HP; subst. cbn. exact HP.
  - destruct ts as [|t' ts]; [discriminate|].
    cbn [map runEntry] in HP. inversion HP as [|? ? ? rest ? ? ? E HP']; subst.
    inversion Hts as [|? ? Ht' Hts']; subst.
    destruct (findFirst_run _ _ _ _ _ E) as (a0 & t0 & He & Hc & Ha & Ht & Hs).
    assert (a0 = a /\ t0 = t) as [-> ->].
    { unfold runCaptures in Hc. injection Hc as -> Hc.
      destruct a, a0; try discriminate; [injection Hc as ->|]; auto. }
    cbn [rebuild retext map runEntry].
    econstructor.
    + apply (findFirst_subst pre a t t' rest); try assumption.
      rewrite <- Hs. exact E.
    + apply (IH rest); [assumption|assumption|]. simpl in Hlen. lia.
Qed.

Lemma RunParse_total s : exists rl tail, RunParse s rl tail.
Proof.
  destruct (Parse_total runMatchAt runMatchAt_sound s) as (l & tail & HP).
  destruct (Parse_runs _ _ _ HP) as (rl & -> & Hrl).
  exists rl, tail. split; assumption.
Qed.

Lemma group_runCaptures off pre a t :
  let m := mkResult off (runElement a t) (runCaptures a t) pre in
  group 1 m = a /\ group 2 m = Some t.
Proof. destruct a; split; reflexivity. Qed.

Lemma textRuns_results off rl :
  map (fun m => (group 1 m, orEmpty (group 2 m)))
    (results off (map runEntry rl)) =
  map (fun e => (e.1.2, e.2)) rl.
Proof.
  revert off. induction rl as [|[[pre a] t] rl IH]; intros off; [reflexivity|].
  cbn [map runEntry results]. rewrite IH.
  destruct a; reflexivity.
Qed.

Lemma RunParse_textRuns s rl tail :
  RunParse s rl tail -> textRuns s = map (fun e => (e.1.2, e.2)) rl.
Proof.
  intros [HP _]. unfold textRuns.
  rewrite (globalMatches_Parse runMatchAt TEXT_ELEMENT_REGEX TEXT_matchAt
             runMatchAt_sound s _ tail HP).
  apply textRuns_results.
Qed.

Lemma foldOpt_push off rl : forall acc,
  foldOpt (fun texts textMatch =>
             Some (texts ++ [orEmpty (group 2 textMatch)]))
    acc (results off (map runEntry rl)) =
  Some (acc ++ map (fun e => e.2) rl).
Proof.
  revert off. induction rl as [|[[pre a] t] rl IH]; intros off acc.
  - cbn. rewrite app_nil_r. reflexivity.
  - cbn [map runEntry results foldOpt mbind option_bind].
    rewrite IH. destruct a; cbn; rewrite <- app_assoc; reflexivity.
Qed.

Lemma RunParse_collectTexts s rl tail :
  RunParse s rl tail -> collectTexts s = Some (map (fun e => e.2) rl).
Proof.
  intros [HP _]. unfold collectTexts.
  rewrite (whileExec_Parse runMatchAt TEXT_ELEMENT_REGEX TEXT_matchAt
             runMatchAt_sound _ s _ tail [] HP).
  apply foldOpt_push.
Qed.

Lemma RunParse_originalTextOf s rl tail :
  RunParse s rl tail ->
  originalTextOf s = Some (join [] (map (fun e => e.2) rl)).
Proof.
  intros [HP _]. unfold originalTextOf.
  rewrite (whileExec_Parse runMatchAt TEXT_ELEMENT_REGEX TEXT_matchAt
             runMatchAt_sound _ s _ tail [] HP).
  rewrite foldOpt_push. reflexivity.
Qed.

Lemma callEach_fst {A : Type} (cb : A -> MatchResult -> jsstring * A) ms :
  forall st, map fst (callEach cb st ms) = ms.
Proof.
  induction ms as [|m ms IH]; intros st; [reflexivity|].
  cbn [callEach]. destruct (cb st m) as [rep st']. cbn [map fst].
  rewrite IH. reflexivity.
Qed.

Lemma assemble_textCallback translation rl tail : forall off isFirst,
  assemble (map runEntry rl)
    (map snd (callEach (textCallback translation) isFirst
                (results off (map runEntry rl))))
    tail =
  rebuild rl (newTexts translation isFirst rl) tail.
Proof.
  induction rl as [|[[pre a] t] rl IH]; intros off isFirst; [reflexivity|].
  cbn [map runEntry results callEach].
  unfold textCallback at 1.
  destruct (group_runCaptures (off + length pre)
              (off + length pre + length (runElement a t)) a t) as [-> _].
  specialize (IH (off + length pre + length (runElement a t)) false).
  destruct isFirst; cbn [map snd assemble callEach newTexts rebuild];
    rewrite IH; destruct rl as [|[[pre' a'] t'] rl];
    cbn [newTexts rebuild map]; list_norm; reflexivity.
Qed.

Lemma RunParse_replace translation s rl tail :
  RunParse s rl tail ->
  replaceStateful TEXT_ELEMENT_REGEX s (textCallback translation) true =
  rebuild rl (newTexts translation true rl) tail.
Proof.
  intros [HP _]. unfold replaceStateful.
  rewrite (globalMatches_Parse runMatchAt TEXT_ELEMENT_REGEX TEXT_matchAt
             runMatchAt_sound s _ tail HP).
  rewrite (substitute_Parse runMatchAt runMatchAt_sound s _ tail HP [] 0);
    [|reflexivity|apply callEach_fst].
  apply assemble_textCallback.
Qed.

(** ** [escapeXml]: the replacement of one character *)

Lemma Char_matchAt c bef aft :
  matcher (Char c) Some (mkState bef aft []) =
  match charMatchAt c aft with
  | Some (mt, rest, caps) => Some (mkState (reverse mt ++ bef) rest caps)
  | None => None
  end.
Proof.
  cbn [matcher after before captures]. destruct aft as [|d aft]; [reflexivity|].
  cbn [charMatchAt]. destruct (d =? c)%N; reflexivity.
Qed.

Lemma charMatchAt_sound c s mt rest caps :
  charMatchAt c s = Some (mt, rest, caps) -> s = mt ++ rest /\ mt <> [].
Proof.
  destruct s as [|d s]; [discriminate|]. cbn [charMatchAt].
  destruct (d =? c)%N; [|discriminate]. intros [= <- <- <-]. auto.
Qed.

Lemma replaceChar_Parse c rep s l tail :
  Parse (charMatchAt c) s l tail ->
  assemble l (map (fun _ => rep) l) tail = replaceChar c rep s.
Proof.
  induction 1 as [s E|s pre mt rest caps l tail E H IH].
  - cbn. induction s as [|d s IHs]; [reflexivity|].
    cbn [findFirst charMatchAt replaceChar] in *.
    destruct (d =? c)%N; [discriminate E|].
    destruct (findFirst (charMatchAt c) s) as [[[[? ?] ?] ?]|];
      [discriminate E|].
    rewrite <- IHs by reflexivity. reflexivity.
  - cbn [map assemble]. rewrite IH. clear IH H.
    revert pre E. induction s as [|d s IHs]; intros pre E.
    + discriminate E.
    + cbn [findFirst charMatchAt replaceChar] in *.
      destruct (d =? c)%N.
      * injection E as <- <- <- <-. reflexivity.
      * destruct (findFirst (charMatchAt c) s) as [[[[pre' mt'] rest'] caps']|];
          [|discriminate E].
        injection E as <- <- <- <-. cbn [app]. f_equal.
        apply IHs. reflexivity.
Qed.

Lemma replaceString_Char c s rep :
  replaceString (Char c) s rep = replaceChar c rep s.
Proof.
  destruct (Parse_total (charMatchAt c) (charMatchAt_sound c) s)
    as (l & tail & HP).
  unfold replaceString.
  rewrite (globalMatches_Parse (charMatchAt c) (Char c) (Char_matchAt c)
             (charMatchAt_sound c) s l tail HP).
  rewrite (substitute_Parse (charMatchAt c) (charMatchAt_sound c) s l tail HP
             [] 0); [|reflexivity|].
  - rewrite <- (replaceChar_Parse c rep s l tail HP). f_equal.
    rewrite map_map. cbn [snd]. clear HP.
    generalize 0. induction l as [|[[pre mt] caps] l IH]; intros off;
      [reflexivity|]. cbn [results map]. rewrite IH. reflexivity.
  - rewrite map_map. cbn [fst]. apply map_id.
Qed.

Lemma replaceChar_noLt c rep s :
  noLt rep -> (c = 60%N \/ noLt s) -> noLt (replaceChar c rep s).
Proof.
  intros Hrep Hs. induction s as [|d s IH]; cbn [replaceChar]; [constructor|].
  apply Forall_app. split.
  - destruct (N.eqb_spec d c) as [->|Hd]; [exact Hrep|].
    constructor; [|constructor].
    destruct Hs as [->|Hs]; [|inversion Hs; assumption].
    unfold notLt. destruct (N.eqb_spec d 60%N); [contradiction|reflexivity].
  - apply IH. destruct Hs as [->|Hs]; [left; reflexivity|].
    right. inversion Hs; assumption.
Qed.

Lemma escapeXml_noLt t : noLt (escapeXml t).
Proof.
  unfold escapeXml. rewrite !replaceString_Char.
  apply replaceChar_noLt; [js_norm; repeat constructor|right].
  apply replaceChar_noLt; [js_norm; repeat constructor|right].
  apply replaceChar_noLt; [js_norm; repeat constructor|right].
  apply replaceChar_noLt; [js_norm; repeat constructor|left; reflexivity].
Qed.

(** ** Paragraph blocks, and the loops as folds *)

Lemma breakOn_sound q s a rest :
  breakOn q s = Some (a, rest) -> s = a ++ q ++ rest.
Proof.
  revert a. induction s as [|c s IH]; intros a; cbn [breakOn].
  - destruct (stripPrefix q []) as [r|] eqn:E; [|discriminate].
    intros [= <- <-]. apply stripPrefix_Some in E. exact E.
  - destruct (stripPrefix q (c :: s)) as [r|] eqn:E.
    + intros [= <- <-]. apply stripPrefix_Some in E. exact E.
    + destruct (breakOn q s) as [[a' r]|]; [|discriminate].
      intros [= <- <-]. rewrite (IH a' eq_refl). reflexivity.
Qed.

Lemma paragraphAt_sound s a c rest :
  paragraphAt s = Some (a, c, rest) ->
  s = paragraphElement a c ++ rest /\ noGt a /\
  breakOn (js "</w:p>") (c ++ js "</w:p>" ++ rest) = Some (c, rest).
Proof.
  unfold paragraphAt.
  destruct (stripPrefix (js "<w:p") s) as [v|] eqn:E; [|discriminate].
  apply stripPrefix_Some in E. subst s. cbn [mbind option_bind].
  destruct (match v with [] => false | c0 :: _ => isWordChar c0 end);
    [discriminate|].
  rewrite (span_pair notGt v).
  destruct (span notGt v).2 as [|d z] eqn:Ew; [discriminate|].
  destruct (breakOn (js "</w:p>") z) as [[c' rest']|] eqn:Eb; [|discriminate].
  cbn [mbind option_bind]. intros [= <- <- <-].
  pose proof (notGt_false _ (span_rest _ _ _ _ Ew)) as ->.
  pose proof (breakOn_sound _ _ _ _ Eb) as Hz.
  split; [|split; [apply span_Forall|congruence]].
  rewrite (span_app notGt v) at 1. rewrite Ew, Hz.
  list_norm. reflexivity.
Qed.

Lemma paragraphMatchAt_sound s mt rest caps :
  paragraphMatchAt s = Some (mt, rest, caps) -> s = mt ++ rest /\ mt <> [].
Proof.
  unfold paragraphMatchAt.
  destruct (paragraphAt s) as [[[a c] rest']|] eqn:E; [|discriminate].
  cbn [mbind option_bind]. intros [= <- <- <-].
  destruct (paragraphAt_sound _ _ _ _ E) as (-> & _). split; [reflexivity|].
  unfold paragraphElement. js_norm. discriminate.
Qed.

Section LoopsAsFolds.
Variable matchAt :
  jsstring -> option (jsstring * jsstring * list (nat * jsstring)).
Variable r : regex.
Hypothesis matchAt_matcher : forall bef aft,
  matcher r Some (mkState bef aft []) =
  match matchAt aft with
  | Some (mt, rest, caps) => Some (mkState (reverse mt ++ bef) rest caps)
  | None => None
  end.
Hypothesis matchAt_sound : forall s mt rest caps,
  matchAt s = Some (mt, rest, caps) -> s = mt ++ rest /\ mt <> [].

(** The loop of the source over the matches does not run out of
    iterations: it is the fold of its body over the matches. *)
Lemma whileExec_globalMatches {A : Type}
  (body : A -> MatchResult -> option A) s acc :
  whileExec r s body acc = foldOpt body acc (globalMatches r s).
Proof.
  destruct (Parse_total matchAt matchAt_sound s) as (l & tail & HP).
  rewrite (whileExec_Parse matchAt r matchAt_matcher matchAt_sound
             body s l tail acc HP).
  rewrite (globalMatches_Parse matchAt r matchAt_matcher matchAt_sound
             s l tail HP).
  reflexivity.
Qed.

(** Replacing every match by itself gives the input back. *)
Lemma substitute_matched s :
  substitute s 0 (map (fun m => (m, matched m)) (globalMatches r s)) = s.
Proof.
  destruct (Parse_total matchAt matchAt_sound s) as (l & tail & HP).
  rewrite (globalMatches_Parse matchAt r matchAt_matcher matchAt_sound
             s l tail HP).
  rewrite (substitute_Parse matchAt matchAt_sound s l tail HP [] 0);
    [|reflexivity|].
  - rewrite (Parse_assemble matchAt matchAt_sound s l tail HP) at 1.
    f_equal. rewrite map_map. cbn [snd]. clear HP.
    generalize 0. induction l as [|[[pre mt] caps] l IH]; intros off;
      [reflexivity|]. cbn [results map matched]. rewrite IH. reflexivity.
  - rewrite map_map. cbn [fst]. apply map_id.
Qed.
End LoopsAsFolds.

Lemma collectTexts_textRuns c : collectTexts c = Some (map snd (textRuns c)).
Proof.
  destruct (RunParse_total c) as (rl & tail & HP).
  rewrite (RunParse_collectTexts c rl tail HP).
  rewrite (RunParse_textRuns c rl tail HP).
  rewrite map_map. reflexivity.
Qed.

Lemma originalTextOf_textRuns c :
  originalTextOf c = Some (join [] (map snd (textRuns c))).
Proof.
  destruct (RunParse_total c) as (rl & tail & HP).
  rewrite (RunParse_originalTextOf c rl tail HP).
  rewrite (RunParse_textRuns c rl tail HP).
  rewrite map_map. reflexivity.
Qed.

Lemma textRuns_noLt c : Forall (fun r => wfAttrs r.1 /\ noLt r.2) (textRuns c).
Proof.
  destruct (RunParse_total c) as (rl & tail & HP).
  rewrite (RunParse_textRuns c rl tail HP). destruct HP as [_ Hwf].
  induction Hwf as [|[[pre a] t] rl Hx _ IH]; constructor; assumption.
Qed.

Lemma join_noLt ts : Forall noLt ts -> noLt (join [] ts).
Proof.
  induction 1 as [|t ts Ht Hts IH]; [constructor|].
  cbn [join]. destruct ts; [exact Ht|].
  cbn [app]. apply Forall_app. split; assumption.
Qed.

Lemma noLt_not_elem t : noLt t <-> 60%N ∉ t.
Proof.
  unfold noLt. rewrite Forall_forall. split.
  - intros H Hin. specialize (H _ Hin). discriminate H.
  - intros H c Hc. unfold notLt.
    destruct (N.eqb_spec c 60%N) as [->|]; [contradiction|reflexivity].
Qed.

(** ** Extraction *)

Lemma PARAGRAPH_whileExec {A : Type} (body : A -> MatchResult -> option A)
  s acc :
  whileExec PARAGRAPH_REGEX s body acc =
  foldOpt body acc (globalMatches PARAGRAPH_REGEX s).
Proof.
  apply (whileExec_globalMatches paragraphMatchAt PARAGRAPH_REGEX
           PARAGRAPH_at paragraphMatchAt_sound).
Qed.

Lemma extractBody_eq source segments id m :
  extractBody source (segments, id) m =
  Some (if Nat.eqb (length (trim (join [] (paragraphTexts m)))) 0
        then (segments, id)
        else (segments ++
                [mkSegment (js "p" ++ numberToString id)
                   (join [] (paragraphTexts m)) None source
                   (length (paragraphTexts m))],
              increment id)).
Proof.
  unfold extractBody. rewrite collectTexts_textRuns.
  cbn [mbind option_bind]. fold (paragraphTexts m).
  destruct (Nat.eqb _ 0); reflexivity.
Qed.

Lemma advance_increment id k :
  advance (increment id) k = advance id (S k).
Proof. unfold advance. symmetry. apply Nat.iter_succ_r. Qed.

Lemma advance_add id a b :
  advance (advance id a) b = advance id (a + b).
Proof. unfold advance. rewrite Nat.add_comm. symmetry. apply Nat.iter_add. Qed.

(** Up to [2^53] every integer is a double. *)
Lemma roundDouble_exact m : (m <= 2 ^ 53)%N -> roundDouble m = m.
Proof.
  intros H. unfold roundDouble.
  destruct (N.leb_spec (N.size m) 53) as [_|Hs]; [reflexivity|].
  pose proof (N.size_le m) as Hle.
  assert (2 ^ 54 <= 2 ^ N.size m)%N by (apply N.pow_le_mono_r; lia).
  assert (m = 2 ^ 53)%N as -> by lia.
  vm_compute. reflexivity.
Qed.

Lemma increment_roundDouble id :
  increment id = N.to_nat (roundDouble (N.of_nat id + 1)).
Proof.
  unfold increment.
  destruct (N.ltb_spec (N.of_nat id) (2 ^ 53)) as [H|H]; [|reflexivity].
  rewrite roundDouble_exact by lia. lia.
Qed.

Lemma increment_exact id :
  (N.of_nat id < 2 ^ 53)%N -> increment id = S id.
Proof.
  intros H. unfold increment.
  destruct (N.ltb_spec (N.of_nat id) (2 ^ 53)); [reflexivity|lia].
Qed.

Lemma numberToString_exact id :
  (N.of_nat id < 2 ^ 53)%N -> numberToString id = decimal id.
Proof.
  intros H. unfold numberToString.
  destruct (N.ltb_spec (N.of_nat id) (2 ^ 53)); [reflexivity|lia].
Qed.

Lemma advance_exact k : forall id,
  (N.of_nat (id + k) <= 2 ^ 53)%N -> advance id k = id + k.
Proof.
  induction k as [|k IH]; intros id H.
  - cbn. lia.
  - rewrite <- advance_increment, increment_exact by lia.
    rewrite IH by (rewrite <- Nat.add_succ_comm in H; exact H). lia.
Qed.

Lemma foldOpt_extractBody source ms : forall segments id,
  foldOpt (extractBody source) (segments, id) ms =
  Some (segments ++ segmentsOf source id (map paragraphTexts ms),
        advance id (length (segmentsOf source id (map paragraphTexts ms)))).
Proof.
  induction ms as [|m ms IH]; intros segments id.
  - cbn. rewrite app_nil_r. reflexivity.
  - cbn [foldOpt map segmentsOf]. rewrite extractBody_eq.
    cbn [mbind option_bind].
    destruct (Nat.eqb _ 0); rewrite IH; [reflexivity|].
    rewrite <- app_assoc. cbn [app length].
    rewrite advance_increment. reflexivity.
Qed.

Lemma extractParagraphSegments_eq xml source startId :
  extractParagraphSegments xml source startId =
  let segments :=
    segmentsOf source startId
      (map paragraphTexts (globalMatches PARAGRAPH_REGEX xml)) in
  Some (segments, advance startId (length segments)).
Proof.
  unfold extractParagraphSegments.
  rewrite PARAGRAPH_whileExec, foldOpt_extractBody. reflexivity.
Qed.

Lemma segmentsOf_id source ps : forall n i seg,
  segmentsOf source n ps !! i = Some seg ->
  id seg = js "p" ++ numberToString (advance n i).
Proof.
  induction ps as [|texts ps IH]; intros n i seg; [discriminate|].
  cbn [segmentsOf]. destruct (Nat.eqb _ 0); [apply IH|].
  destruct i as [|i]; cbn [lookup list_lookup].
  - intros [= <-]. reflexivity.
  - intros H. rewrite (IH _ _ _ H), advance_increment. reflexivity.
Qed.

Lemma segmentsOf_id_exact source ps n i seg :
  (N.of_nat (n + length (segmentsOf source n ps)) <= 2 ^ 53)%N ->
  segmentsOf source n ps !! i = Some seg ->
  id seg = js "p" ++ decimal (n + i).
Proof.
  intros Hb H. pose proof (lookup_lt_Some _ _ _ H) as Hi.
  rewrite (segmentsOf_id _ _ _ _ _ H), advance_exact by lia.
  rewrite numberToString_exact by lia. reflexivity.
Qed.

(** The rounding of doubles and the printing of numbers at some values:
    [2^53 + 1] and [2^53 + 3] lie half way between two doubles; from
    [10^21] on a number is printed with an exponent. *)
Lemma number_examples :
  roundDouble (2 ^ 53 + 1) = (2 ^ 53)%N /\
  roundDouble (2 ^ 53 + 2) = (2 ^ 53 + 2)%N /\
  roundDouble (2 ^ 53 + 3) = (2 ^ 53 + 4)%N /\
  numberToString 42 = js "42" /\
  bigNumberToString (2 ^ 53) = js "9007199254740992" /\
  bigNumberToString (2 ^ 64) = js "18446744073709552000" /\
  bigNumberToString (10 ^ 21) = js "1e+21" /\
  bigNumberToString (2 ^ 70) = js "1.1805916207174113e+21".
Proof. vm_compute. repeat split. Qed.

Lemma increment_C9_startId : increment C9_startId = C9_startId.
Proof.
  unfold increment, C9_startId. rewrite N2Nat.id.
  replace (2 ^ 53 <? 2 ^ 53)%N with false by (vm_compute; reflexivity).
  replace (roundDouble (2 ^ 53 + 1)) with (2 ^ 53)%N
    by (vm_compute; reflexivity).
  reflexivity.
Qed.

Lemma numberToString_C9_startId :
  numberToString C9_startId = js "9007199254740992".
Proof.
  unfold numberToString, C9_startId. rewrite N2Nat.id.
  vm_compute. reflexivity.
Qed.

Lemma C9_example_segments source n :
  extractParagraphSegments C9_example source n =
  Some ([mkSegment (js "p" ++ numberToString n) (js "A") None source 1;
         mkSegment (js "p" ++ numberToString (increment n)) (js "B") None
           source 1],
        increment (increment n)).
Proof.
  rewrite extractParagraphSegments_eq.
  replace (map paragraphTexts (globalMatches PARAGRAPH_REGEX C9_example))
    with [[js "A"]; [js "B"]] by (vm_compute; reflexivity).
  reflexivity.
Qed.

Lemma segmentsOf_delete source ps : forall n i texts,
  ps !! i = Some texts ->
  trim (join [] texts) = [] ->
  segmentsOf source n (delete i ps) = segmentsOf source n ps.
Proof.
  induction ps as [|t0 ps IH]; intros n i texts; [discriminate|].
  destruct i as [|i]; cbn [lookup list_lookup delete list_delete segmentsOf].
  - intros [= ->] ->. reflexivity.
  - intros H1 H2. destruct (Nat.eqb _ 0); [|f_equal]; eapply IH; eassumption.
Qed.

Lemma mapM_originalTextOf ms :
  mapM (fun m => originalTextOf (orEmpty (group 1 m))) ms =
  Some (map (fun m => join [] (paragraphTexts m)) ms).
Proof.
  induction ms as [|m ms IH]; [reflexivity|].
  cbn [mapM map]. rewrite originalTextOf_textRuns, IH. reflexivity.
Qed.

Lemma segmentsOf_text source ps : forall n,
  map text (segmentsOf source n ps) =
  filter (fun k => trim k <> []) (map (join []) ps).
Proof.
  induction ps as [|texts ps IH]; intros n; [reflexivity|].
  cbn [segmentsOf map]. rewrite filter_cons.
  destruct (trim (join [] texts)) eqn:E; cbn [length Nat.eqb].
  - rewrite decide_False by congruence. apply IH.
  - rewrite decide_True by congruence. cbn [map text]. f_equal. apply IH.
Qed.

Lemma segmentsOf_from source ps : forall n seg,
  seg ∈ segmentsOf source n ps ->
  exists texts, texts ∈ ps /\ text seg = join [] texts /\
                runCount seg = length texts.
Proof.
  induction ps as [|texts ps IH]; intros n seg; cbn [segmentsOf].
  - intros H. inversion H.
  - destruct (Nat.eqb _ 0).
    + intros H. destruct (IH _ _ H) as (ts & H1 & H2).
      exists ts. split; [right; exact H1|exact H2].
    + intros H. apply elem_of_cons in H. destruct H as [->|H].
      * exists texts. split; [left|split; reflexivity].
      * destruct (IH _ _ H) as (ts & H1 & H2).
        exists ts. split; [right; exact H1|exact H2].
Qed.

Lemma paragraphTexts_noLt m : noLt (join [] (paragraphTexts m)).
Proof.
  apply join_noLt. unfold paragraphTexts.
  apply Forall_fmap. eapply Forall_impl; [apply textRuns_noLt|].
  intros [a t] [_ H]. exact H.
Qed.

Lemma results_run_elem off rl m :
  m ∈ results off (map runEntry rl) ->
  exists pre a t, (pre, a, t) ∈ rl /\ matched m = runElement a t /\
                  group 1 m = a /\ group 2 m = Some t.
Proof.
  revert off. induction rl as [|[[pre a] t] rl IH]; intros off;
    cbn [map runEntry results].
  - intros H. inversion H.
  - intros H. apply elem_of_cons in H. destruct H as [->|H].
    + exists pre, a, t. split; [left|]. cbn [matched].
      destruct a; auto.
    + destruct (IH _ H) as (pre' & a' & t' & H1 & H2).
      exists pre', a', t'. split; [right; exact H1|exact H2].
Qed.

Lemma paragraphCallback_miss translations fullMatch paragraphContent :
  translations !! join [] (map snd (textRuns paragraphContent)) = None ->
  paragraphCallback translations fullMatch paragraphContent = Some fullMatch.
Proof.
  intros H. unfold paragraphCallback. rewrite originalTextOf_textRuns.
  cbn [mbind option_bind]. rewrite H. reflexivity.
Qed.

Lemma callEachOpt_same (cb : MatchResult -> option jsstring) ms :
  (forall m, m ∈ ms -> cb m = Some (matched m)) ->
  callEachOpt cb ms = Some (map (fun m => (m, matched m)) ms).
Proof.
  induction ms as [|m ms IH]; intros H; [reflexivity|].
  cbn [callEachOpt map]. rewrite (H m) by left. cbn [mbind option_bind].
  rewrite IH by (intros m' Hm'; apply H; right; exact Hm'). reflexivity.
Qed.

(** ** The rewritten content of a paragraph *)

Lemma retext_wf rl : forall ts,
  Forall wfRun rl -> Forall noLt ts -> Forall wfRun (retext rl ts).
Proof.
  induction rl as [|[[pre a] t] rl IH]; intros ts Hrl Hts; [constructor|].
  destruct ts as [|t' ts]; [constructor|].
  inversion Hrl as [|? ? [Ha _] Hrl']; inversion Hts; subst.
  cbn [retext]. constructor; [split; assumption|]. apply IH; assumption.
Qed.

Lemma RunParse_rebuild s rl tail ts :
  RunParse s rl tail -> Forall noLt ts -> length ts = length rl ->
  RunParse (rebuild rl ts tail) (retext rl ts) tail.
Proof.
  intros [HP Hwf] Hts Hlen. split.
  - apply (Parse_rebuild rl s); assumption.
  - apply retext_wf; assumption.
Qed.

Lemma newTexts_noLt translation rl :
  Forall noLt (newTexts translation true rl) /\
  length (newTexts translation true rl) = length rl.
Proof.
  destruct rl as [|e rl]; cbn [newTexts length];
    [split; [constructor|reflexivity]|].
  split.
  - constructor; [apply escapeXml_noLt|].
    apply Forall_fmap, Forall_true. intros ?. constructor.
  - rewrite length_map. reflexivity.
Qed.

Lemma retext_newTexts translation pre a t rl :
  map (fun e => (e.1.2, e.2))
    (retext ((pre, a, t) :: rl) (newTexts translation true ((pre, a, t) :: rl)))
  = (a, escapeXml translation)
    :: map (fun r => (r.1, [])) (map (fun e => (e.1.2, e.2)) rl).
Proof.
  cbn [newTexts retext map fst snd]. f_equal.
  induction rl as [|[[pre' a'] t'] rl IH]; [reflexivity|].
  cbn [map retext fst snd]. f_equal. exact IH.
Qed.

(** What the callback returns for a paragraph whose key is in the
    mapping. *)
Lemma paragraphCallback_hit translations fullMatch paragraphContent
  translation rl tail :
  RunParse paragraphContent rl tail ->
  translations !! join [] (map (fun e => e.2) rl) = Some translation ->
  paragraphCallback translations fullMatch paragraphContent =
  Some (js "<w:p"
          ++ orEmpty (matchFirst OPEN_TAG_REGEX fullMatch ≫= group 1)
          ++ js ">" ++ rebuild rl (newTexts translation true rl) tail
          ++ js "</w:p>").
Proof.
  intros HP Hkey. unfold paragraphCallback.
  rewrite (RunParse_originalTextOf _ _ _ HP). cbn [mbind option_bind].
  rewrite Hkey, (RunParse_replace translation _ _ _ HP). reflexivity.
Qed.

(** ** The pattern of line 110 *)

Lemma Char62_notGt b c w caps :
  notGt c = true -> matcher (Char 62%N) Some (mkState b (c :: w) caps) = None.
Proof.
  intros H. cbn [matcher after]. unfold notGt in H.
  destruct (c =? 62)%N; [discriminate|reflexivity].
Qed.

Lemma matcher_Seq r1 r2 k x :
  matcher (Seq r1 r2) k x = matcher r1 (matcher r2 k) x.
Proof. reflexivity. Qed.

Lemma OPEN_TAG_at bef aft :
  matcher OPEN_TAG_REGEX Some (mkState bef aft []) =
  match openTagMatchAt aft with
  | Some (mt, rest, caps) => Some (mkState (reverse mt ++ bef) rest caps)
  | None => None
  end.
Proof.
  change OPEN_TAG_REGEX
    with (Seq (str (js "<w:p")) (Seq ATTRS_GROUP (Char 62%N))).
  rewrite matcher_Seq, matcher_str. unfold openTagMatchAt, openTagAt.
  destruct (stripPrefix (js "<w:p") aft) as [v|]; [|reflexivity].
  cbn [mbind option_bind].
  rewrite matcher_Seq, ATTRS_GROUP_at by apply Char62_notGt.
  destruct v as [|c v']; [reflexivity|].
  destruct (isWhiteSpace c) eqn:Ews.
  - rewrite (span_pair notGt v'). cbn [matcher after before captures].
    destruct (span notGt v').2 as [|d z] eqn:Ew; [reflexivity|].
    pose proof (notGt_false _ (span_rest _ _ _ _ Ew)) as ->.
    cbn [N.eqb Pos.eqb mbind option_bind].
    list_norm. reflexivity.
  - cbn [matcher after before captures].
    destruct (c =? 62)%N eqn:Ec; [|reflexivity].
    apply N.eqb_eq in Ec. subst c. cbn [mbind option_bind].
    list_norm. reflexivity.
Qed.

Lemma openTagAt_sound s a rest :
  openTagAt s = Some (a, rest) ->
  s = js "<w:p" ++ orEmpty a ++ js ">" ++ rest /\ wfAttrs a.
Proof.
  unfold openTagAt.
  destruct (stripPrefix (js "<w:p") s) as [v|] eqn:E; [|discriminate].
  apply stripPrefix_Some in E. subst s. cbn [mbind option_bind].
  destruct v as [|c v']; [discriminate|].
  destruct (isWhiteSpace c) eqn:Ews.
  - rewrite (span_pair notGt v').
    destruct (span notGt v').2 as [|d z] eqn:Ew; [discriminate|].
    intros [= <- <-].
    pose proof (notGt_false _ (span_rest _ _ _ _ Ew)) as ->.
    split; [|split; [exact Ews|apply span_Forall]].
    rewrite (span_app notGt v') at 1. rewrite Ew. list_norm. reflexivity.
  - destruct (c =? 62)%N eqn:Ec; [|discriminate].
    apply N.eqb_eq in Ec. subst c. intros [= <- <-].
    split; [reflexivity|exact I].
Qed.

Lemma openTagMatchAt_sound s mt rest caps :
  openTagMatchAt s = Some (mt, rest, caps) -> s = mt ++ rest /\ mt <> [].
Proof.
  unfold openTagMatchAt.
  destruct (openTagAt s) as [[a rest']|] eqn:E; [|discriminate].
  cbn [mbind option_bind]. intros [= <- <- <-].
  destruct (openTagAt_sound _ _ _ E) as (-> & _).
  split; [list_norm; reflexivity|].
  js_norm. discriminate.
Qed.

(** The attributes that line 110 finds are those of an opening tag. *)
Lemma openTag_attributes_wf fullMatch :
  wfAttrs (matchFirst OPEN_TAG_REGEX fullMatch ≫= group 1).
Proof.
  unfold matchFirst.
  rewrite (searchFrom_findFirst openTagMatchAt OPEN_TAG_REGEX OPEN_TAG_at).
  destruct (findFirst openTagMatchAt fullMatch)
    as [[[[pre mt] rest] caps]|] eqn:E; [|exact I].
  destruct (findFirst_sound _ openTagMatchAt_sound _ _ _ _ _ E) as (_ & _ & H).
  unfold openTagMatchAt in H.
  destruct (openTagAt (mt ++ rest)) as [[a rest']|] eqn:Ea; [|discriminate].
  cbn [mbind option_bind] in H. injection H as <- <- <-.
  destruct (openTagAt_sound _ _ _ Ea) as [_ Ha].
  cbn [mbind option_bind]. unfold group. cbn [groups].
  destruct a as [a'|]; [exact Ha|exact I].
Qed.

Lemma whiteSpace_not_word c : isWhiteSpace c = true -> isWordChar c = false.
Proof.
  intros H. assert (c <= 32 \/ 160 <= c)%N as Hc.
  { unfold isWhiteSpace in H.
    repeat match type of H with
           | (_ || _)%bool = true => apply orb_prop in H; destruct H as [H|H]
           | (_ && _)%bool = true => apply andb_prop in H; destruct H as [H H']
           end;
      repeat match goal with
             | H : (_ <=? _)%N = true |- _ => apply N.leb_le in H
             | H : (_ =? _)%N = true |- _ => apply N.eqb_eq in H
             end; lia. }
  unfold isWordChar, isDigit.
  repeat match goal with
         | |- context [(?a <=? ?b)%N] => destruct (N.leb_spec a b)
         | |- context [(?a =? ?b)%N] => destruct (N.eqb_spec a b)
         end; cbn; try reflexivity; lia.
Qed.

(** ** Closing tags and the rewritten content *)

Lemma breakOn_skip x Z :
  noCloseIn x Z ->
  breakOn (js "</w:p>") (x ++ Z) =
  match breakOn (js "</w:p>") Z with
  | Some (a, r) => Some (x ++ a, r)
  | None => None
  end.
Proof.
  induction x as [|d x IH]; intros H.
  - cbn [app]. destruct (breakOn _ Z) as [[a r]|]; reflexivity.
  - destruct H as [H1 H2]. cbn [app breakOn]. rewrite H1, (IH H2).
    destruct (breakOn _ Z) as [[a r]|]; reflexivity.
Qed.

Lemma breakOn_inv x Z z R :
  breakOn (js "</w:p>") (x ++ Z) = Some (x ++ z, R) ->
  noCloseIn x Z /\ breakOn (js "</w:p>") Z = Some (z, R).
Proof.
  induction x as [|d x IH]; intros H.
  - split; [exact I|exact H].
  - cbn [app breakOn] in H.
    destruct (stripPrefix (js "</w:p>") (d :: x ++ Z)) as [r|] eqn:E;
      [discriminate H|].
    destruct (breakOn (js "</w:p>") (x ++ Z)) as [[a r]|] eqn:Eb;
      [|discriminate H].
    injection H as -> ->. destruct (IH eq_refl) as [H1 H2].
    split; [split; assumption|assumption].
Qed.

Lemma noCloseIn_app x1 x2 Z :
  noCloseIn (x1 ++ x2) Z <-> noCloseIn x1 (x2 ++ Z) /\ noCloseIn x2 Z.
Proof.
  induction x1 as [|d x1 IH]; cbn [app noCloseIn].
  - tauto.
  - rewrite IH, <- app_assoc. tauto.
Qed.

Lemma isSome_None {A : Type} (o : option A) : isSome o = false <-> o = None.
Proof. destruct o; split; intros H; try reflexivity; discriminate H. Qed.

Lemma noCloseIn_before_lt x Y Y' :
  noCloseIn x (60%N :: Y) -> noCloseIn x (60%N :: Y').
Proof.
  induction x as [|d x IH]; [intros _; exact I|].
  cbn [noCloseIn]. intros [H1 H2]. split; [|exact (IH H2)].
  apply isSome_None. apply isSome_None in H1.
  etransitivity; [|exact H1].
  js_norm. cbn [stripPrefix]. destruct (d =? 60)%N; [|reflexivity].
  apply (stripPrefix_before_lt [47; 119; 58; 112; 62]%N).
  repeat constructor.
Qed.

(** Whether a string that ends with its only [>] is a prefix does not
    depend on what follows the first [>] of the input. *)
Lemma stripPrefix_before_gt q x Y Y' :
  noGt q -> noGt x ->
  isSome (stripPrefix (q ++ [62%N]) (x ++ 62%N :: Y)) =
  isSome (stripPrefix (q ++ [62%N]) (x ++ 62%N :: Y')).
Proof.
  intros Hq. revert x. induction Hq as [|c q Hc _ IH]; intros x Hx.
  - destruct Hx as [|d x Hd _]; cbn [app stripPrefix]; [reflexivity|].
    unfold notGt in Hd. destruct (d =? 62)%N; [discriminate|reflexivity].
  - destruct Hx as [|d x Hd Hx]; cbn [app stripPrefix].
    + unfold notGt in Hc. rewrite N.eqb_sym.
      destruct (c =? 62)%N; [discriminate|reflexivity].
    + destruct (d =? c)%N; [apply IH; exact Hx|reflexivity].
Qed.

Lemma noCloseIn_before_gt x Y Y' :
  noGt x -> noCloseIn x (62%N :: Y) -> noCloseIn x (62%N :: Y').
Proof.
  induction 1 as [|d x Hd Hx IH]; [intros _; exact I|].
  cbn [noCloseIn]. intros [H1 H2]. split; [|exact (IH H2)].
  apply isSome_None. apply isSome_None in H1.
  etransitivity; [|exact H1].
  change (js "</w:p>") with ([60; 47; 119; 58; 112]%N ++ [62%N]).
  apply (stripPrefix_before_gt _ (d :: x));
    [repeat constructor|constructor; assumption].
Qed.

Lemma noCloseIn_noLt x Z : noLt x -> noCloseIn x Z.
Proof.
  induction 1 as [|d x Hd _ IH]; [exact I|].
  split; [|exact IH]. js_norm. cbn [stripPrefix].
  unfold notLt in Hd. destruct (d =? 60)%N; [discriminate|reflexivity].
Qed.

Lemma runElement_split a t :
  runElement a t = (js "<w:t" ++ orEmpty a) ++ 62%N :: t ++ js "</w:t>".
Proof. unfold runElement. rewrite <- app_assoc. reflexivity. Qed.

Lemma noCloseIn_runElement a t t' Z Z' :
  wfAttrs a -> noLt t' ->
  noCloseIn (runElement a t) Z -> noCloseIn (runElement a t') Z'.
Proof.
  intros Ha Ht'. rewrite !runElement_split.
  rewrite !(noCloseIn_app (js "<w:t" ++ orEmpty a)).
  intros (H1 & _). split.
  - cbn [app] in *. revert H1. apply noCloseIn_before_gt.
    apply Forall_app. split; [js_norm; repeat constructor|].
    destruct a as [[|c a']|]; cbn [orEmpty wfAttrs] in *;
      [contradiction| |constructor].
    destruct Ha. constructor; [apply whiteSpace_notGt|]; assumption.
  - split; [js_norm; reflexivity|].
    apply noCloseIn_app. split; [apply noCloseIn_noLt, Ht'|].
    js_norm. cbn. auto 10.
Qed.

Lemma noCloseIn_rebuild rl : forall ts ts' tail Y Y',
  Forall wfRun rl -> Forall noLt ts' ->
  length ts = length rl -> length ts' = length rl ->
  noCloseIn (rebuild rl ts tail) (60%N :: Y) ->
  noCloseIn (rebuild rl ts' tail) (60%N :: Y').
Proof.
  induction rl as [|[[pre a] t0] rl IH];
    intros ts ts' tail Y Y' Hwf Hts' Hl Hl'.
  - destruct ts, ts'; try discriminate. cbn [rebuild].
    apply noCloseIn_before_lt.
  - destruct ts as [|t ts], ts' as [|t' ts']; try discriminate.
    inversion Hwf as [|? ? [Ha _] Hwf']; inversion Hts'; subst.
    cbn [rebuild]. rewrite !noCloseIn_app. intros (G1 & G2 & G3).
    split; [|split].
    + destruct (runElement_head a t (rebuild rl ts tail ++ 60%N :: Y))
        as [y Hy].
      destruct (runElement_head a t' (rebuild rl ts' tail ++ 60%N :: Y'))
        as [y' Hy'].
      rewrite <- !app_assoc in *. rewrite Hy in G1. rewrite Hy'.
      revert G1. apply noCloseIn_before_lt.
    + revert G2. apply noCloseIn_runElement; assumption.
    + revert G3. apply IH; try assumption; simpl in *; lia.
Qed.

Lemma RunParse_rebuild_self s rl tail :
  RunParse s rl tail -> s = rebuild rl (map (fun e => e.2) rl) tail.
Proof.
  intros [HP _].
  rewrite (Parse_assemble runMatchAt runMatchAt_sound _ _ _ HP) at 1.
  clear HP. induction rl as [|[[pre a] t] rl IH]; [reflexivity|].
  cbn [map runEntry assemble rebuild fst snd]. rewrite IH. reflexivity.
Qed.

(** The paragraph that the callback writes is a paragraph block that ends
    at its own closing tag. *)
Lemma paragraphAt_written a c :
  wfAttrs a -> noCloseIn c (js "</w:p>") ->
  paragraphAt (js "<w:p" ++ orEmpty a ++ js ">" ++ c ++ js "</w:p>") =
  Some (orEmpty a, c, []).
Proof.
  intros Ha Hc. unfold paragraphAt. rewrite stripPrefix_app.
  cbn [mbind option_bind].
  assert (noGt (orEmpty a)) as Hgt.
  { destruct a as [[|d a']|]; cbn [orEmpty wfAttrs] in *;
      [contradiction| |constructor].
    destruct Ha. constructor; [apply whiteSpace_notGt|]; assumption. }
  replace (match orEmpty a ++ js ">" ++ c ++ js "</w:p>" with
           | [] => false
           | c0 :: _ => isWordChar c0
           end) with false.
  2:{ destruct a as [[|d a']|]; cbn [orEmpty wfAttrs app] in *;
        [contradiction| |reflexivity].
      destruct Ha as [Hd _]. symmetry. apply whiteSpace_not_word, Hd. }
  rewrite (span_all notGt _ _ Hgt).
  change (js ">" ++ ?u) with (62%N :: u).
  rewrite span_stop by reflexivity. cbn [fst snd].
  pose proof (breakOn_skip c (js "</w:p>") Hc) as Hb.
  change (breakOn (js "</w:p>") (js "</w:p>")) with
    (Some ([] : jsstring, [] : jsstring)) in Hb.
  rewrite Hb. cbn [mbind option_bind]. rewrite !app_nil_r. reflexivity.
Qed.

(** ** Matches and the entries of a parse *)

Section ScanMore.
Variable matchAt :
  jsstring -> option (jsstring * jsstring * list (nat * jsstring)).
Hypothesis matchAt_sound : forall s mt rest caps,
  matchAt s = Some (mt, rest, caps) -> s = mt ++ rest /\ mt <> [].

Lemma findFirst_head s mt rest caps :
  matchAt s = Some (mt, rest, caps) ->
  findFirst matchAt s = Some ([], mt, rest, caps).
Proof. intros H. destruct s; cbn [findFirst]; rewrite H; reflexivity. Qed.

Lemma Parse_entries s l tail :
  Parse matchAt s l tail ->
  Forall (fun e => exists rest,
            matchAt (e.1.2 ++ rest) = Some (e.1.2, rest, e.2)) l.
Proof.
  induction 1 as [s E|s pre mt rest caps l tail E H IH]; constructor;
    [|exact IH].
  destruct (findFirst_sound matchAt matchAt_sound _ _ _ _ _ E)
    as (_ & _ & Hm).
  exists rest. exact Hm.
Qed.

Lemma results_elem off l m :
  m ∈ results off l ->
  exists e, e ∈ l /\ matched m = e.1.2 /\ groups m = e.2.
Proof.
  revert off. induction l as [|[[pre mt] caps] l IH]; intros off;
    cbn [results].
  - intros H. inversion H.
  - intros H. apply elem_of_cons in H. destruct H as [->|H].
    + exists (pre, mt, caps). split; [left|split; reflexivity].
    + destruct (IH _ H) as (e & H1 & H2). exists e.
      split; [right; exact H1|exact H2].
Qed.
End ScanMore.

(** What a match of the paragraph pattern is. *)
Lemma paragraph_match xml m :
  m ∈ globalMatches PARAGRAPH_REGEX xml ->
  exists a c rest,
    matched m = paragraphElement a c /\ group 1 m = Some c /\
    paragraphAt (paragraphElement a c ++ rest) = Some (a, c, rest).
Proof.
  intros Hm.
  destruct (Parse_total paragraphMatchAt paragraphMatchAt_sound xml)
    as (l & tail & HP).
  rewrite (globalMatches_Parse paragraphMatchAt PARAGRAPH_REGEX PARAGRAPH_at
             paragraphMatchAt_sound xml l tail HP) in Hm.
  destruct (results_elem _ _ _ Hm) as ([[pre mt] caps] & Hin & H1 & H2).
  pose proof (Parse_entries _ paragraphMatchAt_sound _ _ _ HP) as Hall.
  rewrite Forall_forall in Hall. destruct (Hall _ Hin) as [rest Hr].
  cbn [fst snd] in *. unfold paragraphMatchAt in Hr.
  destruct (paragraphAt (mt ++ rest)) as [[[a c] rest']|] eqn:E;
    [|discriminate Hr].
  cbn [mbind option_bind] in Hr. injection Hr as <- <- <-.
  exists a, c, rest'. unfold group. rewrite H1, H2. auto.
Qed.

Lemma replaceParagraphText_miss (xml : jsstring)
  (translations : gmap jsstring jsstring) :
  (forall m key,
     m ∈ globalMatches PARAGRAPH_REGEX xml ->
     originalTextOf (orEmpty (group 1 m)) = Some key ->
     translations !! key = None) ->
  replaceParagraphText xml translations = Some xml.
Proof.
  intros H. unfold replaceParagraphText, replaceOpt.
  rewrite callEachOpt_same.
  - cbn [mbind option_bind]. f_equal.
    apply (substitute_matched paragraphMatchAt PARAGRAPH_REGEX PARAGRAPH_at
             paragraphMatchAt_sound).
  - intros m Hm. apply paragraphCallback_miss.
    apply (H m _ Hm). apply originalTextOf_textRuns.
Qed.

Lemma join_nil_cons (x : jsstring) (l : list jsstring) :
  join [] (x :: l) = x ++ join [] l.
Proof. destruct l; [symmetry; apply app_nil_r|reflexivity]. Qed.

Lemma join_first_only {A : Type} (t : jsstring) (l : list A) :
  join [] (t :: map (fun _ => []) l) = t.
Proof.
  rewrite join_nil_cons.
  replace (join [] (map (fun _ => []) l)) with ([] : jsstring);
    [apply app_nil_r|].
  induction l as [|e l IH]; [reflexivity|].
  cbn [map]. rewrite join_nil_cons. exact IH.
Qed.

Lemma retext_texts rl : forall ts,
  length ts = length rl -> map (fun e => e.2) (retext rl ts) = ts.
Proof.
  induction rl as [|[[pre a] t] rl IH]; intros [|t' ts] H; try discriminate;
    [reflexivity|].
  cbn [retext map snd]. f_equal. apply IH. simpl in H. lia.
Qed.

(** ** The matcher only moves forward: the loop of [replace] ends *)

Lemma extends_refl x : extends x x.
Proof. exists []. split; reflexivity. Qed.

Lemma extends_trans x y z : extends x y -> extends y z -> extends x z.
Proof.
  intros (m1 & H1 & H2) (m2 & H3 & H4). exists (m1 ++ m2).
  rewrite H3, H1, H2, H4, reverse_app, <- !app_assoc. split; reflexivity.
Qed.

Lemma extends_char b d w caps caps' :
  extends (mkState b (d :: w) caps) (mkState (d :: b) w caps').
Proof. exists [d]. split; reflexivity. Qed.

Lemma extends_captures x y caps :
  extends x y -> extends x (mkState (before y) (after y) caps).
Proof. intros (m & H1 & H2). exists m. split; assumption. Qed.

Lemma repeatCls_extends greedy p (k : Continuation) aft : forall bef caps z,
  repeatCls greedy p k bef aft caps = Some z ->
  exists y, k y = Some z /\ extends (mkState bef aft caps) y.
Proof.
  induction aft as [|c aft IH]; intros bef caps z; cbn [repeatCls].
  - intros H. eexists. split; [exact H|apply extends_refl].
  - assert (forall o,
              orElse (repeatCls greedy p k (c :: bef) aft caps) o = Some z \/
              orElse o (repeatCls greedy p k (c :: bef) aft caps) = Some z ->
              o = Some z \/
              repeatCls greedy p k (c :: bef) aft caps = Some z) as Hor.
    { intros o. destruct (repeatCls greedy p k (c :: bef) aft caps), o;
        cbn [orElse]; intros [H|H]; auto. }
    intros H.
    assert (k (mkState bef (c :: aft) caps) = Some z \/
            repeatCls greedy p k (c :: bef) aft caps = Some z) as [Hk|Hr].
    { destruct (p c); [|left; exact H].
      apply Hor. destruct greedy; [left|right]; exact H. }
    + eexists. split; [exact Hk|apply extends_refl].
    + destruct (IH _ _ _ Hr) as (y & Hy & He). exists y. split; [exact Hy|].
      eapply extends_trans; [apply extends_char|exact He].
Qed.

(** Every state that a matcher hands to its continuation is the state it
    started from, moved forward: matching never moves back and never
    changes the input. *)
Lemma matcher_extends r : forall (k : Continuation) x z,
  matcher r k x = Some z -> exists y, k y = Some z /\ extends x y.
Proof.
  induction r as [|c|p| | | |r1 IH1 r2 IH2|greedy p|r1 IH1|n r1 IH1];
    intros k [b w caps] z; cbn [matcher before after captures].
  - intros H. eexists. split; [exact H|apply extends_refl].
  - destruct w as [|d w]; [discriminate|].
    destruct (d =? c)%N; [|discriminate].
    intros H. eexists. split; [exact H|apply extends_char].
  - destruct w as [|d w]; [discriminate|].
    destruct (p d); [|discriminate].
    intros H. eexists. split; [exact H|apply extends_char].
  - destruct (xorb _ _); [|discriminate].
    intros H. eexists. split; [exact H|apply extends_refl].
  - destruct b; [|discriminate].
    intros H. eexists. split; [exact H|apply extends_refl].
  - destruct w; [|discriminate].
    intros H. eexists. split; [exact H|apply extends_refl].
  - intros H. destruct (IH1 _ _ _ H) as (y1 & H1 & E1).
    destruct (IH2 _ _ _ H1) as (y2 & H2 & E2).
    exists y2. split; [exact H2|eapply extends_trans; eassumption].
  - apply repeatCls_extends.
  - destruct (matcher r1 _ _) as [z'|] eqn:E; cbn [orElse].
    + intros [= ->]. destruct (IH1 _ _ _ E) as (y & Hy & He).
      destruct (endIndex y =? _); [discriminate|].
      exists y. split; assumption.
    + intros H. eexists. split; [exact H|apply extends_refl].
  - intros H. destruct (IH1 _ _ _ H) as (y & Hy & He).
    eexists. split; [exact Hy|]. apply extends_captures, He.
Qed.

Lemma searchFrom_bounds r aft : forall bef m,
  searchFrom r bef aft = Some m ->
  length bef <= index m /\
  lastIndexAfter m = index m + length (matched m) /\
  lastIndexAfter m <= length bef + length aft.
Proof.
  induction aft as [|c aft IH]; intros bef m; cbn [searchFrom].
  - destruct (matcher r Some _) as [y|] eqn:E; [|discriminate].
    intros [= <-]. destruct (matcher_extends _ _ _ _ E) as (y' & [= ->] & He).
    destruct He as (mt & H1 & H2). cbn [before after] in *.
    unfold consumed, endIndex. cbn [index matched lastIndexAfter before].
    rewrite H1, length_reverse, length_take, length_app, length_reverse.
    apply (f_equal length) in H2. rewrite length_app in H2. simpl in H2. lia.
  - destruct (matcher r Some _) as [y|] eqn:E.
    + intros [= <-]. destruct (matcher_extends _ _ _ _ E) as (y' & [= ->] & He).
      destruct He as (mt & H1 & H2). cbn [before after] in *.
      unfold consumed, endIndex. cbn [index matched lastIndexAfter before].
      rewrite H1, length_reverse, length_take, length_app, length_reverse.
      apply (f_equal length) in H2. rewrite length_app in H2. simpl in *. lia.
    + intros H. destruct (IH _ _ H) as (H1 & H2 & H3). simpl in *. lia.
Qed.

Lemma exec_bounds r s i m li :
  exec r s i = (Some m, li) ->
  i <= index m /\ li = index m + length (matched m) /\ li <= length s.
Proof.
  unfold exec. destruct (Nat.ltb_spec (length s) i); [discriminate|].
  destruct (searchFrom r _ _) as [m'|] eqn:E; [|discriminate].
  intros [= -> <-]. destruct (searchFrom_bounds _ _ _ _ E) as (H1 & H2 & H3).
  rewrite length_reverse, length_take, length_drop in *. lia.
Qed.

Lemma exec_past_end r s i : length s < i -> exec r s i = (None, 0).
Proof.
  intros H. unfold exec.
  destruct (Nat.ltb_spec (length s) i); [reflexivity|lia].
Qed.

(** The loop of [replace] over the matches ends by itself, for every
    pattern: more iterations than [length s + 2] change nothing. *)
Lemma execAll_fuel r s n : forall n' i,
  length s + 2 - i <= n -> length s + 2 - i <= n' ->
  execAll n r s i = execAll n' r s i.
Proof.
  induction n as [|n IH]; intros n' i Hn Hn'.
  - destruct n' as [|n']; [reflexivity|]. cbn [execAll].
    rewrite exec_past_end by lia. reflexivity.
  - destruct n' as [|n'].
    + cbn [execAll]. rewrite exec_past_end by lia. reflexivity.
    + cbn [execAll]. destruct (exec r s i) as [[m|] li] eqn:E; [|reflexivity].
      destruct (exec_bounds _ _ _ _ _ E) as (H1 & H2 & H3).
      f_equal. destruct (matched m) as [|c mt]; apply IH; simpl in *; lia.
Qed.

Lemma globalMatches_fuel r s n :
  length s + 2 <= n -> execAll n r s 0 = globalMatches r s.
Proof. intros H. apply execAll_fuel; lia. Qed.

(** ** Markup in the content of an element *)

(** However a matched run element is read as an opening tag, a content and
    a closing tag, the content has no [<]. *)
Lemma element_content_noLt A : forall (a t inner : jsstring),
  noGt A -> noLt t ->
  A ++ 62%N :: t = a ++ 62%N :: inner -> noLt inner.
Proof.
  induction A as [|c A IH]; intros a t inner HA Ht E.
  - destruct a as [|d a]; cbn [app] in E.
    + injection E as <-. exact Ht.
    + injection E as _ ->. apply Forall_app in Ht. destruct Ht as [_ Ht].
      inversion Ht; assumption.
  - inversion HA as [|? ? Hc HA']; subst.
    destruct a as [|d a]; cbn [app] in E.
    + injection E as -> _. discriminate Hc.
    + injection E as _ E. exact (IH _ _ _ HA' Ht E).
Qed.

Lemma wfAttrs_noGt a : wfAttrs a -> noGt (orEmpty a).
Proof.
  destruct a as [[|d a']|]; cbn [orEmpty wfAttrs];
    [contradiction| |constructor].
  intros [Hd Ha]. constructor; [apply whiteSpace_notGt|]; assumption.
Qed.

Lemma runElement_content_noLt a t (a' inner : jsstring) :
  wfAttrs a -> noLt t ->
  runElement a t = js "<w:t" ++ a' ++ js ">" ++ inner ++ js "</w:t>" ->
  noLt inner.
Proof.
  intros Ha Ht E. unfold runElement in E.
  apply app_inv_head in E.
  rewrite !app_assoc in E. apply app_inv_tail in E.
  rewrite <- !app_assoc in E.
  exact (element_content_noLt _ _ _ _ (wfAttrs_noGt a Ha) Ht E).
Qed.

(** ** [escapeXml] and [unescapeXml]: one pass over the text *)

Lemma replaceChar_app c rep x y :
  replaceChar c rep (x ++ y) = replaceChar c rep x ++ replaceChar c rep y.
Proof.
  induction x as [|d x IH]; [reflexivity|].
  cbn [app replaceChar]. rewrite IH, app_assoc. reflexivity.
Qed.

Lemma replaceChar_one c rep d :
  replaceChar c rep [d] = if (d =? c)%N then rep else [d].
Proof. cbn [replaceChar]. apply app_nil_r. Qed.

Lemma escapeXml_flat_map t : escapeXml t = flat_map escapeChar t.
Proof.
  unfold escapeXml. rewrite !replaceString_Char.
  induction t as [|c t IH]; [reflexivity|].
  change (c :: t) with ([c] ++ t). rewrite !replaceChar_app, IH.
  cbn [flat_map app]. f_equal. clear IH.
  rewrite replaceChar_one. unfold escapeChar, dquote.
  destruct (N.eqb_spec c 38) as [->|H38]; [reflexivity|].
  rewrite replaceChar_one.
  destruct (N.eqb_spec c 60) as [->|H60]; [reflexivity|].
  rewrite replaceChar_one.
  destruct (N.eqb_spec c 62) as [->|H62]; [reflexivity|].
  rewrite replaceChar_one.
  destruct (N.eqb_spec c 34) as [->|H34]; [reflexivity|].
  rewrite replaceChar_one.
  destruct (N.eqb_spec c 39) as [->|H39]; reflexivity.
Qed.

Section Literal.
Variable e : jsstring.
Hypothesis e_nonempty : e <> [].

Lemma str_matchAt bef aft :
  matcher (str e) Some (mkState bef aft []) =
  match strMatchAt e aft with
  | Some (mt, rest, caps) => Some (mkState (reverse mt ++ bef) rest caps)
  | None => None
  end.
Proof.
  rewrite matcher_str. unfold strMatchAt.
  destruct (stripPrefix e aft); reflexivity.
Qed.

Lemma strMatchAt_sound s mt rest caps :
  strMatchAt e s = Some (mt, rest, caps) -> s = mt ++ rest /\ mt <> [].
Proof.
  unfold strMatchAt. destruct (stripPrefix e s) as [r|] eqn:E; [|discriminate].
  cbn [mbind option_bind]. intros [= <- <- <-].
  split; [apply stripPrefix_Some, E|exact e_nonempty].
Qed.

Lemma noOcc_app x1 x2 Z :
  noOcc e (x1 ++ x2) Z <-> noOcc e x1 (x2 ++ Z) /\ noOcc e x2 Z.
Proof.
  induction x1 as [|d x1 IH]; cbn [app noOcc].
  - tauto.
  - rewrite IH, <- app_assoc. tauto.
Qed.

Lemma findFirst_skip x Z :
  noOcc e x Z ->
  findFirst (strMatchAt e) (x ++ Z) =
  match findFirst (strMatchAt e) Z with
  | Some (pre, mt, rest, caps) => Some (x ++ pre, mt, rest, caps)
  | None => None
  end.
Proof.
  induction x as [|d x IH]; intros H.
  - cbn [app]. destruct (findFirst _ Z) as [[[[? ?] ?] ?]|]; reflexivity.
  - destruct H as [H1 H2]. cbn [app findFirst]. unfold strMatchAt at 1.
    rewrite H1. cbn [mbind option_bind]. rewrite (IH H2).
    destruct (findFirst _ Z) as [[[[? ?] ?] ?]|]; reflexivity.
Qed.

Lemma findFirst_nil : findFirst (strMatchAt e) [] = None.
Proof.
  cbn [findFirst]. unfold strMatchAt.
  destruct e; [contradiction|reflexivity].
Qed.

(** The matches are then the pieces that are the literal. *)
Lemma Parse_tokens (rep : jsstring) tokens : forall pre,
  noOcc e pre (concat tokens) ->
  goodTokens e tokens ->
  exists l tail,
    Parse (strMatchAt e) (pre ++ concat tokens) l tail /\
    assemble l (map (fun _ => rep) l) tail =
    pre ++ concat (map (fun tk => if decide (tk = e) then rep else tk)
                     tokens).
Proof.
  induction tokens as [|tk tokens IH]; intros pre Hpre Htk.
  - exists [], (pre ++ []). split; [|reflexivity].
    constructor. rewrite findFirst_skip by apply Hpre.
    rewrite findFirst_nil. reflexivity.
  - destruct Htk as [Hhd Htl]. cbn [concat map] in *.
    destruct (decide (tk = e)) as [->|Hne].
    + destruct (IH [] I Htl) as (l & tail & HP & Ha).
      exists ((pre, e, []) :: l), tail. split.
      * econstructor; [|exact HP].
        rewrite findFirst_skip by apply Hpre.
        rewrite (findFirst_head (strMatchAt e)) with (mt := e)
          (rest := concat tokens) (caps := []).
        -- rewrite app_nil_r. reflexivity.
        -- unfold strMatchAt. rewrite stripPrefix_app. reflexivity.
      * cbn [map assemble]. rewrite Ha. reflexivity.
    + destruct Hhd as [Hhd|Hfree]; [contradiction|].
      destruct (IH (pre ++ tk)) as (l & tail & HP & Ha); [|exact Htl|].
      * apply noOcc_app. split; assumption.
      * exists l, tail. rewrite <- !app_assoc in *. split; assumption.
Qed.

Lemma replaceString_tokens (rep : jsstring) tokens :
  goodTokens e tokens ->
  replaceString (str e) (concat tokens) rep =
  concat (map (fun tk => if decide (tk = e) then rep else tk) tokens).
Proof.
  intros H.
  destruct (Parse_tokens rep tokens [] I H) as (l & tail & HP & Ha).
  cbn [app] in *. rewrite <- Ha. unfold replaceString.
  rewrite (globalMatches_Parse (strMatchAt e) (str e) str_matchAt
             strMatchAt_sound _ l tail HP).
  rewrite (substitute_Parse (strMatchAt e) strMatchAt_sound _ l tail HP [] 0);
    [|reflexivity|].
  - f_equal. rewrite map_map. cbn [snd]. clear HP Ha.
    generalize 0. induction l as [|[[pre mt] caps] l IH]; intros off;
      [reflexivity|]. cbn [results map]. rewrite IH. reflexivity.
  - rewrite map_map. cbn [fst]. apply map_id.
Qed.
End Literal.

Ltac special_cases d :=
  destruct (N.eqb_spec d 38) as [->|?];
  [|destruct (N.eqb_spec d 60) as [->|?];
    [|destruct (N.eqb_spec d 62) as [->|?];
      [|destruct (N.eqb_spec d 34) as [->|?];
        [|destruct (N.eqb_spec d 39) as [->|?]]]]].

Lemma breakOn_afterAmp w t :
  breakOn (38%N :: w) t = None -> afterAmp w t.
Proof.
  induction t as [|d t IH]; intros H; [exact I|].
  cbn [breakOn stripPrefix] in H. cbn [afterAmp].
  destruct (N.eqb_spec d 38) as [->|Hd].
  - destruct (stripPrefix w t); [discriminate H|].
    destruct (breakOn (38%N :: w) t) as [[? ?]|]; [discriminate H|].
    split; [reflexivity|apply IH; reflexivity].
  - destruct (breakOn (38%N :: w) t) as [[? ?]|]; [discriminate H|].
    split; [contradiction|apply IH; reflexivity].
Qed.

Lemma stage_cases D d : stage D d = [d] \/ exists y, stage D d = 38%N :: y.
Proof.
  unfold stage. destruct (existsb _ D); [left; reflexivity|].
  unfold escapeChar, dquote.
  special_cases d; cbn [N.eqb Pos.eqb]; js_norm; eauto.
Qed.

Lemma stripPrefix_stage D w : forall x,
  Forall plain w -> stripPrefix w x = None ->
  stripPrefix w (flat_map (stage D) x) = None.
Proof.
  induction w as [|c w IH]; intros x Hw H; [discriminate H|].
  inversion Hw as [|? ? Hc Hw']; subst.
  destruct x as [|d x]; [reflexivity|].
  cbn [flat_map]. cbn [stripPrefix] in H.
  destruct (stage_cases D d) as [->|[y ->]]; cbn [app stripPrefix].
  - destruct (d =? c)%N; [apply IH; assumption|reflexivity].
  - destruct (N.eqb_spec 38 c) as [<-|_]; [|reflexivity].
    destruct Hc as [Hc _]. contradiction.
Qed.

Lemma unescape_step (w : jsstring) (c : char16) (D : list char16)
  (t : jsstring) :
  let e := 38%N :: w in
  (forall d, d <> 38%N ->
     (stage D d = e \/ forall Z, noOcc e (stage D d) Z) /\
     (if decide (stage D d = e) then [c] else stage D d) = stage (c :: D) d) ->
  (stage D 38 = e /\ stage (c :: D) 38 = [c]) \/
  (stage D 38 = [38%N] /\ stage (c :: D) 38 = [38%N] /\ w <> [] /\
   Forall plain w /\ afterAmp w t) ->
  replaceString (str e) (flat_map (stage D) t) [c]
  = flat_map (stage (c :: D)) t.
Proof.
  intros e Hd Hamp. rewrite !flat_map_concat_map.
  rewrite (replaceString_tokens e); [|discriminate|].
  - f_equal. rewrite map_map. apply map_ext. intros d.
    destruct (N.eqb_spec d 38) as [->|Hne]; [|apply Hd, Hne].
    destruct Hamp as [[E1 E2]|(E1 & E2 & Hw & _)]; rewrite E1, E2.
    + rewrite decide_True by reflexivity. reflexivity.
    + rewrite decide_False; [reflexivity|].
      unfold e. intros [= E]. symmetry in E. contradiction.
  - assert (Ht : (exists E : stage D 38 = e, True) \/
                 (stage D 38 = [38%N] /\ Forall plain w /\ afterAmp w t)).
    { destruct Hamp as [[E1 _]|(E1 & _ & _ & Hw & Ha)];
        [left; exists E1; exact I|right; auto]. }
    clear Hamp. induction t as [|d t IH]; [exact I|].
    cbn [map goodTokens]. split.
    + destruct (N.eqb_spec d 38) as [->|Hne]; [|].
      * destruct Ht as [[E1 _]|(E1 & Hw & Ha)]; [left; exact E1|].
        right. rewrite E1. cbn [noOcc app]. split; [|exact I].
        unfold e. cbn [stripPrefix]. rewrite N.eqb_refl.
        rewrite <- flat_map_concat_map.
        apply stripPrefix_stage; [exact Hw|]. apply Ha. reflexivity.
      * destruct (Hd d Hne) as [[H|H] _]; [left; exact H|right; apply H].
    + apply IH. destruct Ht as [H|(E1 & Hw & Ha)]; [left; exact H|].
      right. split; [exact E1|]. split; [exact Hw|apply Ha].
Qed.

Ltac stage_case :=
  unfold stage, escapeChar, dquote; cbn [existsb orb];
  repeat match goal with
         | H : ?d <> ?n |- context [(?d =? ?n)%N] =>
             rewrite (proj2 (N.eqb_neq d n) H)
         end;
  cbn [N.eqb Pos.eqb orb]; js_norm;
  split;
  [ first [ left; reflexivity
          | right; intros Z; cbn [noOcc app stripPrefix N.eqb Pos.eqb];
            repeat match goal with
                   | H : ?d <> ?n |- context [(?d =? ?n)%N] =>
                       rewrite (proj2 (N.eqb_neq d n) H)
                   end;
            repeat split ]
  | let Hdec := fresh "Hdec" in
    case_decide as Hdec;
    first [ reflexivity | discriminate Hdec
          | exfalso; apply Hdec; reflexivity ] ].

Ltac plain_word :=
  repeat constructor; unfold plain; repeat split; discriminate.

(** ** The patterns of [getTranslatableFiles] *)

Lemma searchFrom_LineStart r aft : forall bef,
  bef <> [] -> searchFrom (Seq LineStart r) bef aft = None.
Proof.
  induction aft as [|c aft IH]; intros bef Hbef;
    cbn [searchFrom matcher before].
  - destruct bef; [contradiction|reflexivity].
  - destruct bef as [|b bef]; [contradiction|]. apply IH. discriminate.
Qed.

Lemma test_LineStart r s :
  test (Seq LineStart r) s = isSome (matcher r Some (mkState [] s [])).
Proof.
  unfold test, matchFirst.
  destruct s as [|c s]; cbn [searchFrom matcher before].
  - destruct (matcher r Some _); reflexivity.
  - destruct (matcher r Some _); [reflexivity|].
    rewrite searchFrom_LineStart by discriminate. reflexivity.
Qed.

Lemma matcher_str_end e b w caps :
  isSome (matcher (Seq (str e) LineEnd) Some (mkState b w caps)) =
  bool_decide (w = e).
Proof.
  rewrite matcher_Seq, matcher_str.
  destruct (stripPrefix e w) as [rest|] eqn:E.
  - apply stripPrefix_Some in E. subst w. cbn [matcher after].
    destruct rest as [|c rest].
    + rewrite app_nil_r, bool_decide_eq_true_2; reflexivity.
    + rewrite bool_decide_eq_false_2; [reflexivity|].
      intros H. apply (f_equal length) in H. rewrite length_app in H.
      simpl in H. lia.
  - rewrite bool_decide_eq_false_2; [reflexivity|].
    intros ->. pose proof (stripPrefix_app e []) as H.
    rewrite app_nil_r in H. congruence.
Qed.

Lemma test_fixedPart name path :
  test (fixedPart name) path = true <-> path = js "word/" ++ name ++ js ".xml".
Proof.
  unfold fixedPart. rewrite test_LineStart, matcher_str_end.
  apply bool_decide_eq_true.
Qed.

Lemma test_numberedPart name path :
  test (numberedPart name) path = true <->
  exists ds, allDigits ds /\ path = js "word/" ++ name ++ ds ++ js ".xml".
Proof.
  unfold numberedPart. rewrite test_LineStart, matcher_Seq, matcher_str.
  destruct (stripPrefix (js "word/" ++ name) path) as [v|] eqn:E.
  - apply stripPrefix_Some in E. subst path.
    change (matcher (Seq (Star true isDigit) ?r) Some ?x)
      with (repeatCls true isDigit (matcher r Some) (before x) (after x)
              (captures x)).
    cbn [before after captures]. rewrite repeatCls_greedy.
    2:{ intros b c w Hc. rewrite matcher_Seq, matcher_str. js_norm.
        cbn [stripPrefix].
        destruct (N.eqb_spec c 46) as [->|]; [discriminate Hc|reflexivity]. }
    rewrite matcher_str_end, bool_decide_eq_true. split.
    + intros Hw. exists (span isDigit v).1. split; [apply span_Forall|].
      rewrite <- Hw, <- !app_assoc, <- span_app. reflexivity.
    + intros (ds & Hds & Heq). rewrite <- !app_assoc in Heq.
      do 2 apply app_inv_head in Heq. subst v.
      rewrite (span_all isDigit ds _ Hds). js_norm.
      rewrite span_stop by reflexivity. reflexivity.
  - split; [discriminate|]. intros (ds & _ & ->).
    rewrite (app_assoc (js "word/")), stripPrefix_app in E.
    discriminate.
Qed.

(** ** Marker lines *)

Lemma searchFrom_LineStart_nil r s :
  searchFrom (Seq LineStart r) [] s =
  match matcher r Some (mkState [] s []) with
  | Some y =>
      Some (mkResult 0 (consumed (mkState [] s []) y) (captures y) (endIndex y))
  | None => None
  end.
Proof.
  destruct s as [|c s]; cbn [searchFrom matcher before].
  - destruct (matcher r Some _); reflexivity.
  - destruct (matcher r Some _); [reflexivity|].
    apply searchFrom_LineStart. discriminate.
Qed.

Lemma ID_LINE_group line :
  match matchFirst ID_LINE_REGEX line with
  | Some idMatch => Some (orEmpty (group 1 idMatch))
  | None => None
  end = markerId line.
Proof.
  unfold matchFirst, ID_LINE_REGEX, markerId.
  rewrite searchFrom_LineStart_nil. js_norm.
  destruct line as [|c0 l1]; [reflexivity|].
  cbn [matcher after before captures stripPrefix].
  destruct (c0 =? 91)%N; [|reflexivity].
  destruct l1 as [|c1 l2]; [reflexivity|].
  destruct (c1 =? 112)%N eqn:E1; [|reflexivity].
  apply N.eqb_eq in E1. subst c1. cbn [mbind option_bind].
  destruct l2 as [|d l3]; [reflexivity|]. cbn [span].
  destruct (isDigit d) eqn:Ed; [|reflexivity].
  rewrite repeatCls_greedy.
  2:{ intros b c w Hc. unfold setCapture. cbn [after].
      destruct (N.eqb_spec c 93) as [->|]; [discriminate Hc|reflexivity]. }
  destruct (span isDigit l3) as [ds w] eqn:Es. cbn [fst snd].
  unfold setCapture. cbn [after before captures].
  destruct w as [|c w'].
  - rewrite decide_False by discriminate. reflexivity.
  - destruct (N.eqb_spec c 93) as [->|Hc].
    + destruct w' as [|c' w''].
      * rewrite decide_True by reflexivity.
        unfold group. cbn [groups captures getCapture Nat.eqb orEmpty].
        f_equal.
        change ([d; 112%N; c0]) with ([d; 112%N] ++ [c0]).
        rewrite app_assoc.
        replace (reverse ds ++ [d; 112%N])
          with (reverse (112%N :: d :: ds))
          by (rewrite !reverse_cons, <- !app_assoc; reflexivity).
        apply consumed_app.
      * rewrite decide_False by discriminate. reflexivity.
    + rewrite decide_False by congruence. reflexivity.
Qed.

Lemma span_allDigits_end ds :
  allDigits ds -> span isDigit (ds ++ [93%N]) = (ds, [93%N]).
Proof.
  intros H. rewrite (span_all isDigit ds [93%N] H).
  cbn. rewrite app_nil_r. reflexivity.
Qed.

Lemma markerId_Some line i :
  markerId line = Some i <->
  isMarkerId i /\ line = js "[" ++ i ++ js "]".
Proof.
  unfold markerId, isMarkerId. js_norm. split.
  - destruct (stripPrefix _ line) as [v|] eqn:E; [|discriminate].
    apply stripPrefix_Some in E. cbn [mbind option_bind].
    pose proof (span_app isDigit v) as Hv.
    pose proof (span_Forall isDigit v) as Hd.
    destruct (span isDigit v) as [[|d ds] w]; [discriminate|].
    case_decide as Hw; [|discriminate]. intros [= <-].
    cbn [fst snd] in *. subst w. split.
    + exists d, ds. split; [reflexivity|exact Hd].
    + rewrite Hv in E. exact E.
  - intros [(d & ds & -> & Hd) ->]. cbn [app stripPrefix].
    rewrite !N.eqb_refl. cbn [mbind option_bind].
    change (d :: ds ++ [93%N]) with ((d :: ds) ++ [93%N]).
    rewrite (span_allDigits_end _ Hd).
    rewrite decide_True by reflexivity. reflexivity.
Qed.

Lemma parseLine_marker st line i :
  markerId line = Some i ->
  parseLine st line = (savePrevious st.1.1 st.1.2 st.2, Some i, []).
Proof.
  intros H. destruct st as [[t c] x]. unfold parseLine.
  pose proof (ID_LINE_group line) as G. rewrite H in G.
  destruct (matchFirst ID_LINE_REGEX line); [|discriminate G].
  injection G as ->. reflexivity.
Qed.

Lemma parseLine_text st line :
  markerId line = None ->
  parseLine st line =
  match st.1.2 with
  | Some _ => (st.1.1, st.1.2, st.2 ++ [line])
  | None => st
  end.
Proof.
  intros H. destruct st as [[t c] x]. unfold parseLine.
  pose proof (ID_LINE_group line) as G. rewrite H in G.
  destruct (matchFirst ID_LINE_REGEX line); [discriminate G|].
  reflexivity.
Qed.

(** ** [split], [join] and [trim] *)

Lemma splitAcc_line sep cur l :
  sep ∉ l -> splitAcc sep cur l = [reverse cur ++ l].
Proof.
  revert cur. induction l as [|c l IH]; intros cur H; cbn [splitAcc].
  - rewrite app_nil_r. reflexivity.
  - destruct (N.eqb_spec c sep) as [->|_].
    + exfalso. apply H. left.
    + rewrite IH by (intros ?; apply H; right; assumption).
      rewrite reverse_cons, <- app_assoc. reflexivity.
Qed.

Lemma splitAcc_sep sep cur l rest :
  sep ∉ l ->
  splitAcc sep cur (l ++ sep :: rest) =
  (reverse cur ++ l) :: splitAcc sep [] rest.
Proof.
  revert cur. induction l as [|c l IH]; intros cur H; cbn [splitAcc app].
  - rewrite N.eqb_refl, app_nil_r. reflexivity.
  - destruct (N.eqb_spec c sep) as [->|_].
    + exfalso. apply H. left.
    + rewrite IH by (intros ?; apply H; right; assumption).
      rewrite reverse_cons, <- app_assoc. reflexivity.
Qed.

Lemma split_join sep (ls : list jsstring) :
  Forall (fun l => sep ∉ l) ls -> ls <> [] ->
  split sep (join [sep] ls) = ls.
Proof.
  unfold split. induction 1 as [|l ls Hl Hls IH]; intros Hne; [congruence|].
  destruct ls as [|l' ls]; cbn [join].
  - apply (splitAcc_line sep [] l Hl).
  - cbn [app]. rewrite (splitAcc_sep sep [] l _ Hl). cbn [reverse app].
    f_equal. apply IH. discriminate.
Qed.

Lemma splitAcc_nonempty sep cur s : splitAcc sep cur s <> [].
Proof.
  revert cur. induction s as [|c s IH]; intros cur; cbn [splitAcc].
  - discriminate.
  - destruct (c =? sep)%N; [discriminate|apply IH].
Qed.

Lemma join_cons sep (x : jsstring) (l : list jsstring) :
  l <> [] -> join sep (x :: l) = x ++ sep ++ join sep l.
Proof. destruct l; [congruence|reflexivity]. Qed.

Lemma join_splitAcc sep cur s :
  join [sep] (splitAcc sep cur s) = reverse cur ++ s.
Proof.
  revert cur. induction s as [|c s IH]; intros cur; cbn [splitAcc].
  - cbn [join]. rewrite app_nil_r. reflexivity.
  - destruct (N.eqb_spec c sep) as [->|_].
    + rewrite join_cons by apply splitAcc_nonempty.
      rewrite IH. reflexivity.
    + rewrite IH, reverse_cons, <- app_assoc. reflexivity.
Qed.

Lemma join_split sep s : join [sep] (split sep s) = s.
Proof. apply (join_splitAcc sep [] s). Qed.

Lemma splitAcc_free sep cur s :
  sep ∉ cur -> Forall (fun l => sep ∉ l) (splitAcc sep cur s).
Proof.
  revert cur. induction s as [|c s IH]; intros cur H; cbn [splitAcc].
  - constructor; [|constructor]. rewrite elem_of_reverse. exact H.
  - destruct (N.eqb_spec c sep) as [->|Hc].
    + constructor; [rewrite elem_of_reverse; exact H|].
      apply IH. apply not_elem_of_nil.
    + apply IH. rewrite elem_of_cons. intros [E|E]; [congruence|auto].
Qed.

Lemma split_free sep s : Forall (fun l => sep ∉ l) (split sep s).
Proof. apply splitAcc_free, not_elem_of_nil. Qed.

Lemma join_app sep (l1 l2 : list jsstring) :
  l1 <> [] -> l2 <> [] ->
  join sep (l1 ++ l2) = join sep l1 ++ sep ++ join sep l2.
Proof.
  intros H1 H2. induction l1 as [|x l1 IH]; [congruence|].
  destruct l1 as [|y l1].
  - cbn [app]. rewrite join_cons by assumption. reflexivity.
  - change ((x :: y :: l1) ++ l2) with (x :: (y :: l1) ++ l2).
    rewrite join_cons by discriminate.
    rewrite IH by discriminate.
    rewrite (join_cons sep x (y :: l1)) by discriminate.
    rewrite <- !app_assoc. reflexivity.
Qed.

Lemma join_concat sep (Ls : list (list jsstring)) :
  Forall (fun L => L <> []) Ls ->
  join sep (map (join sep) Ls) = join sep (concat Ls).
Proof.
  induction 1 as [|L Ls HL HLs IH]; [reflexivity|].
  destruct Ls as [|L' Ls].
  - cbn. rewrite app_nil_r. reflexivity.
  - cbn [map concat]. rewrite join_cons by discriminate.
    change (join sep L' :: map (join sep) Ls)
      with (map (join sep) (L' :: Ls)).
    rewrite IH. symmetry. apply join_app; [exact HL|].
    cbn [concat]. inversion HLs; subst.
    destruct L'; [congruence|discriminate].
Qed.

Lemma trimStart_app_ws s c :
  isWhiteSpace c = true ->
  trimStart (s ++ [c]) = match trimStart s with [] => [] | x => x ++ [c] end.
Proof.
  intros Hc. induction s as [|d s IH]; cbn [app trimStart].
  - rewrite Hc. reflexivity.
  - destruct (isWhiteSpace d); [exact IH|reflexivity].
Qed.

Lemma trimEnd_app_ws s c :
  isWhiteSpace c = true -> trimEnd (s ++ [c]) = trimEnd s.
Proof.
  intros Hc. unfold trimEnd. rewrite reverse_app. cbn [reverse app].
  change (reverse [c]) with [c]. cbn [app trimStart]. rewrite Hc.
  reflexivity.
Qed.

Lemma trim_app_ws s c : isWhiteSpace c = true -> trim (s ++ [c]) = trim s.
Proof.
  intros Hc. unfold trim. rewrite (trimStart_app_ws s c Hc).
  destruct (trimStart s) as [|d x]; [reflexivity|].
  apply trimEnd_app_ws, Hc.
Qed.

Lemma trimStart_fixed s :
  match s with c :: _ => isWhiteSpace c = false | [] => True end ->
  trimStart s = s.
Proof. destruct s as [|c s]; [reflexivity|]. cbn. intros ->. reflexivity. Qed.

Lemma trimStart_head s :
  match trimStart s with c :: _ => isWhiteSpace c = false | [] => True end.
Proof.
  induction s as [|c s IH]; cbn [trimStart]; [exact I|].
  destruct (isWhiteSpace c) eqn:E; [exact IH|exact E].
Qed.

Lemma trimStart_suffix s : exists ws, s = ws ++ trimStart s.
Proof.
  induction s as [|c s [ws IH]]; cbn [trimStart]; [exists []; reflexivity|].
  destruct (isWhiteSpace c).
  - exists (c :: ws). cbn [app]. f_equal. exact IH.
  - exists []. reflexivity.
Qed.

Lemma trim_head s :
  match trim s with c :: _ => isWhiteSpace c = false | [] => True end.
Proof.
  unfold trim, trimEnd. pose proof (trimStart_head s) as Hx.
  destruct (trimStart_suffix (reverse (trimStart s))) as [ws Hws].
  set (y := trimStart (reverse (trimStart s))) in *.
  apply (f_equal reverse) in Hws.
  rewrite reverse_involutive, reverse_app in Hws.
  rewrite Hws in Hx. destruct (reverse y); [exact I|exact Hx].
Qed.

Lemma trim_idemp s : trim (trim s) = trim s.
Proof.
  unfold trim at 1. rewrite (trimStart_fixed (trim s) (trim_head s)).
  unfold trim, trimEnd. rewrite reverse_involutive.
  rewrite (trimStart_fixed _ (trimStart_head _)). reflexivity.
Qed.

(** ** The parser on rendered blocks *)

Lemma parseTxtTranslations_finalOf content :
  parseTxtTranslations content =
  finalOf (foldl parseLine (∅, None, []) (split newline content)).
Proof.
  unfold parseTxtTranslations, finalOf.
  destruct (foldl _ _ _) as [[t c] x]. reflexivity.
Qed.

Lemma block_string seg :
  js "[" ++ id seg ++ js "]" ++ [newline] ++ text seg ++ [newline] =
  join [newline] (blockLines seg).
Proof.
  unfold blockLines.
  rewrite join_cons
    by (intros H; apply app_eq_nil in H; destruct H; discriminate).
  rewrite join_app by (try discriminate; apply splitAcc_nonempty).
  rewrite join_split. cbn [join]. rewrite <- !app_assoc. reflexivity.
Qed.

Lemma simpleFormat_lines segs :
  simpleFormat segs = join [newline] (concat (map blockLines segs)).
Proof.
  unfold simpleFormat.
  rewrite (map_ext _ (fun seg => join [newline] (blockLines seg)))
    by (intros seg; apply block_string).
  rewrite <- (map_map blockLines (join [newline])).
  apply join_concat. apply Forall_forall. intros L HL.
  apply list_elem_of_In, in_map_iff in HL.
  destruct HL as (seg & <- & _). discriminate.
Qed.

Lemma foldl_text ls : forall t c x,
  Forall (fun l => markerId l = None) ls ->
  foldl parseLine (t, Some c, x) ls = (t, Some c, x ++ ls).
Proof.
  induction ls as [|l ls IH]; intros t c x H; cbn [foldl].
  - rewrite app_nil_r. reflexivity.
  - inversion H as [|? ? Hl Hls]; subst.
    rewrite (parseLine_text _ _ Hl). cbn [fst snd].
    rewrite IH by assumption. rewrite <- app_assoc. reflexivity.
Qed.

Lemma foldl_block seg st :
  wfBlock seg ->
  foldl parseLine st (blockLines seg) =
  (finalOf st, Some (id seg), split newline (text seg) ++ [[]]).
Proof.
  intros [Hid Htext]. unfold blockLines. cbn [foldl].
  rewrite (parseLine_marker st _ (id seg))
    by (apply markerId_Some; split; [assumption|reflexivity]).
  rewrite foldl_text; [reflexivity|].
  apply Forall_app. split.
  - exact Htext.
  - constructor; [reflexivity|constructor].
Qed.

Lemma finalOf_block st seg :
  finalOf (finalOf st, Some (id seg), split newline (text seg) ++ [[]]) =
  setTrimmed (finalOf st) seg.
Proof.
  unfold finalOf at 1. cbn [fst snd savePrevious].
  rewrite length_app. cbn [length].
  replace (Nat.ltb 0 _) with true by (symmetry; apply Nat.ltb_lt; lia).
  unfold setTrimmed. f_equal.
  rewrite join_app by (try discriminate; apply splitAcc_nonempty).
  rewrite join_split. cbn [join]. rewrite app_nil_r.
  apply trim_app_ws. reflexivity.
Qed.

Lemma foldl_blocks segs : forall st,
  Forall wfBlock segs ->
  finalOf (foldl parseLine st (concat (map blockLines segs))) =
  foldl setTrimmed (finalOf st) segs.
Proof.
  induction segs as [|seg segs IH]; intros st H; [reflexivity|].
  inversion H as [|? ? Hseg Hsegs]; subst.
  cbn [map concat]. rewrite foldl_app, (foldl_block seg st Hseg).
  rewrite IH by assumption. rewrite finalOf_block. reflexivity.
Qed.

Lemma isMarkerId_free i : isMarkerId i -> newline ∉ i.
Proof.
  intros (d & ds & -> & Hd) Hin.
  apply elem_of_cons in Hin. destruct Hin as [E|Hin]; [discriminate E|].
  unfold allDigits in Hd. rewrite Forall_forall in Hd.
  specialize (Hd newline Hin).
  discriminate Hd.
Qed.

Lemma blockLines_free seg :
  isMarkerId (id seg) ->
  Forall (fun l => newline ∉ l) (blockLines seg).
Proof.
  intros Hid. unfold blockLines. constructor.
  - js_norm. intros Hin. rewrite !elem_of_app in Hin.
    destruct Hin as [Hin|[Hin|Hin]].
    + apply list_elem_of_singleton in Hin. discriminate Hin.
    + revert Hin. apply isMarkerId_free, Hid.
    + apply list_elem_of_singleton in Hin. discriminate Hin.
  - apply Forall_app. split; [apply split_free|].
    constructor; [apply not_elem_of_nil|constructor].
Qed.

Lemma simpleFormat_parse segs :
  Forall wfBlock segs ->
  parseTxtTranslations (simpleFormat segs) = foldl setTrimmed ∅ segs.
Proof.
  intros H. rewrite parseTxtTranslations_finalOf.
  destruct segs as [|seg segs]; [reflexivity|].
  rewrite simpleFormat_lines, split_join.
  - apply (foldl_blocks _ (∅, None, []) H).
  - apply Forall_concat, Forall_forall. intros L HL.
    apply list_elem_of_In, in_map_iff in HL.
    destruct HL as (s & <- & Hs). apply list_elem_of_In in Hs.
    apply blockLines_free. rewrite Forall_forall in H.
    apply (H s Hs).
  - discriminate.
Qed.

Lemma foldl_setTrimmed_lookup segs : forall m seg,
  NoDup (map id segs) -> seg ∈ segs ->
  foldl setTrimmed m segs !! id seg = Some (trim (text seg)).
Proof.
  assert (Hkeep : forall segs m i, i ∉ map id segs ->
            foldl setTrimmed m segs !! i = m !! i).
  { clear. induction segs as [|s segs IH]; intros m i Hi; [reflexivity|].
    cbn [foldl]. rewrite IH.
    - unfold setTrimmed. apply lookup_insert_ne. intros E. apply Hi.
      rewrite <- E. left.
    - intros Hin. apply Hi. right. exact Hin. }
  induction segs as [|s segs IH]; intros m seg Hnd Hin.
  - apply elem_of_nil in Hin. destruct Hin.
  - cbn [map] in Hnd. apply NoDup_cons in Hnd. destruct Hnd as [Hs Hnd].
    cbn [foldl]. apply elem_of_cons in Hin. destruct Hin as [->|Hin].
    + rewrite Hkeep by exact Hs. unfold setTrimmed.
      apply lookup_insert_eq.
    + apply IH; assumption.
Qed.

Lemma foldl_setTrimmed_keys segs : forall m i v,
  foldl setTrimmed m segs !! i = Some v ->
  m !! i = Some v \/ exists seg, seg ∈ segs /\ id seg = i /\
                                  v = trim (text seg).
Proof.
  induction segs as [|s segs IH]; intros m i v H; [left; exact H|].
  cbn [foldl] in H. apply IH in H. destruct H as [H|(seg & Hin & E & Hv)].
  - unfold setTrimmed in H. destruct (decide (id s = i)) as [E|E].
    + rewrite E, lookup_insert_eq in H. injection H as <-.
      right. exists s. split; [left|auto].
    + rewrite lookup_insert_ne in H by exact E. left. exact H.
  - right. exists seg. split; [right; exact Hin|auto].
Qed.

Lemma to_uint_nonnil n : Nat.to_uint n <> Decimal.Nil.
Proof.
  intros H. pose proof (Unsigned.of_to n) as E. rewrite H in E.
  cbn in E. subst n. discriminate H.
Qed.

Lemma digitsOfUint_allDigits u : allDigits (digitsOfUint u).
Proof.
  induction u; cbn [digitsOfUint]; constructor; try assumption; reflexivity.
Qed.

Lemma isMarkerId_decimal n : isMarkerId (js "p" ++ decimal n).
Proof.
  unfold isMarkerId, decimal.
  pose proof (digitsOfUint_allDigits (Nat.to_uint n)) as Hd.
  pose proof (to_uint_nonnil n) as Hn.
  destruct (Nat.to_uint n) eqn:E; try congruence;
    cbn [digitsOfUint] in *; eexists _, _; (split; [reflexivity|exact Hd]).
Qed.

(** ** Document parts without a paragraph block; the segments of a part *)

Lemma breakOn_suffix p pre s :
  breakOn p (pre ++ s) = None -> breakOn p s = None.
Proof.
  induction pre as [|c pre IH]; intros H; [exact H|].
  cbn [app breakOn] in H.
  destruct (stripPrefix p (c :: pre ++ s)); [discriminate H|].
  destruct (breakOn p (pre ++ s)) as [[a r]|]; [discriminate H|].
  apply IH. reflexivity.
Qed.

Lemma breakOn_occurrence p pre post : breakOn p (pre ++ p ++ post) <> None.
Proof.
  intros H. apply breakOn_suffix in H.
  pose proof (stripPrefix_app p post) as E.
  destruct (p ++ post); cbn [breakOn] in H; rewrite E in H; discriminate H.
Qed.

Lemma findFirst_none
  (matchAt : jsstring -> option (jsstring * jsstring * list (nat * jsstring)))
  (s : jsstring) :
  (forall pre s', s = pre ++ s' -> matchAt s' = None) ->
  findFirst matchAt s = None.
Proof.
  induction s as [|c s IH]; intros H; cbn [findFirst].
  - rewrite (H [] [] eq_refl). reflexivity.
  - rewrite (H [] (c :: s) eq_refl). rewrite IH; [reflexivity|].
    intros pre s' ->. apply (H (c :: pre) s'). reflexivity.
Qed.

Lemma no_paragraph_match (xml : jsstring) :
  breakOn (js "<w:p") xml = None \/ breakOn (js "</w:p>") xml = None ->
  globalMatches PARAGRAPH_REGEX xml = [].
Proof.
  intros H.
  rewrite (globalMatches_Parse paragraphMatchAt PARAGRAPH_REGEX PARAGRAPH_at
             paragraphMatchAt_sound xml [] xml); [reflexivity|].
  constructor. apply findFirst_none. intros pre s' ->.
  unfold paragraphMatchAt.
  destruct (paragraphAt s') as [[[a c] rest]|] eqn:E; [|reflexivity].
  exfalso. apply paragraphAt_sound in E. destruct E as (-> & _).
  unfold paragraphElement in H. destruct H as [H|H]; revert H.
  - rewrite <- !app_assoc. apply breakOn_occurrence.
  - replace (pre ++ (js "<w:p" ++ a ++ js ">" ++ c ++ js "</w:p>") ++ rest)
      with ((pre ++ js "<w:p" ++ a ++ js ">" ++ c) ++ js "</w:p>" ++ rest)
      by (rewrite <- !app_assoc; reflexivity).
    apply breakOn_occurrence.
Qed.

Lemma segmentsOf_elem src ps : forall n seg,
  seg ∈ segmentsOf src n ps ->
  exists texts, texts ∈ ps /\ text seg = join [] texts /\
    runCount seg = length texts /\ trim (text seg) <> [] /\
    source seg = src /\ translation seg = None.
Proof.
  induction ps as [|texts ps IH]; intros n seg H; cbn [segmentsOf] in H.
  - apply elem_of_nil in H. destruct H.
  - destruct (Nat.eqb _ 0) eqn:E.
    + destruct (IH _ _ H) as (t & Ht & R). exists t. split; [right|]; auto.
    + apply elem_of_cons in H. destruct H as [->|H].
      * exists texts. cbn [text runCount source translation].
        split; [left|]. repeat split.
        intros Hnil. rewrite Hnil in E. discriminate E.
      * destruct (IH _ _ H) as (t & Ht & R). exists t.
        split; [right|]; auto.
Qed.

(** ** The loops over the package *)

Lemma digitsOfUint_inj u : forall v, digitsOfUint u = digitsOfUint v -> u = v.
Proof.
  induction u as [|u IH|u IH|u IH|u IH|u IH|u IH|u IH|u IH|u IH|u IH];
    intros v; destruct v; cbn [digitsOfUint]; intros H;
    try discriminate H; try reflexivity;
    injection H as H; f_equal; apply IH, H.
Qed.

Lemma decimal_inj n m : decimal n = decimal m -> n = m.
Proof.
  intros H. apply Unsigned.to_uint_inj, digitsOfUint_inj, H.
Qed.

Lemma paragraphCallback_total translations fullMatch paragraphContent :
  exists out,
    paragraphCallback translations fullMatch paragraphContent = Some out.
Proof.
  unfold paragraphCallback. rewrite originalTextOf_textRuns.
  cbn [mbind option_bind]. destruct (translations !! _); eauto.
Qed.

Lemma callEachOpt_total (cb : MatchResult -> option jsstring) ms :
  (forall m, exists out, cb m = Some out) ->
  exists rs, callEachOpt cb ms = Some rs /\ map fst rs = ms.
Proof.
  intros H. induction ms as [|m ms IH]; [exists []; auto|].
  destruct (H m) as [out Hout]. destruct IH as (rs & Hrs & Hfst).
  exists ((m, out) :: rs). cbn [callEachOpt]. rewrite Hout, Hrs.
  split; [reflexivity|]. cbn [map fst]. rewrite Hfst. reflexivity.
Qed.

Lemma replaceParagraphText_total xml translations :
  exists out, replaceParagraphText xml translations = Some out.
Proof.
  unfold replaceParagraphText, replaceOpt.
  destruct (callEachOpt_total
              (fun m => paragraphCallback translations (matched m)
                          (orEmpty (group 1 m)))
              (globalMatches PARAGRAPH_REGEX xml)) as (rs & -> & _).
  - intros m. apply paragraphCallback_total.
  - eexists. reflexivity.
Qed.

Lemma injectFiles_spec decode encode textMap paths : forall files,
  NoDup paths ->
  (forall p, p ∈ paths -> is_Some (files !! p)) ->
  exists files',
    injectFiles decode encode textMap paths files = Some (Returned files') /\
    forall p,
      (p ∉ paths -> files' !! p = files !! p) /\
      (p ∈ paths -> forall bytes, files !! p = Some bytes ->
         exists newXml,
           replaceParagraphText (decode bytes) textMap = Some newXml /\
           files' !! p = Some (encode newXml)).
Proof.
  induction paths as [|q paths IH]; intros files Hnd Hin.
  - exists files. split; [reflexivity|]. intros p. split; [reflexivity|].
    intros H. inversion H.
  - inversion Hnd as [|? ? Hq Hnd']; subst.
    destruct (Hin q) as [bytes Hb]; [left|].
    cbn [injectFiles]. unfold getXmlContent. rewrite Hb.
    destruct (replaceParagraphText_total (decode bytes) textMap) as [out Hout].
    rewrite Hout. cbn [mbind option_bind]. unfold setXmlContent.
    rewrite Hb.
    destruct (IH (<[q := encode out]> files) Hnd') as (files' & Hf & Hl).
    + intros p Hp. destruct (decide (p = q)) as [->|Hne].
      * rewrite lookup_insert_eq. eauto.
      * rewrite lookup_insert_ne by congruence. apply Hin. right. exact Hp.
    + exists files'. split; [exact Hf|]. intros p. split.
      * intros Hp. rewrite not_elem_of_cons in Hp. destruct Hp as [Hne Hp].
        rewrite (proj1 (Hl p) Hp). apply lookup_insert_ne. congruence.
      * intros Hp bytes' Hb'. apply elem_of_cons in Hp.
        destruct (decide (p = q)) as [->|Hne].
        -- rewrite (proj1 (Hl q) Hq), lookup_insert_eq.
           rewrite Hb in Hb'. injection Hb' as <-. eauto.
        -- destruct Hp as [->|Hp]; [contradiction|].
           apply (proj2 (Hl p) Hp). rewrite lookup_insert_ne by congruence.
           exact Hb'.
Qed.

Lemma elem_of_filter_bool (f : jsstring -> bool) l p :
  p ∈ List.filter f l <-> p ∈ l /\ f p = true.
Proof. rewrite !list_elem_of_In. apply filter_In. Qed.

Lemma extractFiles_spec decode paths : forall files allSegments nextId,
  (forall p, p ∈ paths -> is_Some (files !! p)) ->
  exists segs,
    extractFiles decode files paths allSegments nextId
      = Some (Returned (allSegments ++ segs,
                        advance nextId (length segs))) /\
    forall i seg, segs !! i = Some seg ->
      id seg = js "p" ++ numberToString (advance nextId i) /\
      source seg ∈ paths /\
      trim (text seg) <> [] /\ 1 <= runCount seg.
Proof.
  induction paths as [|q paths IH]; intros files allSegments nextId Hin.
  - exists []. rewrite app_nil_r. split; [reflexivity|].
    intros i seg H. discriminate H.
  - destruct (Hin q) as [bytes Hb]; [left|].
    cbn [extractFiles]. unfold getXmlContent. rewrite Hb.
    rewrite extractParagraphSegments_eq. cbn zeta. cbn [mbind option_bind].
    set (new := segmentsOf q nextId _).
    destruct (IH files (allSegments ++ new) (advance nextId (length new)))
      as (segs & Hs & Hid).
    { intros p Hp. apply Hin. right. exact Hp. }
    exists (new ++ segs). rewrite Hs, length_app, <- app_assoc, advance_add.
    split; [reflexivity|].
    intros i seg Hi. apply lookup_app_Some in Hi.
    destruct Hi as [Hi|[Hlen Hi]].
    + split; [exact (segmentsOf_id _ _ _ _ _ Hi)|].
      apply list_elem_of_lookup_2 in Hi.
      destruct (segmentsOf_elem _ _ _ _ Hi)
        as (texts & _ & Ht & Hr & Hne & Hsrc & _).
      split; [rewrite Hsrc; left|]. split; [exact Hne|].
      rewrite Hr. destruct texts; [|cbn; lia].
      exfalso. apply Hne. rewrite Ht. reflexivity.
    + destruct (Hid _ _ Hi) as (H1 & H2 & H3).
      split; [|split; [right; exact H2|exact H3]].
      rewrite H1, advance_add. do 3 f_equal. lia.
Qed.

Lemma ids_in_order (segs : list ParagraphSegment) :
  (N.of_nat (length segs) <= 2 ^ 53)%N ->
  (forall i seg, segs !! i = Some seg ->
     id seg = js "p" ++ numberToString (advance 0 i)) ->
  (forall i seg, segs !! i = Some seg -> id seg = js "p" ++ decimal i) /\
  NoDup (map id segs).
Proof.
  intros Hb Hid.
  assert (forall i seg, segs !! i = Some seg -> id seg = js "p" ++ decimal i)
    as Hdec.
  { intros i seg Hi. pose proof (lookup_lt_Some _ _ _ Hi) as Hlt.
    rewrite (Hid _ _ Hi), (advance_exact _ 0) by lia.
    rewrite numberToString_exact by lia. reflexivity. }
  split; [exact Hdec|].
  assert (map id segs
          = (fun i => js "p" ++ decimal i) <$> seq 0 (length segs)) as ->.
  { apply list_eq. intros i. rewrite !list_lookup_fmap.
    destruct (segs !! i) as [seg|] eqn:Hi;
      cbn [fmap option_fmap option_map].
    - rewrite (lookup_seq_lt _ _ i) by (eapply lookup_lt_Some; exact Hi).
      cbn. f_equal. apply (Hdec _ _ Hi).
    - rewrite lookup_seq_ge by (apply lookup_ge_None; exact Hi).
      reflexivity. }
  apply NoDup_fmap_2; [|apply NoDup_seq].
  intros n m H. apply app_inv_head in H. apply decimal_inj, H.
Qed.

(** ** The mapping from original text to translation *)

Lemma textMapStep_lookup tr tm i orig k v :
  textMapStep tr tm i orig !! k = Some v ->
  tm !! k = Some v \/ (orig = k /\ tr !! i = Some v /\ trim v <> []).
Proof.
  unfold textMapStep. destruct (tr !! i) as [t|] eqn:E; [|auto].
  destruct (truthy t && Nat.ltb 0 (length (trim t))) eqn:C; [|auto].
  destruct (decide (orig = k)) as [->|Hne].
  - rewrite lookup_insert_eq. intros [= <-]. right.
    split; [reflexivity|split; [reflexivity|]].
    apply andb_prop in C. destruct C as [_ C]. apply Nat.ltb_lt in C.
    intros Hnil. rewrite Hnil in C. cbn in C. lia.
  - rewrite lookup_insert_ne by exact Hne. auto.
Qed.

Lemma textMapOfApp_entries (originalSegments : list ParagraphSegment)
  (idToTranslation : gmap jsstring jsstring) :
  forall key translation,
    textMapOfApp originalSegments idToTranslation !! key = Some translation ->
    trim translation <> [] /\
    exists segment, segment ∈ originalSegments /\ text segment = key /\
      idToTranslation !! id segment = Some translation.
Proof.
  unfold textMapOfApp.
  assert (H : forall l tm k v,
            foldl (fun textMap segment =>
                     textMapStep idToTranslation textMap (id segment)
                       (text segment)) tm l !! k = Some v ->
            tm !! k = Some v \/
            (trim v <> [] /\ exists s, s ∈ l /\ text s = k /\
               idToTranslation !! id s = Some v)).
  { induction l as [|s l IH]; intros tm k v Hl; [left; exact Hl|].
    cbn [foldl] in Hl. apply IH in Hl.
    destruct Hl as [Hl|(Hv & s' & Hin & R)].
    - apply textMapStep_lookup in Hl. destruct Hl as [Hl|(E1 & E2 & E3)].
      + left. exact Hl.
      + right. split; [exact E3|]. exists s. split; [left|auto].
    - right. split; [exact Hv|]. exists s'. split; [right; exact Hin|auto]. }
  intros k v Hk. apply H in Hk. destruct Hk as [Hk|Hk]; [|exact Hk].
  rewrite lookup_empty in Hk. discriminate Hk.
Qed.

Lemma mapSet_fresh m k v :
  k ∉ map fst m -> mapSet m k v = m ++ [(k, v)].
Proof.
  induction m as [|[k' v'] m IH]; intros H; [reflexivity|].
  cbn [mapSet]. rewrite decide_False.
  - cbn [app]. f_equal. apply IH. intros Hin. apply H. right. exact Hin.
  - intros E. apply H. rewrite E. left.
Qed.

Lemma idToOriginal_distinct segments :
  NoDup (map id segments) ->
  idToOriginal segments = map (fun s => (id s, text s)) segments.
Proof.
  unfold idToOriginal.
  assert (H : forall l acc,
            NoDup (map fst acc ++ map id l) ->
            foldl (fun m segment => mapSet m (id segment) (text segment))
              acc l = acc ++ map (fun s => (id s, text s)) l).
  { induction l as [|s l IH]; intros acc Hnd.
    - cbn. rewrite app_nil_r. reflexivity.
    - cbn [foldl map]. cbn [map] in Hnd.
      apply NoDup_app in Hnd. destruct Hnd as (H1 & H2 & H3).
      rewrite mapSet_fresh by (intros Hin; apply (H2 _ Hin); left).
      rewrite IH.
      + rewrite <- app_assoc. reflexivity.
      + rewrite map_app. cbn [map fst]. rewrite <- app_assoc. cbn [app].
        apply NoDup_app. split; [exact H1|]. split; [exact H2|exact H3]. }
  intros Hnd. apply (H segments []). exact Hnd.
Qed.

Lemma textMapStep_empty tm i orig : textMapStep ∅ tm i orig = tm.
Proof. unfold textMapStep. rewrite lookup_empty. reflexivity. Qed.

Lemma NoDup_map_eq {A B : Type} (f : A -> B) (l : list A) x y :
  NoDup (map f l) -> x ∈ l -> y ∈ l -> f x = f y -> x = y.
Proof.
  induction l as [|a l IH]; intros Hnd Hx Hy E.
  - apply elem_of_nil in Hx. destruct Hx.
  - cbn [map] in Hnd. apply NoDup_cons in Hnd. destruct Hnd as [Ha Hnd].
    apply elem_of_cons in Hx. apply elem_of_cons in Hy.
    destruct Hx as [->|Hx], Hy as [->|Hy].
    + reflexivity.
    + exfalso. apply Ha. rewrite E.
      apply list_elem_of_In, in_map, list_elem_of_In, Hy.
    + exfalso. apply Ha. rewrite <- E.
      apply list_elem_of_In, in_map, list_elem_of_In, Hx.
    + apply IH; assumption.
Qed.

Lemma sublist_map {A B : Type} (f : A -> B) (l1 l2 : list A) :
  sublist l1 l2 -> sublist (map f l1) (map f l2).
Proof. induction 1; cbn [map]; constructor; assumption. Qed.

Lemma filteredSegments_sublist all startParagraph endParagraph :
  sublist (filteredSegments all startParagraph endParagraph) all.
Proof.
  unfold filteredSegments. etransitivity; [apply sublist_take|].
  apply sublist_drop.
Qed.

Section Range.
Variable all : list ParagraphSegment.
Variable sub : list ParagraphSegment.
Hypothesis sub_all : sublist sub all.
Hypothesis all_distinct : NoDup (map id all).
Hypothesis all_wf : Forall wfBlock all.
Hypothesis all_text : Forall (fun s => trim (text s) <> []) all.

Local Abbreviation tr := (parseTxtTranslations (simpleFormat sub)).

Lemma range_parse : tr = foldl setTrimmed ∅ sub.
Proof.
  apply simpleFormat_parse. rewrite Forall_forall in *.
  intros s Hs. apply all_wf. apply (elem_of_sublist _ _ _ Hs sub_all).
Qed.

Lemma range_lookup_in s : s ∈ sub -> tr !! id s = Some (trim (text s)).
Proof.
  intros Hs. rewrite range_parse. apply foldl_setTrimmed_lookup; [|exact Hs].
  apply (sublist_NoDup _ (map id all) all_distinct).
  apply sublist_map, sub_all.
Qed.

Lemma range_lookup_all s v :
  s ∈ all -> tr !! id s = Some v -> s ∈ sub /\ v = trim (text s).
Proof.
  intros Hs Hv. rewrite range_parse in Hv.
  apply foldl_setTrimmed_keys in Hv.
  destruct Hv as [Hv|(s' & Hs' & E & Hv)].
  - rewrite lookup_empty in Hv. discriminate Hv.
  - assert (s' = s) as ->.
    { apply (NoDup_map_eq id all); [exact all_distinct| |exact Hs|exact E].
      apply (elem_of_sublist _ _ _ Hs' sub_all). }
    split; assumption.
Qed.

Lemma range_step_hit tm s :
  s ∈ sub ->
  textMapStep tr tm (id s) (text s) = <[text s := trim (text s)]> tm.
Proof.
  intros Hs. unfold textMapStep. rewrite (range_lookup_in s Hs).
  rewrite trim_idemp.
  assert (Hne : trim (text s) <> []).
  { rewrite Forall_forall in all_text. apply all_text.
    apply (elem_of_sublist _ _ _ Hs sub_all). }
  unfold truthy. destruct (trim (text s)); [congruence|reflexivity].
Qed.

Lemma range_step_keep tm s k :
  s ∈ all -> tm !! k = Some (trim k) ->
  textMapStep tr tm (id s) (text s) !! k = Some (trim k).
Proof.
  intros Hs Hk. unfold textMapStep.
  destruct (tr !! id s) as [v|] eqn:E; [|exact Hk].
  destruct (truthy v && _); [|exact Hk].
  destruct (range_lookup_all s v Hs E) as [_ ->].
  destruct (decide (text s = k)) as [->|Hne].
  - apply lookup_insert_eq.
  - rewrite lookup_insert_ne by exact Hne. exact Hk.
Qed.

Lemma range_fold_keep l : forall tm k,
  (forall s, s ∈ l -> s ∈ all) -> tm !! k = Some (trim k) ->
  foldl (fun textMap segment =>
           textMapStep tr textMap (id segment) (text segment)) tm l !! k
  = Some (trim k).
Proof.
  induction l as [|x l IH]; intros tm k Hl Hk; [exact Hk|].
  cbn [foldl]. apply IH.
  - intros s Hs. apply Hl. right. exact Hs.
  - apply range_step_keep; [apply Hl; left|exact Hk].
Qed.

Lemma range_fold_hit l : forall tm s,
  (forall s, s ∈ l -> s ∈ all) -> s ∈ l -> s ∈ sub ->
  foldl (fun textMap segment =>
           textMapStep tr textMap (id segment) (text segment)) tm l
    !! text s = Some (trim (text s)).
Proof.
  induction l as [|x l IH]; intros tm s Hl Hs Hsub.
  - apply elem_of_nil in Hs. destruct Hs.
  - cbn [foldl]. apply elem_of_cons in Hs. destruct Hs as [->|Hs].
    + apply range_fold_keep.
      * intros s Hs. apply Hl. right. exact Hs.
      * rewrite (range_step_hit tm x Hsub). apply lookup_insert_eq.
    + apply IH; [|exact Hs|exact Hsub].
      intros s' Hs'. apply Hl. right. exact Hs'.
Qed.

Lemma range_textMap :
  (forall s, s ∈ sub ->
     textMapOfApp all tr !! text s = Some (trim (text s))) /\
  (forall key translation,
     textMapOfApp all tr !! key = Some translation ->
     translation = trim key /\ exists s, s ∈ sub /\ text s = key).
Proof.
  split.
  - intros s Hs. apply range_fold_hit; [auto| |exact Hs].
    apply (elem_of_sublist _ _ _ Hs sub_all).
  - intros k v Hk. apply textMapOfApp_entries in Hk.
    destruct Hk as (_ & s & Hs & <- & Hv).
    destruct (range_lookup_all s v Hs Hv) as [Hsub ->].
    split; [reflexivity|]. exists s. split; [exact Hsub|reflexivity].
Qed.
End Range.

(** ** The opening tag of line 110, and the pieces of a part *)

Lemma openTag_kept a c :
  noGt a -> startsBlank a ->
  orEmpty (matchFirst OPEN_TAG_REGEX (paragraphElement a c) ≫= group 1) = a.
Proof.
  intros Ha Hb. unfold matchFirst.
  rewrite (searchFrom_findFirst openTagMatchAt OPEN_TAG_REGEX OPEN_TAG_at).
  assert (E : openTagAt (paragraphElement a c) =
              Some (match a with [] => None | _ => Some a end,
                    c ++ js "</w:p>")).
  { unfold openTagAt, paragraphElement. rewrite stripPrefix_app.
    cbn [mbind option_bind]. destruct a as [|d a]; [reflexivity|].
    cbn [app]. cbn in Hb. rewrite Hb.
    inversion Ha as [|? ? _ Ha']; subst.
    rewrite (span_all notGt a _ Ha'). js_norm. cbn [app span notGt].
    change (negb (62 =? 62)%N) with false. cbv iota.
    cbn [fst snd]. rewrite app_nil_r. reflexivity. }
  rewrite (findFirst_head openTagMatchAt _
             (js "<w:p" ++ a ++ js ">") (c ++ js "</w:p>")
             (match a with [] => [] | _ => [(1, a)] end)).
  - cbn [mbind option_bind]. unfold group. cbn [groups].
    destruct a; reflexivity.
  - unfold openTagMatchAt. rewrite E. cbn [mbind option_bind].
    destruct a; reflexivity.
Qed.

(** An opening tag ends at the first [>]: what stands between [<w:p] and
    it is determined by the text. *)
Lemma openTag_unique (a b x y : jsstring) :
  noGt a -> noGt b ->
  js "<w:p" ++ a ++ js ">" ++ x = js "<w:p" ++ b ++ js ">" ++ y ->
  a = b /\ x = y.
Proof.
  intros Ha Hb H. apply app_inv_head in H. revert b Hb H.
  induction Ha as [|d a Hd Ha IH]; intros b Hb H.
  - destruct Hb as [|e b He Hb]; cbn in H.
    + injection H as <-. split; reflexivity.
    + injection H as <- _. discriminate He.
  - destruct Hb as [|e b He Hb]; cbn in H.
    + injection H as -> _. discriminate Hd.
    + injection H as <- H. destruct (IH b Hb H) as [<- <-].
      split; reflexivity.
Qed.

Lemma openTag_startsBlank fullMatch :
  startsBlank (orEmpty (matchFirst OPEN_TAG_REGEX fullMatch ≫= group 1)).
Proof.
  pose proof (openTag_attributes_wf fullMatch) as H.
  destruct (matchFirst OPEN_TAG_REGEX fullMatch ≫= group 1) as [[|d a]|];
    cbn [orEmpty startsBlank wfAttrs] in *; [exact I|apply H|exact I].
Qed.

Lemma assemble_pieces (l : list (jsstring * jsstring * list (nat * jsstring)))
  reps tail :
  length reps = length l ->
  assemble l reps tail =
  pieces (zip_with (fun e rep => (e.1.1, rep)) l reps) tail.
Proof.
  revert reps. induction l as [|[[pre mt] caps] l IH]; intros reps H.
  - destruct reps; [reflexivity|discriminate H].
  - destruct reps as [|rep reps]; [discriminate H|].
    cbn [assemble zip_with]. unfold pieces in *. cbn [map concat fst snd].
    rewrite IH by (cbn in H; lia). rewrite <- !app_assoc. reflexivity.
Qed.

Lemma callEachOpt_mapM (cb : MatchResult -> option jsstring) ms rs :
  callEachOpt cb ms = Some rs ->
  map fst rs = ms /\ mapM cb ms = Some (map snd rs).
Proof.
  revert rs. induction ms as [|m ms IH]; intros rs; cbn [callEachOpt].
  - intros [= <-]. split; reflexivity.
  - destruct (cb m) as [rep|] eqn:E; [|discriminate].
    cbn [mbind option_bind]. destruct (callEachOpt cb ms) as [rs'|];
      [|discriminate].
    cbn [mbind option_bind]. intros [= <-].
    destruct (IH rs' eq_refl) as [H1 H2]. cbn [map fst snd]. split.
    + rewrite H1. reflexivity.
    + cbn [mapM]. rewrite E. cbn [mbind option_bind]. rewrite H2.
      reflexivity.
Qed.

Lemma results_matched off l :
  map matched (results off l) = map (fun e => e.1.2) l.
Proof.
  revert off. induction l as [|[[pre mt] caps] l IH]; intros off;
    [reflexivity|].
  cbn [results map matched fst snd]. rewrite IH. reflexivity.
Qed.

(** ** The length of an escaped text *)

Lemma escapeChar_length d :
  1 <= length (escapeChar d) /\ (length (escapeChar d) = 1 -> plain d).
Proof.
  unfold escapeChar, dquote, plain.
  special_cases d; cbn [N.eqb Pos.eqb]; js_norm; cbn [length];
    (split; [lia|]); try (intros H; discriminate H).
  intros _. auto.
Qed.

Lemma escapeChar_plain d : plain d -> escapeChar d = [d].
Proof.
  intros (H1 & H2 & H3 & H4 & H5). unfold escapeChar, dquote.
  rewrite (proj2 (N.eqb_neq d 38) H1), (proj2 (N.eqb_neq d 60) H2),
    (proj2 (N.eqb_neq d 62) H3), (proj2 (N.eqb_neq d 34) H4),
    (proj2 (N.eqb_neq d 39) H5).
  reflexivity.
Qed.

Lemma flat_map_escapeChar_length t :
  length t <= length (flat_map escapeChar t).
Proof.
  induction t as [|d t IH]; cbn [flat_map length]; [lia|].
  rewrite length_app. destruct (escapeChar_length d) as [H _]. lia.
Qed.

(** ** A literal that does not occur *)

Lemma replaceString_absent (w rep t : jsstring) :
  38%N ∉ t -> replaceString (str (38%N :: w)) t rep = t.
Proof.
  intros Ht.
  assert (Hc : forall x : jsstring, concat (map (fun d => [d]) x) = x).
  { induction x as [|d x IH]; [reflexivity|]. cbn. rewrite IH. reflexivity. }
  rewrite <- (Hc t) at 1.
  rewrite (replaceString_tokens (38%N :: w)); [|discriminate|].
  - rewrite map_map. rewrite <- (Hc t) at 2. f_equal.
    apply map_ext_in. intros d Hd.
    rewrite decide_False; [reflexivity|].
    intros [= -> _]. apply Ht, list_elem_of_In, Hd.
  - induction t as [|d t IH]; [exact I|]. cbn [map goodTokens]. split.
    + right. cbn [noOcc app stripPrefix]. split; [|exact I].
      destruct (N.eqb_spec d 38) as [->|_]; [|reflexivity].
      exfalso. apply Ht. left.
    + apply IH. intros H. apply Ht. right. exact H.
Qed.

(** ** The paths of a package, for the examples *)

Lemma keys_listed (files : gmap jsstring (list N)) (path : jsstring) :
  path ∈ (map_to_list files).*1 <-> is_Some (files !! path).
Proof.
  rewrite list_elem_of_fmap. split.
  - intros ([p bytes] & -> & H). apply elem_of_map_to_list in H.
    exists bytes. exact H.
  - intros [bytes H]. exists (path, bytes). split; [reflexivity|].
    apply elem_of_map_to_list, H.
Qed.

(** ** Completeness of the text mapping *)

Lemma textMapStep_keeps tr tm i orig k :
  is_Some (tm !! k) -> is_Some (textMapStep tr tm i orig !! k).
Proof.
  intros H. unfold textMapStep. destruct (tr !! i) as [t|]; [|exact H].
  destruct (truthy t && _); [|exact H].
  destruct (decide (orig = k)) as [->|Hne].
  - rewrite lookup_insert_eq. eauto.
  - rewrite lookup_insert_ne by exact Hne. exact H.
Qed.

Lemma textMapStep_sets tr tm i orig v :
  tr !! i = Some v -> trim v <> [] ->
  textMapStep tr tm i orig = <[orig := v]> tm.
Proof.
  intros E Hv. unfold textMapStep. rewrite E.
  assert (Ht : truthy v = true).
  { unfold truthy. destruct v; [|reflexivity]. exfalso. apply Hv.
    reflexivity. }
  rewrite Ht. cbn [andb].
  destruct (trim v); [congruence|reflexivity].
Qed.

Lemma textMapOfApp_complete segs tr : forall tm seg v,
  seg ∈ segs -> tr !! id seg = Some v -> trim v <> [] ->
  is_Some (foldl (fun textMap segment =>
                    textMapStep tr textMap (id segment) (text segment))
             tm segs !! text seg).
Proof.
  assert (Hkeep : forall l tm k,
            is_Some (tm !! k) ->
            is_Some (foldl (fun textMap segment =>
                              textMapStep tr textMap (id segment)
                                (text segment)) tm l !! k)).
  { induction l as [|x l IH]; intros tm k H; [exact H|].
    cbn [foldl]. apply IH, textMapStep_keeps, H. }
  induction segs as [|x segs IH]; intros tm seg v Hin E Hv.
  - apply elem_of_nil in Hin. destruct Hin.
  - cbn [foldl]. apply elem_of_cons in Hin. destruct Hin as [->|Hin].
    + apply Hkeep. rewrite (textMapStep_sets _ _ _ _ _ E Hv).
      rewrite lookup_insert_eq. eauto.
    + apply (IH _ _ _ Hin E Hv).
Qed.

(** ** A text without marker lines *)

Lemma foldl_no_marker lines : forall st,
  Forall (fun line => markerId line = None) lines ->
  st.1.2 = None -> foldl parseLine st lines = st.
Proof.
  induction lines as [|line lines IH]; intros st H Hc; [reflexivity|].
  inversion H as [|? ? Hl Hls]; subst. cbn [foldl].
  rewrite (parseLine_text st line Hl), Hc. apply IH; assumption.
Qed.

(** ** The paragraph blocks of a rewritten part *)

Lemma span_notGt_occ v1 U :
  exists a0 z1, span notGt (v1 ++ 62%N :: U) = (a0, 62%N :: z1 ++ U).
Proof.
  induction v1 as [|d v1 (a0 & z1 & IH)].
  - exists [], []. reflexivity.
  - cbn [app span]. destruct (notGt d) eqn:E.
    + rewrite IH. eauto.
    + apply notGt_false in E. subst d. exists [], (v1 ++ [62%N]).
      rewrite <- app_assoc. reflexivity.
Qed.

Lemma paragraphAt_opens p a c rest :
  p <> [] ->
  isSome (paragraphAt (p ++ paragraphElement a c ++ rest))
  = opens (p ++ paragraphElement a c ++ rest).
Proof.
  intros Hp. unfold paragraphAt, opens.
  destruct (stripPrefix (js "<w:p") _) as [v|] eqn:E; [|reflexivity].
  cbn [mbind option_bind].
  destruct (match v with [] => false | c0 :: _ => isWordChar c0 end);
    [reflexivity|]. cbn [negb].
  apply stripPrefix_Some in E.
  assert (Hv : exists v1, v = v1 ++ 62%N :: c ++ js "</w:p>" ++ rest).
  { exists (drop 4 (p ++ js "<w:p" ++ a)).
    apply (f_equal (drop 4)) in E. cbn [drop app] in E.
    change (drop 4 (js "<w:p" ++ v)) with v in E. rewrite <- E.
    unfold paragraphElement.
    replace (p ++ (js "<w:p" ++ a ++ js ">" ++ c ++ js "</w:p>") ++ rest)
      with ((p ++ js "<w:p" ++ a) ++ 62%N :: c ++ js "</w:p>" ++ rest)
      by (rewrite <- !app_assoc; reflexivity).
    rewrite drop_app_le; [reflexivity|].
    rewrite !length_app. destruct p; [congruence|]. cbn. lia. }
  destruct Hv as [v1 ->].
  destruct (span_notGt_occ v1 (c ++ js "</w:p>" ++ rest)) as (a0 & z1 & ->).
  destruct (breakOn (js "</w:p>") (z1 ++ c ++ js "</w:p>" ++ rest))
    as [[c0 r0]|] eqn:Eb; [reflexivity|].
  exfalso. revert Eb. rewrite app_assoc. apply breakOn_occurrence.
Qed.

Lemma opens_context p x y :
  p <> [] -> opens (p ++ js "<w:p" ++ x) = opens (p ++ js "<w:p" ++ y).
Proof.
  intros Hp. unfold opens. js_norm.
  destruct p as [|c1 [|c2 [|c3 [|c4 [|c5 p]]]]]; [congruence|..];
    cbn [app stripPrefix];
    (destruct (c1 =? 60)%N; [|reflexivity]);
    try (destruct (c2 =? 119)%N; [|reflexivity]);
    try (destruct (c3 =? 58)%N; [|reflexivity]);
    try (destruct (c4 =? 112)%N; [|reflexivity]);
    reflexivity.
Qed.

Lemma paragraphAt_context p a c rest A c' rest' :
  p <> [] ->
  paragraphAt (p ++ paragraphElement a c ++ rest) = None ->
  paragraphAt (p ++ paragraphElement A c' ++ rest') = None.
Proof.
  intros Hp H. apply isSome_None. apply isSome_None in H.
  rewrite paragraphAt_opens in * by exact Hp.
  etransitivity; [|exact H]. unfold paragraphElement.
  rewrite <- !app_assoc. apply opens_context, Hp.
Qed.

Lemma findFirst_block pre a c rest A c' rest' caps :
  findFirst paragraphMatchAt (pre ++ paragraphElement a c ++ rest) =
    Some (pre, paragraphElement a c, rest, caps) ->
  paragraphAt (paragraphElement A c' ++ rest') = Some (A, c', rest') ->
  findFirst paragraphMatchAt (pre ++ paragraphElement A c' ++ rest') =
    Some (pre, paragraphElement A c', rest', [(1, c')]).
Proof.
  intros E Hat. induction pre as [|d pre IH].
  - apply findFirst_head. unfold paragraphMatchAt. cbn [app]. rewrite Hat.
    reflexivity.
  - cbn [app findFirst] in *.
    destruct (paragraphMatchAt (d :: pre ++ paragraphElement a c ++ rest))
      as [[[? ?] ?]|] eqn:E1; [discriminate E|].
    assert (paragraphMatchAt (d :: pre ++ paragraphElement A c' ++ rest')
            = None) as ->.
    { unfold paragraphMatchAt in *.
      destruct (paragraphAt (d :: pre ++ paragraphElement a c ++ rest))
        as [[[? ?] ?]|] eqn:E2; [discriminate E1|].
      pose proof (paragraphAt_context (d :: pre) a c rest A c' rest') as Hc.
      cbn [app] in Hc. rewrite Hc; [reflexivity|discriminate|exact E2]. }
    destruct (findFirst paragraphMatchAt (pre ++ paragraphElement a c ++ rest))
      as [[[[pre0 mt0] rest0] caps0]|]; [|discriminate E].
    injection E as -> -> -> ->. rewrite IH by reflexivity. reflexivity.
Qed.

Lemma paragraphAt_intro a c rest :
  noGt a -> headOK a -> noCloseIn c (js "</w:p>" ++ rest) ->
  paragraphAt (paragraphElement a c ++ rest) = Some (a, c, rest).
Proof.
  intros Ha Hh Hc. unfold paragraphAt, paragraphElement.
  rewrite <- !app_assoc, stripPrefix_app. cbn [mbind option_bind].
  replace (match a ++ js ">" ++ c ++ js "</w:p>" ++ rest with
           | [] => false
           | c0 :: _ => isWordChar c0
           end) with false.
  2:{ destruct a as [|d a]; [reflexivity|]. cbn [app]. symmetry. exact Hh. }
  rewrite (span_all notGt _ _ Ha).
  change (js ">" ++ ?u) with (62%N :: u).
  rewrite span_stop by reflexivity. cbn [fst snd]. rewrite app_nil_r.
  rewrite (breakOn_skip c _ Hc).
  pose proof (stripPrefix_app (js "</w:p>") rest) as Hs.
  assert (breakOn (js "</w:p>") (js "</w:p>" ++ rest) = Some ([], rest)) as ->.
  { js_norm. cbn [app breakOn stripPrefix N.eqb Pos.eqb]. reflexivity. }
  cbn [mbind option_bind]. rewrite app_nil_r. reflexivity.
Qed.

Lemma paragraphAt_facts a c rest :
  paragraphAt (paragraphElement a c ++ rest) = Some (a, c, rest) ->
  noGt a /\ headOK a /\ noCloseIn c (js "</w:p>" ++ rest).
Proof.
  intros H. destruct (paragraphAt_sound _ _ _ _ H) as (_ & Ha & Hb).
  split; [exact Ha|]. split.
  - revert H. unfold paragraphAt, paragraphElement.
    rewrite <- !app_assoc, stripPrefix_app. cbn [mbind option_bind].
    destruct a as [|d a]; [intros _; exact I|]. cbn [app headOK].
    destruct (isWordChar d); [discriminate|reflexivity].
  - rewrite <- (app_nil_r c) in Hb at 2.
    apply breakOn_inv in Hb. apply Hb.
Qed.

Lemma wfAttrs_head (a : option jsstring) :
  wfAttrs a -> noGt (orEmpty a) /\ headOK (orEmpty a).
Proof.
  destruct a as [[|d a']|]; cbn [orEmpty wfAttrs headOK];
    [contradiction| |split; [constructor|exact I]].
  intros [Hd Ha]. split; [|apply whiteSpace_not_word, Hd].
  constructor; [apply whiteSpace_notGt, Hd|exact Ha].
Qed.

Lemma newTexts_join translation rl :
  join [] (newTexts translation true rl) =
  match rl with [] => [] | _ :: _ => escapeXml translation end.
Proof.
  destruct rl as [|e rl]; [reflexivity|]. cbn [newTexts].
  apply join_first_only.
Qed.

(** What the callback writes for a paragraph block is a paragraph block
    wherever it stands, and its key is [newKey]. *)
Lemma block_written translations a c rest out :
  paragraphAt (paragraphElement a c ++ rest) = Some (a, c, rest) ->
  paragraphCallback translations (paragraphElement a c) c = Some out ->
  exists A c',
    out = paragraphElement A c' /\
    (forall rest', paragraphAt (out ++ rest') = Some (A, c', rest')) /\
    join [] (map snd (textRuns c')) = newKey translations (textRuns c).
Proof.
  intros Hat Hout.
  destruct (paragraphAt_facts _ _ _ Hat) as (Ha & Hh & Hc).
  destruct (RunParse_total c) as (rl & tail & HP).
  pose proof (RunParse_textRuns _ _ _ HP) as Hruns.
  assert (Hkey : join [] (map snd (textRuns c))
                 = join [] (map (fun e => e.2) rl)).
  { rewrite Hruns, map_map. reflexivity. }
  unfold newKey. rewrite Hkey.
  destruct (translations !! join [] (map (fun e => e.2) rl))
    as [translation|] eqn:El.
  - rewrite (paragraphCallback_hit _ _ _ _ _ _ HP El) in Hout.
    injection Hout as <-.
    set (A := matchFirst OPEN_TAG_REGEX (paragraphElement a c) ≫= group 1).
    set (c' := rebuild rl (newTexts translation true rl) tail).
    destruct (wfAttrs_head A (openTag_attributes_wf _)) as [HA1 HA2].
    destruct (newTexts_noLt translation rl) as [Hn Hl].
    pose proof (RunParse_rebuild _ _ _ _ HP Hn Hl) as HP'. fold c' in HP'.
    exists (orEmpty A), c'. split; [reflexivity|]. split.
    + intros rest'. apply paragraphAt_intro; [exact HA1|exact HA2|].
      rewrite (RunParse_rebuild_self _ _ _ HP) in Hc.
      revert Hc. unfold c'. js_norm. cbn [app].
      destruct HP as [_ Hwf].
      apply noCloseIn_rebuild; try assumption. apply length_map.
    + rewrite (RunParse_textRuns _ _ _ HP'), map_map. cbn [snd].
      rewrite (retext_texts _ _ Hl), newTexts_join.
      rewrite Hruns. destruct rl; reflexivity.
  - rewrite paragraphCallback_miss in Hout by (rewrite Hkey; exact El).
    injection Hout as <-. exists a, c. split; [reflexivity|]. split.
    + intros rest'. apply paragraphAt_intro; [exact Ha|exact Hh|].
      revert Hc. js_norm. cbn [app]. apply noCloseIn_before_lt.
    + exact Hkey.
Qed.

Lemma Parse_written translations xml l tail :
  Parse paragraphMatchAt xml l tail ->
  exists l',
    Forall2 (writtenEntry translations) l l' /\
    Parse paragraphMatchAt (assemble l (map (fun e => e.1.2) l') tail)
      l' tail.
Proof.
  induction 1 as [s E|s pre mt rest caps l tail E H (l' & Hrel & HP')].
  - exists []. split; [constructor|]. constructor. exact E.
  - destruct (findFirst_sound _ paragraphMatchAt_sound _ _ _ _ _ E)
      as (-> & _ & Hm).
    unfold paragraphMatchAt in Hm.
    destruct (paragraphAt (mt ++ rest)) as [[[a c] rest0]|] eqn:Hat;
      [|discriminate Hm].
    cbn [mbind option_bind] in Hm. injection Hm as <- -> <-.
    destruct (paragraphCallback_total translations (paragraphElement a c) c)
      as [out Hout].
    destruct (block_written translations a c rest out Hat Hout)
      as (A & c' & -> & Hat' & Hk).
    exists ((pre, paragraphElement A c', [(1, c')]) :: l'). split.
    + constructor; [|exact Hrel]. split; [reflexivity|].
      cbn [fst snd getCapture Nat.eqb orEmpty]. split; [exact Hout|].
      exists c'. split; [reflexivity|exact Hk].
    + cbn [map assemble fst snd]. econstructor; [|exact HP'].
      apply (findFirst_block pre a c rest A c' _ [(1, c)] E). apply Hat'.
Qed.

Lemma results_written translations l l' :
  Forall2 (writtenEntry translations) l l' ->
  forall off off',
    callEachOpt
      (fun m => paragraphCallback translations (matched m)
                  (orEmpty (group 1 m)))
      (results off l)
    = Some (zip (results off l) (map (fun e => e.1.2) l')) /\
    map (fun m => join [] (paragraphTexts m)) (results off' l')
    = map (fun m => newKey translations (textRuns (orEmpty (group 1 m))))
        (results off l).
Proof.
  induction 1 as [|[[pre mt] caps] [[pre' out] caps'] l l' He _ IH];
    intros off off'; [split; reflexivity|].
  destruct He as (Hpre & Hout & c' & Hcaps & Hkey).
  cbn [fst snd] in *. subst pre' caps'.
  cbn [results map callEachOpt zip zip_with fst snd].
  set (M := mkResult (off + length pre) mt caps
              (off + length pre + length mt)).
  assert (HM : paragraphCallback translations (matched M)
                 (orEmpty (group 1 M)) = Some out) by exact Hout.
  rewrite HM. cbn [mbind option_bind].
  destruct (IH (off + length pre + length mt)
              (off' + length pre + length out)) as [-> IHk].
  cbn [mbind option_bind]. split; [reflexivity|]. f_equal; [|exact IHk].
  unfold paragraphTexts, group. cbn [groups getCapture Nat.eqb orEmpty].
  exact Hkey.
Qed.

Lemma zip_snd_eq {A B : Type} (l : list A) (k : list B) :
  length l = length k -> map snd (zip l k) = k.
Proof.
  revert k. induction l as [|x l IH]; intros [|y k] H; try discriminate H;
    [reflexivity|].
  cbn [zip zip_with map snd]. f_equal. apply IH. cbn in H. lia.
Qed.

Lemma zip_fst_eq {A B : Type} (l : list A) (k : list B) :
  length l = length k -> map fst (zip l k) = l.
Proof.
  revert k. induction l as [|x l IH]; intros [|y k] H; try discriminate H;
    [reflexivity|].
  cbn [zip zip_with map fst]. f_equal. apply IH. cbn in H. lia.
Qed.

Lemma results_length off
  (l : list (jsstring * jsstring * list (nat * jsstring))) :
  length (results off l) = length l.
Proof.
  revert off. induction l as [|[[? ?] ?] l IH]; intros off; [reflexivity|].
  cbn [results length]. rewrite IH. reflexivity.
Qed.

(** The rewritten part: its paragraph blocks are the paragraphs that the
    callback wrote, in order, and their keys are the new keys. *)
Lemma replaceParagraphText_rewritten (xml : jsstring)
  (translations : gmap jsstring jsstring) :
  exists xml' outs,
    replaceParagraphText xml translations = Some xml' /\
    mapM (fun m => paragraphCallback translations (matched m)
                     (orEmpty (group 1 m)))
      (globalMatches PARAGRAPH_REGEX xml) = Some outs /\
    map matched (globalMatches PARAGRAPH_REGEX xml') = outs /\
    map (fun m => join [] (paragraphTexts m))
      (globalMatches PARAGRAPH_REGEX xml')
    = map (fun m => newKey translations (textRuns (orEmpty (group 1 m))))
        (globalMatches PARAGRAPH_REGEX xml).
Proof.
  destruct (Parse_total paragraphMatchAt paragraphMatchAt_sound xml)
    as (l & tail & HP).
  destruct (Parse_written translations xml l tail HP) as (l' & Hrel & HP').
  pose proof (globalMatches_Parse paragraphMatchAt PARAGRAPH_REGEX
                PARAGRAPH_at paragraphMatchAt_sound _ _ _ HP) as Hms.
  pose proof (globalMatches_Parse paragraphMatchAt PARAGRAPH_REGEX
                PARAGRAPH_at paragraphMatchAt_sound _ _ _ HP') as Hms'.
  destruct (results_written translations l l' Hrel 0 0) as [Hcall Hkeys].
  pose proof (Forall2_length _ _ _ Hrel) as Hlen.
  assert (Hl : length (results 0 l) = length (map (fun e => e.1.2) l'))
    by (rewrite results_length, length_map; exact Hlen).
  exists (assemble l (map (fun e => e.1.2) l') tail),
    (map (fun e => e.1.2) l').
  split; [|split; [|split]].
  - unfold replaceParagraphText, replaceOpt. rewrite Hms, Hcall.
    cbn [mbind option_bind]. f_equal.
    pose proof (substitute_Parse paragraphMatchAt paragraphMatchAt_sound
                  xml l tail HP [] 0
                  (zip (results 0 l) (map (fun e => e.1.2) l')) eq_refl)
      as Hs.
    cbn [app length] in Hs. rewrite Hs by (apply zip_fst_eq, Hl).
    rewrite (zip_snd_eq _ _ Hl). reflexivity.
  - rewrite Hms. destruct (callEachOpt_mapM _ _ _ Hcall) as [_ ->].
    rewrite (zip_snd_eq _ _ Hl). reflexivity.
  - rewrite Hms'. apply results_matched.
  - rewrite Hms', Hms. exact Hkeys.
Qed.

(** The text runs of the content that the callback writes for a
    paragraph whose key is in the mapping. *)
Lemma paragraphCallback_runs translations fullMatch paragraphContent
  key translation a1 t1 others :
  textRuns paragraphContent = (a1, t1) :: others ->
  originalTextOf paragraphContent = Some key ->
  translations !! key = Some translation ->
  exists newParagraphContent,
    paragraphCallback translations fullMatch paragraphContent =
      Some (js "<w:p"
              ++ orEmpty (matchFirst OPEN_TAG_REGEX fullMatch ≫= group 1)
              ++ js ">" ++ newParagraphContent ++ js "</w:p>") /\
    textRuns newParagraphContent =
      (a1, escapeXml translation) :: map (fun r => (r.1, [])) others.
Proof.
  intros Hruns Hkey Hlookup.
  destruct (RunParse_total paragraphContent) as (rl & tail & HP).
  rewrite (RunParse_originalTextOf _ _ _ HP) in Hkey. injection Hkey as <-.
  rewrite (RunParse_textRuns _ _ _ HP) in Hruns.
  destruct rl as [|[[pre a] t] rl]; [discriminate Hruns|].
  cbn [map fst snd] in Hruns. injection Hruns as -> -> <-.
  eexists. split; [apply (paragraphCallback_hit _ _ _ _ _ _ HP Hlookup)|].
  destruct (newTexts_noLt translation ((pre, a1, t1) :: rl)) as [Hn Hl].
  pose proof (RunParse_rebuild _ _ _ _ HP Hn Hl) as HP'.
  rewrite (RunParse_textRuns _ _ _ HP'). apply retext_newTexts.
Qed.

(** The paragraph block of the rewritten part that stands for a block of
    the part: the paragraph that the callback returns for it. *)
Lemma replaceParagraphText_block xml translations i m :
  globalMatches PARAGRAPH_REGEX xml !! i = Some m ->
  exists xml' m' a' c',
    replaceParagraphText xml translations = Some xml' /\
    length (globalMatches PARAGRAPH_REGEX xml')
    = length (globalMatches PARAGRAPH_REGEX xml) /\
    globalMatches PARAGRAPH_REGEX xml' !! i = Some m' /\
    paragraphCallback translations (matched m) (orEmpty (group 1 m))
      = Some (matched m') /\
    matched m' = paragraphElement a' c' /\ group 1 m' = Some c' /\
    noGt a'.
Proof.
  intros Hm.
  destruct (replaceParagraphText_rewritten xml translations)
    as (xml' & outs & Hr & HmapM & Hmatched & _).
  pose proof (mapM_Some_1 _ _ _ HmapM) as Hall.
  destruct (Forall2_lookup_l _ _ _ _ _ Hall Hm) as (out & Hout & Hcall).
  pose proof (Forall2_length _ _ _ Hall) as Hlen.
  rewrite <- Hmatched in Hout, Hlen.
  rewrite length_map in Hlen.
  rewrite list_lookup_fmap in Hout.
  destruct (globalMatches PARAGRAPH_REGEX xml' !! i) as [m'|] eqn:Hm';
    [|discriminate Hout].
  cbn in Hout. injection Hout as <-.
  destruct (paragraph_match xml' m' (list_elem_of_lookup_2 _ _ _ Hm'))
    as (a' & c' & rest & Hfull & Hg & Hat).
  destruct (paragraphAt_facts _ _ _ Hat) as (Ha & _ & _).
  exists xml', m', a', c'.
  repeat split; solve [assumption|symmetry; assumption].
Qed.

(** * The claims *)

(** C1. Key stability.  For every paragraph content the text that the
    extractor combines and the key that the injector recomputes are the
    same string, and both loops return.  For every document part the texts
    of the extracted segments are, in order, the keys that the injector
    computes for the paragraph blocks of the part whose trimmed key is not
    empty. *)
Theorem C1_key_stability (xml source : jsstring) (startId : nat) :
  (forall paragraphContent,
     exists texts,
       collectTexts paragraphContent = Some texts /\
       originalTextOf paragraphContent = Some (join [] texts)) /\
  exists segments nextId keys,
    extractParagraphSegments xml source startId = Some (segments, nextId) /\
    mapM (fun m => originalTextOf (orEmpty (group 1 m)))
      (globalMatches PARAGRAPH_REGEX xml) = Some keys /\
    map text segments = filter (fun k => trim k <> []) keys.
Proof.
  split.
  - intros c. eexists. split; [apply collectTexts_textRuns|].
    apply originalTextOf_textRuns.
  - rewrite extractParagraphSegments_eq, mapM_originalTextOf.
    do 3 eexists. split; [reflexivity|split; [reflexivity|]].
    rewrite segmentsOf_text, map_map. reflexivity.
Qed.

(** C2. Rewrite rule for a matched paragraph.  For a paragraph block of
    a document part whose key is in the mapping and whose content has the
    text runs [(a1, t1) :: others], [replaceParagraphText] returns a part
    with as many paragraph blocks, and the block at the same index is the
    paragraph that the callback returns: [<w:p], the attributes that
    line 110 finds, [>], a new content and [</w:p>]; the new content is
    the content of the block of the new part.  The new content has as
    many text runs as the old; the first has the attributes [a1] and as
    its text the escaped translation, which is the translation with each
    of its characters [&], [<], [>], the double quote and ['] replaced by
    its entity; each of the others has its attributes and the empty
    text. *)
Theorem C2_rewrite_rule (xml : jsstring)
  (translations : gmap jsstring jsstring) (i : nat) (m : MatchResult)
  (key translation : jsstring) (a1 : option jsstring) (t1 : jsstring)
  (others : list (option jsstring * jsstring)) :
  globalMatches PARAGRAPH_REGEX xml !! i = Some m ->
  textRuns (orEmpty (group 1 m)) = (a1, t1) :: others ->
  originalTextOf (orEmpty (group 1 m)) = Some key ->
  translations !! key = Some translation ->
  exists xml' m' newParagraphContent,
    replaceParagraphText xml translations = Some xml' /\
    length (globalMatches PARAGRAPH_REGEX xml')
    = length (globalMatches PARAGRAPH_REGEX xml) /\
    globalMatches PARAGRAPH_REGEX xml' !! i = Some m' /\
    paragraphCallback translations (matched m) (orEmpty (group 1 m))
      = Some (matched m') /\
    matched m' =
      js "<w:p"
        ++ orEmpty (matchFirst OPEN_TAG_REGEX (matched m) ≫= group 1)
        ++ js ">" ++ newParagraphContent ++ js "</w:p>" /\
    group 1 m' = Some newParagraphContent /\
    textRuns newParagraphContent =
      (a1, escapeXml translation) :: map (fun r => (r.1, [])) others /\
    escapeXml translation = flat_map escapeChar translation /\
    length (textRuns newParagraphContent)
    = length (textRuns (orEmpty (group 1 m))).
Proof.
  intros Hm Hruns Hkey Hlookup.
  destruct (replaceParagraphText_block xml translations i m Hm)
    as (xml' & m' & a' & c' & Hr & Hlen & Hm' & Hcall & Hfull & Hg & Ha').
  destruct (paragraphCallback_runs translations (matched m) _ _ _ _ _ _
              Hruns Hkey Hlookup) as (new & Hw & Hnew).
  assert (E : matched m' =
              js "<w:p"
                ++ orEmpty (matchFirst OPEN_TAG_REGEX (matched m) ≫= group 1)
                ++ js ">" ++ new ++ js "</w:p>")
    by (rewrite Hcall in Hw; congruence).
  destruct (wfAttrs_head _ (openTag_attributes_wf (matched m)))
    as [HA _].
  pose proof E as E'. rewrite Hfull in E'. unfold paragraphElement in E'.
  destruct (openTag_unique _ _ _ _ Ha' HA E') as [_ Hc].
  apply app_inv_tail in Hc. subst c'.
  exists xml', m', new. split; [exact Hr|]. split; [exact Hlen|].
  split; [exact Hm'|]. split; [exact Hcall|]. split; [exact E|].
  split; [exact Hg|]. split; [exact Hnew|].
  split; [apply escapeXml_flat_map|].
  rewrite Hnew, Hruns. cbn [length]. rewrite length_map. reflexivity.
Qed.

(** The rule at a part with one paragraph block of two runs, for a
    translation with [<] and [&]. *)
Lemma C2_rewrite_rule_witness :
  exists xml' m' newParagraphContent,
    replaceParagraphText (js "<w:p>" ++ C2_example ++ js "</w:p>")
      {[ js "Hello world" := js "5 < 6 & 7" ]} = Some xml' /\
    globalMatches PARAGRAPH_REGEX xml' !! 0 = Some m' /\
    matched m' = js "<w:p" ++ js ">" ++ newParagraphContent ++ js "</w:p>" /\
    group 1 m' = Some newParagraphContent /\
    textRuns newParagraphContent =
      [(None, js "5 &lt; 6 &amp; 7");
       (Some (js " xml:space='preserve'"), [])] /\
    length (textRuns newParagraphContent) = length (textRuns C2_example).
Proof.
  destruct (C2_rewrite_rule (js "<w:p>" ++ C2_example ++ js "</w:p>")
              {[ js "Hello world" := js "5 < 6 & 7" ]} 0
              (mkResult 0 (js "<w:p>" ++ C2_example ++ js "</w:p>")
                 [(1, C2_example)]
                 (length (js "<w:p>" ++ C2_example ++ js "</w:p>")))
              (js "Hello world") (js "5 < 6 & 7") None (js "Hello")
              [(Some (js " xml:space='preserve'"), js " world")])
    as (xml' & m' & new & Hr & _ & Hm' & _ & Hfull & Hg & Hruns & _ & Hlen).
  - vm_compute. reflexivity.
  - vm_compute. reflexivity.
  - vm_compute. reflexivity.
  - vm_compute. reflexivity.
  - exists xml', m', new. split; [exact Hr|]. split; [exact Hm'|].
    split; [exact Hfull|]. split; [exact Hg|].
    split; [exact Hruns|exact Hlen].
Defined.

(** C3. Non-matching passthrough and round-trip identity.  A paragraph
    whose key is not in the mapping is returned by the callback as it is;
    a document part in which no paragraph block has its key in the mapping
    is returned by the injection as it is; with the empty mapping every
    document part is. *)
Theorem C3_passthrough_and_identity :
  (forall translations fullMatch paragraphContent,
     exists key,
       originalTextOf paragraphContent = Some key /\
       (translations !! key = None ->
        paragraphCallback translations fullMatch paragraphContent
          = Some fullMatch)) /\
  (forall xml (translations : gmap jsstring jsstring),
     (forall m key,
        m ∈ globalMatches PARAGRAPH_REGEX xml ->
        originalTextOf (orEmpty (group 1 m)) = Some key ->
        translations !! key = None) ->
     replaceParagraphText xml translations = Some xml) /\
  (forall xml, replaceParagraphText xml ∅ = Some xml).
Proof.
  split; [|split; [exact replaceParagraphText_miss|]].
  - intros translations fullMatch c. eexists.
    split; [apply originalTextOf_textRuns|]. apply paragraphCallback_miss.
  - intros xml. apply replaceParagraphText_miss.
    intros m key _ _. apply lookup_empty.
Qed.

(** C4, as the code has it.  [unescapeXml] replaces [&amp;] first, so the
    [&] that [escapeXml] wrote for a [&] of the text joins the characters
    after it: the text [&lt;] comes back as [<]. *)
Theorem C4_unescape_of_escape_at_amp_lt :
  escapeXml (js "&lt;") = js "&amp;lt;" /\
  unescapeXml (escapeXml (js "&lt;")) = js "<" /\
  unescapeXml (escapeXml (js "&lt;")) <> js "&lt;".
Proof. vm_compute. repeat split; discriminate. Qed.

(** C5. Empty-paragraph skip without identifier gap.  For a paragraph
    block [m] whose concatenated run text is empty after trimming: the
    body of the loop leaves the segments and the counter as they are; the
    paragraph after it, when its trimmed text is not empty, gets the
    identifier of the counter as it was before [m], and the counter is
    incremented once (below [2^53] the identifier is [p] and the decimal
    numeral of the counter, and the counter goes up by one); and the
    whole extraction gives what it gives when the block [m] is left
    out. *)
Theorem C5_empty_paragraph_skip (xml source : jsstring) (startId i : nat)
  (m : MatchResult) (texts : list jsstring) :
  globalMatches PARAGRAPH_REGEX xml !! i = Some m ->
  collectTexts (orEmpty (group 1 m)) = Some texts ->
  trim (join [] texts) = [] ->
  (forall st, extractBody source st m = Some st) /\
  (forall segments n m' texts',
     collectTexts (orEmpty (group 1 m')) = Some texts' ->
     trim (join [] texts') <> [] ->
     foldOpt (extractBody source) (segments, n) [m; m'] =
     Some (segments ++
             [mkSegment (js "p" ++ numberToString n) (join [] texts') None
                source (length texts')],
           increment n) /\
     ((N.of_nat n < 2 ^ 53)%N ->
      numberToString n = decimal n /\ increment n = S n)) /\
  extractParagraphSegments xml source startId =
  foldOpt (extractBody source) ([], startId)
    (delete i (globalMatches PARAGRAPH_REGEX xml)).
Proof.
  intros Hm Ht Hblank.
  rewrite collectTexts_textRuns in Ht. injection Ht as <-.
  fold (paragraphTexts m) in Hblank.
  assert (forall st, extractBody source st m = Some st) as Hskip.
  { intros [segments n]. rewrite extractBody_eq, Hblank. reflexivity. }
  split; [exact Hskip|split].
  - intros segments n m' texts' Ht' Hne.
    rewrite collectTexts_textRuns in Ht'. injection Ht' as <-.
    fold (paragraphTexts m') in Hne |- *.
    cbn [foldOpt]. rewrite Hskip. cbn [mbind option_bind].
    rewrite extractBody_eq. cbn [mbind option_bind].
    split.
    + destruct (trim (join [] (paragraphTexts m')));
        [congruence|reflexivity].
    + intros Hn. split;
        [apply numberToString_exact|apply increment_exact]; exact Hn.
  - rewrite extractParagraphSegments_eq, foldOpt_extractBody. cbn zeta.
    rewrite list_fmap_delete.
    rewrite (segmentsOf_delete source _ startId i (paragraphTexts m));
      [reflexivity| |exact Hblank].
    rewrite list_lookup_fmap, Hm. reflexivity.
Qed.

(** The skip at a part whose first paragraph block is blank: from counter
    7 the second block gets [p7]. *)
Lemma C5_empty_paragraph_skip_witness :
  extractParagraphSegments C5_example (js "word/document.xml") 7 =
  Some ([mkSegment (js "p7") (js "Hi") None (js "word/document.xml") 1], 8).
Proof.
  pose proof (C5_empty_paragraph_skip C5_example (js "word/document.xml") 7 0
                (mkResult 0 (js "<w:p><w:r><w:t> </w:t></w:r></w:p>")
                   [(1, js "<w:r><w:t> </w:t></w:r>")] 34)
                [js " "]) as H.
  destruct H as (_ & _ & H).
  - vm_compute. reflexivity.
  - vm_compute. reflexivity.
  - vm_compute. reflexivity.
  - rewrite H. vm_compute. reflexivity.
Defined.

(** C6, as the code has it.  For a paragraph block of a document part that
    has at least one text run and whose key is in the mapping with the
    translation [translation], the callback writes a paragraph that is
    again one paragraph block; the key that is recomputed from it is the
    escaped translation, [escapeXml translation]; and when that string is
    not a key of the mapping, a second injection returns the written
    paragraph as it is. *)
Theorem C6_written_paragraph_key (xml : jsstring)
  (translations : gmap jsstring jsstring) (i : nat) (m : MatchResult)
  (key translation : jsstring) :
  globalMatches PARAGRAPH_REGEX xml !! i = Some m ->
  1 <= length (textRuns (orEmpty (group 1 m))) ->
  originalTextOf (orEmpty (group 1 m)) = Some key ->
  translations !! key = Some translation ->
  exists written newParagraphContent,
    paragraphCallback translations (matched m) (orEmpty (group 1 m))
      = Some written /\
    globalMatches PARAGRAPH_REGEX written
      = [mkResult 0 written [(1, newParagraphContent)] (length written)] /\
    originalTextOf newParagraphContent = Some (escapeXml translation) /\
    (translations !! escapeXml translation = None ->
     replaceParagraphText written translations = Some written).
Proof.
  intros Hm Hruns Hkey Hlookup.
  apply list_elem_of_lookup_2 in Hm.
  destruct (paragraph_match xml m Hm) as (a & c & rest & Hfull & Hg & Hat).
  rewrite Hg in *. cbn [orEmpty] in *.
  destruct (RunParse_total c) as (rl & tail & HP).
  rewrite (RunParse_originalTextOf _ _ _ HP) in Hkey. injection Hkey as <-.
  rewrite (paragraphCallback_hit _ _ _ _ _ _ HP Hlookup).
  set (A := matchFirst OPEN_TAG_REGEX (matched m) ≫= group 1).
  set (c' := rebuild rl (newTexts translation true rl) tail).
  destruct (newTexts_noLt translation rl) as [Hn Hl].
  pose proof (RunParse_rebuild _ _ _ _ HP Hn Hl) as HP'. fold c' in HP'.
  assert (originalTextOf c' = Some (escapeXml translation)) as Hkey'.
  { rewrite (RunParse_originalTextOf _ _ _ HP'), (retext_texts _ _ Hl).
    destruct rl as [|e rl].
    - rewrite (RunParse_textRuns _ _ _ HP) in Hruns. cbn in Hruns. lia.
    - cbn [newTexts]. rewrite join_first_only. reflexivity. }
  assert (noCloseIn c' (js "</w:p>")) as Hfree.
  { destruct (paragraphAt_sound _ _ _ _ Hat) as (_ & _ & Hb).
    rewrite <- (app_nil_r c) in Hb at 2.
    apply breakOn_inv in Hb. destruct Hb as [Hb _].
    rewrite (RunParse_rebuild_self _ _ _ HP) in Hb.
    revert Hb. unfold c'. js_norm. cbn [app].
    destruct HP as [_ Hwf].
    apply noCloseIn_rebuild; try assumption. apply length_map. }
  pose proof (paragraphAt_written A c' (openTag_attributes_wf (matched m))
                Hfree) as Hat'.
  set (written := js "<w:p" ++ orEmpty A ++ js ">" ++ c' ++ js "</w:p>") in *.
  assert (globalMatches PARAGRAPH_REGEX written
          = [mkResult 0 written [(1, c')] (length written)]) as Hms.
  { apply (globalMatches_Parse paragraphMatchAt PARAGRAPH_REGEX PARAGRAPH_at
             paragraphMatchAt_sound written [([], written, [(1, c')])] []).
    econstructor; [|constructor; reflexivity].
    apply findFirst_head. unfold paragraphMatchAt.
    rewrite <- (app_nil_r written), app_nil_r at 1. rewrite Hat'.
    reflexivity. }
  exists written, c'. split; [reflexivity|].
  split; [exact Hms|]. split; [exact Hkey'|].
  intros Hnone. apply replaceParagraphText_miss.
  intros m' key' Hm' Hk'. rewrite Hms in Hm'.
  apply list_elem_of_singleton in Hm'. subst m'.
  unfold group in Hk'. cbn [groups getCapture Nat.eqb orEmpty] in Hk'.
  rewrite Hkey' in Hk'. injection Hk' as <-. exact Hnone.
Qed.

(** The written paragraph for the translation [&]. *)
Lemma C6_written_paragraph_key_witness :
  exists written newParagraphContent,
    paragraphCallback {[ js "A" := js "&" ]} C6_example
      (js "<w:r><w:t>A</w:t></w:r>") = Some written /\
    globalMatches PARAGRAPH_REGEX written
      = [mkResult 0 written [(1, newParagraphContent)] (length written)] /\
    originalTextOf newParagraphContent = Some (escapeXml (js "&")) /\
    (({[ js "A" := js "&" ]} : gmap jsstring jsstring) !! escapeXml (js "&")
       = None ->
     replaceParagraphText written {[ js "A" := js "&" ]} = Some written).
Proof.
  apply (C6_written_paragraph_key C6_example {[ js "A" := js "&" ]} 0
           (mkResult 0 C6_example [(1, js "<w:r><w:t>A</w:t></w:r>")] 34)
           (js "A") (js "&")).
  - vm_compute. reflexivity.
  - vm_compute. lia.
  - vm_compute. reflexivity.
  - vm_compute. reflexivity.
Defined.

(** The key recomputed from a written paragraph is not always the
    translation: for the translation [&] it is [&amp;]. *)
Lemma C6_reconstructed_text_counterexample :
  ~ (forall (xml : jsstring) (translations : gmap jsstring jsstring)
       (i : nat) (m : MatchResult)
       (key translation written newParagraphContent : jsstring),
       globalMatches PARAGRAPH_REGEX xml !! i = Some m ->
       originalTextOf (orEmpty (group 1 m)) = Some key ->
       translations !! key = Some translation ->
       paragraphCallback translations (matched m) (orEmpty (group 1 m))
         = Some written ->
       globalMatches PARAGRAPH_REGEX written
         = [mkResult 0 written [(1, newParagraphContent)] (length written)] ->
       originalTextOf newParagraphContent = Some translation).
Proof.
  intros H.
  specialize (H C6_example {[ js "A" := js "&" ]} 0
                (mkResult 0 C6_example [(1, js "<w:r><w:t>A</w:t></w:r>")] 34)
                (js "A") (js "&")
                (js "<w:p><w:r><w:t>&amp;</w:t></w:r></w:p>")
                (js "<w:r><w:t>&amp;</w:t></w:r>")).
  assert (originalTextOf (js "<w:r><w:t>&amp;</w:t></w:r>")
          = Some (js "&amp;")) as E by (vm_compute; reflexivity).
  rewrite E in H.
  assert (Some (js "&amp;") = Some (js "&")) as Habs.
  { apply H; vm_compute; reflexivity. }
  vm_compute in Habs. discriminate Habs.
Qed.

(** C7, as the code has it.  [getXmlContent] returns the decoded bytes of
    an entry of the package and leaves the package as it is.  For a path
    that is no entry it throws the error whose message is the fixed text
    followed by the path, unless the path is a name that the package
    object inherits from [Object.prototype]: the test [if (!file)] then
    finds a value, the decoder receives it, and what comes out is the
    [TypeError] of the decoder, which does not name the path.  So it is
    for the path [constructor] and a package without such an entry. *)
Theorem C7_getXmlContent_outcomes (decode : list N -> jsstring)
  (files : gmap jsstring (list N)) (path : jsstring) :
  ((getXmlContent decode files path).1
     = Thrown (js "File not found in DOCX: " ++ path)
   <-> files !! path = None /\ inherited path = false) /\
  ((getXmlContent decode files path).1 = TypeErrorThrown
   <-> files !! path = None /\ inherited path = true) /\
  (forall message,
     (getXmlContent decode files path).1 = Thrown message ->
     message = js "File not found in DOCX: " ++ path) /\
  (forall file,
     files !! path = Some file ->
     (getXmlContent decode files path).1 = Returned (decode file)) /\
  (getXmlContent decode files path).2 = files /\
  (files !! js "constructor" = None ->
   getXmlContent decode files (js "constructor")
     = (TypeErrorThrown, files)) /\
  getXmlContent decode ∅ (js "constructor") = (TypeErrorThrown, ∅).
Proof.
  split; [|split; [|split; [|split; [|split; [|split]]]]].
  - unfold getXmlContent.
    destruct (files !! path) as [file|], (inherited path);
      cbn [fst]; split; try discriminate; try (intros [? ?]; congruence).
    intros _. split; reflexivity.
  - unfold getXmlContent.
    destruct (files !! path) as [file|], (inherited path);
      cbn [fst]; split; try discriminate; try (intros [? ?]; congruence).
    intros _. split; reflexivity.
  - unfold getXmlContent.
    destruct (files !! path) as [file|], (inherited path);
      cbn [fst]; intros message; try discriminate.
    intros [= <-]. reflexivity.
  - intros file H. unfold getXmlContent. rewrite H. reflexivity.
  - unfold getXmlContent.
    destruct (files !! path) as [file|], (inherited path); reflexivity.
  - intros H. unfold getXmlContent. rewrite H. reflexivity.
  - reflexivity.
Qed.

(** C8. Plain-text round trip: the two segments rendered to the plain-text
    form and parsed again give the mapping of [p0] to [A] and of [p1] to
    [B], which is the association of identifiers to texts before the
    rendering. *)
Theorem C8_plain_text_round_trip :
  simpleFormat C8_segments = js "[p0]" ++ [newline] ++ js "A" ++ [newline]
    ++ [newline] ++ js "[p1]" ++ [newline] ++ js "B" ++ [newline] /\
  parseTxtTranslations (simpleFormat C8_segments)
    = {[ js "p0" := js "A"; js "p1" := js "B" ]} /\
  parseTxtTranslations (simpleFormat C8_segments)
    = list_to_map (map (fun seg => (id seg, text seg)) C8_segments).
Proof. vm_compute. repeat split. Qed.

(** C9, amended.  For every input, source path and starting counter,
    [extractParagraphSegments] returns; [nextId] is the starting counter
    after one increment for each segment, and the segment at index [i] has
    the identifier [p] followed by the counter after [i] increments, as
    the template literal prints it.  When the starting counter plus the
    number of segments is at most [2^53], [nextId] is the starting counter
    plus the number of segments and the segment at index [i] has the
    identifier [p] followed by the decimal numeral of [startId + i]. *)
Theorem C9_counter_threading (xml source : jsstring) (startId : nat) :
  exists segments nextId,
    extractParagraphSegments xml source startId = Some (segments, nextId) /\
    nextId = advance startId (length segments) /\
    (forall i seg, segments !! i = Some seg ->
       id seg = js "p" ++ numberToString (advance startId i)) /\
    ((N.of_nat (startId + length segments) <= 2 ^ 53)%N ->
     nextId = startId + length segments /\
     forall i seg, segments !! i = Some seg ->
       id seg = js "p" ++ decimal (startId + i)).
Proof.
  rewrite extractParagraphSegments_eq. do 2 eexists.
  split; [reflexivity|]. split; [reflexivity|]. split.
  - apply segmentsOf_id.
  - intros Hb. split; [apply advance_exact, Hb|].
    intros i seg. apply segmentsOf_id_exact, Hb.
Qed.

(** From the counter 41 the two segments of the example are [p41] and
    [p42], and [nextId] is 43. *)
Lemma C9_counter_threading_witness :
  exists segments,
    extractParagraphSegments C9_example (js "word/document.xml") 41
      = Some (segments, 43) /\
    map id segments = [js "p41"; js "p42"].
Proof.
  destruct (C9_counter_threading C9_example (js "word/document.xml") 41)
    as (segments & nextId & Heq & _ & _ & Hb).
  exists segments. pose proof Heq as Heq'.
  rewrite C9_example_segments in Heq'. injection Heq' as Hs _.
  destruct Hb as [Hn Hid]; [rewrite <- Hs; vm_compute; discriminate|].
  split; [rewrite Heq, Hn, <- Hs; reflexivity|].
  rewrite <- Hs in Hid |- *. cbn [map].
  rewrite (Hid 0 _ eq_refl), (Hid 1 _ eq_refl). reflexivity.
Defined.

(** C9 as stated fails from the counter [2^53]: the double nearest to
    [2^53 + 1] is [2^53], so [id++] leaves the counter as it is.  The two
    segments of the example get one identifier, and [nextId] is [2^53],
    not [2^53 + 2]. *)
Lemma C9_counter_threading_counterexample :
  exists segments nextId,
    extractParagraphSegments C9_example (js "word/document.xml") C9_startId
      = Some (segments, nextId) /\
    length segments = 2 /\
    nextId = C9_startId /\
    nextId <> C9_startId + length segments /\
    (exists seg0 seg1,
       segments !! 0 = Some seg0 /\ segments !! 1 = Some seg1 /\
       id seg0 = js "p9007199254740992" /\
       id seg1 = js "p9007199254740992" /\
       (id seg0 <> js "p" ++ decimal (C9_startId + 0) \/
        id seg1 <> js "p" ++ decimal (C9_startId + 1))).
Proof.
  rewrite C9_example_segments, !increment_C9_startId.
  do 2 eexists. split; [reflexivity|]. split; [reflexivity|].
  split; [reflexivity|]. split; [cbn [length]; lia|].
  do 2 eexists. split; [reflexivity|]. split; [reflexivity|].
  cbn [id]. rewrite numberToString_C9_startId.
  split; [reflexivity|]. split; [reflexivity|].
  destruct (decide (js "p" ++ js "9007199254740992"
                    = js "p" ++ decimal (C9_startId + 0))) as [E|E];
    [right|left; exact E].
  rewrite E. intros H. apply app_inv_head, decimal_inj in H. lia.
Qed.

(** C10. Flat runs only.  Every match of the run pattern is a run element
    whose text, the second group, has no [<], and however the matched text
    is read as an opening tag, a content and a closing tag, the content
    has no [<]: an element with markup in its content is not a match.  The
    text of a segment is the concatenation of the texts of the matches in
    one paragraph block and its [runCount] is their number, so the text of
    every extracted segment has no [<]; and the key that the injector
    recomputes has none. *)
Theorem C10_flat_runs_only :
  (forall paragraphContent m,
     m ∈ globalMatches TEXT_ELEMENT_REGEX paragraphContent ->
     (exists t, group 2 m = Some t /\ (60%N ∉ t) /\
                matched m = runElement (group 1 m) t) /\
     (forall a inner : jsstring,
        matched m = js "<w:t" ++ a ++ js ">" ++ inner ++ js "</w:t>" ->
        60%N ∉ inner)) /\
  (forall xml source startId,
     exists segments nextId,
       extractParagraphSegments xml source startId
         = Some (segments, nextId) /\
       forall seg, seg ∈ segments ->
         (60%N ∉ text seg) /\
         exists p, p ∈ globalMatches PARAGRAPH_REGEX xml /\
           text seg = join [] (map snd (textRuns (orEmpty (group 1 p)))) /\
           runCount seg = length (textRuns (orEmpty (group 1 p)))) /\
  (forall paragraphContent,
     exists key, originalTextOf paragraphContent = Some key /\ (60%N ∉ key)).
Proof.
  split; [|split].
  - intros c m Hm. destruct (RunParse_total c) as (rl & tail & [HP Hwf]).
    rewrite (globalMatches_Parse runMatchAt TEXT_ELEMENT_REGEX TEXT_matchAt
               runMatchAt_sound c _ tail HP) in Hm.
    destruct (results_run_elem _ _ _ Hm) as (pre & a & t & Hin & H0 & H1 & H2).
    rewrite Forall_forall in Hwf. destruct (Hwf _ Hin) as [Ha Ht].
    cbn [fst snd] in Ha, Ht. split.
    + exists t. rewrite H1. split; [exact H2|split; [|exact H0]].
      apply noLt_not_elem, Ht.
    + intros a' inner E. rewrite H0 in E. apply noLt_not_elem.
      exact (runElement_content_noLt _ _ _ _ Ha Ht E).
  - intros xml source startId. rewrite extractParagraphSegments_eq.
    do 2 eexists. split; [reflexivity|]. intros seg Hseg.
    destruct (segmentsOf_from _ _ _ _ Hseg) as (texts & Hin & Htext & Hcount).
    apply list_elem_of_fmap in Hin. destruct Hin as (p & -> & Hp).
    split.
    + rewrite Htext. apply noLt_not_elem, paragraphTexts_noLt.
    + exists p. split; [exact Hp|]. split; [exact Htext|].
      rewrite Hcount. unfold paragraphTexts. apply length_map.
  - intros c. eexists. split; [apply originalTextOf_textRuns|].
    apply noLt_not_elem, join_noLt.
    apply Forall_fmap. eapply Forall_impl; [apply textRuns_noLt|].
    intros [a t] [_ H]. exact H.
Qed.

(** * Further properties of the code *)

(** ** [escapeXml] and [unescapeXml] *)

(** X1. The five replacements of [escapeXml], one after the other, are one
    pass over the text that writes [escapeChar] for each character; the
    result has none of [<], [>], the double quote and the apostrophe; and
    the texts that [escapeXml] returns as they are are those without any
    of the five characters. *)
Theorem escapeXml_one_pass (t : jsstring) :
  escapeXml t = flat_map escapeChar t /\
  Forall (fun c => c <> 60%N /\ c <> 62%N /\ c <> dquote /\ c <> 39%N)
    (escapeXml t) /\
  (escapeXml t = t <-> Forall plain t).
Proof.
  rewrite escapeXml_flat_map. split; [reflexivity|]. split; [|split].
  - induction t as [|d t IH]; cbn [flat_map]; [constructor|].
    apply Forall_app. split; [|exact IH].
    unfold escapeChar, dquote.
    special_cases d; cbn [N.eqb Pos.eqb]; js_norm;
      repeat (constructor; [repeat split; try discriminate; assumption|]);
      constructor.
  - induction t as [|d t IH]; intros E; [constructor|].
    cbn [flat_map] in E. pose proof (f_equal length E) as L.
    rewrite length_app in L. cbn [length] in L.
    pose proof (flat_map_escapeChar_length t) as Lt.
    destruct (escapeChar_length d) as [L1 Lp].
    assert (Hd : plain d) by (apply Lp; lia).
    rewrite (escapeChar_plain d Hd) in E. injection E as E.
    constructor; [exact Hd|apply IH, E].
  - induction 1 as [|d t Hd _ IH]; [reflexivity|].
    cbn [flat_map]. rewrite (escapeChar_plain d Hd), IH. reflexivity.
Qed.

(** X2. Unescaping an escaped text gives the text back whenever the text
    has no occurrence of [&lt;], [&gt;], [&quot;] or [&apos;]; an [&]
    elsewhere, and [&amp;] itself, do no harm. *)
Theorem unescapeXml_escapeXml_entity_free (t : jsstring) :
  Forall (fun entity => breakOn entity t = None)
    [js "&lt;"; js "&gt;"; js "&quot;"; js "&apos;"] ->
  unescapeXml (escapeXml t) = t.
Proof.
  intros Ht.
  apply Forall_cons_1 in Ht. destruct Ht as [H1 Ht].
  apply Forall_cons_1 in Ht. destruct Ht as [H2 Ht].
  apply Forall_cons_1 in Ht. destruct Ht as [H3 Ht].
  apply Forall_cons_1 in Ht. destruct Ht as [H4 _].
  revert H1 H2 H3 H4. js_norm. intros H1 H2 H3 H4.
  apply breakOn_afterAmp in H1, H2, H3, H4.
  rewrite escapeXml_flat_map. unfold unescapeXml. js_norm.
  change (flat_map escapeChar t) with (flat_map (stage []) t).
  rewrite (unescape_step [97; 109; 112; 59]%N 38 [] t).
  2:{ intros d Hd. special_cases d; try contradiction; stage_case. }
  2:{ left. split; reflexivity. }
  rewrite (unescape_step [108; 116; 59]%N 60 [38%N] t).
  2:{ intros d Hd. special_cases d; try contradiction; stage_case. }
  2:{ right. repeat split; try reflexivity; try discriminate;
        [plain_word|exact H1]. }
  rewrite (unescape_step [103; 116; 59]%N 62 [60; 38]%N t).
  2:{ intros d Hd. special_cases d; try contradiction; stage_case. }
  2:{ right. repeat split; try reflexivity; try discriminate;
        [plain_word|exact H2]. }
  unfold dquote.
  rewrite (unescape_step [113; 117; 111; 116; 59]%N 34 [62; 60; 38]%N t).
  2:{ intros d Hd. special_cases d; try contradiction; stage_case. }
  2:{ right. repeat split; try reflexivity; try discriminate;
        [plain_word|exact H3]. }
  rewrite (unescape_step [97; 112; 111; 115; 59]%N 39 [34; 62; 60; 38]%N t).
  2:{ intros d Hd. special_cases d; try contradiction; stage_case. }
  2:{ right. repeat split; try reflexivity; try discriminate;
        [plain_word|exact H4]. }
  clear. induction t as [|d t IH]; [reflexivity|].
  cbn [flat_map]. rewrite IH.
  special_cases d; try reflexivity.
  unfold stage, escapeChar, dquote. cbn [existsb].
  repeat match goal with
         | H : ?d <> ?n |- context [(?d =? ?n)%N] =>
             rewrite (proj2 (N.eqb_neq d n) H)
         end.
  reflexivity.
Qed.

(** The round trip for a text with all five characters, [&amp;] among
    them. *)
Lemma unescapeXml_escapeXml_entity_free_witness :
  unescapeXml (escapeXml (js "<a href='x'>Tom &amp; Jerry & co</a>"))
  = js "<a href='x'>Tom &amp; Jerry & co</a>".
Proof.
  apply (unescapeXml_escapeXml_entity_free
           (js "<a href='x'>Tom &amp; Jerry & co</a>")).
  vm_compute. repeat constructor.
Defined.

(** X3. [unescapeXml] returns a text without [&] as it is. *)
Theorem unescapeXml_without_amp (t : jsstring) :
  38%N ∉ t -> unescapeXml t = t.
Proof.
  intros Ht. unfold unescapeXml. js_norm.
  do 5 rewrite (replaceString_absent _ _ t Ht). reflexivity.
Qed.

Lemma unescapeXml_without_amp_witness :
  unescapeXml (js "1 < 2 > 0; lt; amp;") = js "1 < 2 > 0; lt; amp;".
Proof.
  apply (unescapeXml_without_amp (js "1 < 2 > 0; lt; amp;")).
  apply (bool_decide_unpack _). vm_compute. exact I.
Defined.

(** ** The package *)

(** X4. The paths that [getTranslatableFiles] keeps are exactly
    [word/document.xml], [word/footnotes.xml], [word/endnotes.xml],
    [word/comments.xml], and [word/header.xml] and [word/footer.xml] with
    any digits, none included, before the dot. *)
Theorem isTranslatable_paths (path : jsstring) :
  isTranslatable path = true <->
  path = js "word/document.xml" \/
  (exists ds, allDigits ds /\ path = js "word/header" ++ ds ++ js ".xml") \/
  (exists ds, allDigits ds /\ path = js "word/footer" ++ ds ++ js ".xml") \/
  path = js "word/footnotes.xml" \/
  path = js "word/endnotes.xml" \/
  path = js "word/comments.xml".
Proof.
  unfold isTranslatable, translatablePatterns. cbn [existsb].
  change (Seq LineStart (Seq (str (js "word/document.xml")) LineEnd))
    with (fixedPart (js "document")).
  change (Seq LineStart (Seq (str (js "word/footnotes.xml")) LineEnd))
    with (fixedPart (js "footnotes")).
  change (Seq LineStart (Seq (str (js "word/endnotes.xml")) LineEnd))
    with (fixedPart (js "endnotes")).
  change (Seq LineStart (Seq (str (js "word/comments.xml")) LineEnd))
    with (fixedPart (js "comments")).
  change (Seq LineStart (Seq (str (js "word/header")) ?r))
    with (numberedPart (js "header")).
  change (Seq LineStart (Seq (str (js "word/footer")) ?r))
    with (numberedPart (js "footer")).
  rewrite !orb_true_iff, !test_fixedPart, !test_numberedPart.
  change (js "word/" ++ js "document" ++ js ".xml")
    with (js "word/document.xml").
  change (js "word/" ++ js "footnotes" ++ js ".xml")
    with (js "word/footnotes.xml").
  change (js "word/" ++ js "endnotes" ++ js ".xml")
    with (js "word/endnotes.xml").
  change (js "word/" ++ js "comments" ++ js ".xml")
    with (js "word/comments.xml").
  change (js "word/" ++ js "header" ++ ?x) with (js "word/header" ++ x).
  change (js "word/" ++ js "footer" ++ ?x) with (js "word/footer" ++ x).
  intuition discriminate.
Qed.

(** X5. Extraction over a package whose listed paths are entries of it
    never asks for a missing entry and returns.  The counter starts at 0
    and is incremented once for each segment of all the parts together:
    the segment at index [i] has the identifier [p] followed by the
    counter after [i] increments, and [nextId] ends as the counter after
    as many increments as there are segments.  Every segment names a
    translatable entry of the package as its source, has a text that is
    not blank and counts at least one text run.  When there are at most
    [2^53] segments, their identifiers are [p0], [p1], ... in order, no
    two segments share one, and [nextId] ends as their number. *)
Theorem extractAll_package (decode : list N -> jsstring)
  (objectKeys : gmap jsstring (list N) -> list jsstring)
  (files : gmap jsstring (list N)) :
  (forall path, path ∈ objectKeys files -> is_Some (files !! path)) ->
  exists allSegments,
    extractAll decode objectKeys files
      = Some (Returned (allSegments, advance 0 (length allSegments))) /\
    (forall i seg, allSegments !! i = Some seg ->
       id seg = js "p" ++ numberToString (advance 0 i) /\
       isTranslatable (source seg) = true /\
       is_Some (files !! source seg) /\
       trim (text seg) <> [] /\ 1 <= runCount seg) /\
    ((N.of_nat (length allSegments) <= 2 ^ 53)%N ->
     advance 0 (length allSegments) = length allSegments /\
     (forall i seg, allSegments !! i = Some seg ->
        id seg = js "p" ++ decimal i) /\
     NoDup (map id allSegments)).
Proof.
  intros Hkeys. unfold extractAll, getTranslatableFiles.
  destruct (extractFiles_spec decode
              (List.filter isTranslatable (objectKeys files)) files [] 0)
    as (segs & Hs & Hid).
  { intros p Hp. apply elem_of_filter_bool in Hp. apply Hkeys, Hp. }
  exists segs. split; [exact Hs|]. split.
  - intros i seg Hi. destruct (Hid _ _ Hi) as (H1 & H2 & H3 & H4).
    apply elem_of_filter_bool in H2. destruct H2 as [H2 H5].
    split; [exact H1|]. split; [exact H5|].
    split; [apply Hkeys, H2|]. split; assumption.
  - intros Hb. split; [apply (advance_exact _ 0), Hb|].
    apply ids_in_order; [exact Hb|]. intros i seg Hi. apply (Hid _ _ Hi).
Qed.

Lemma extractAll_package_witness :
  exists allSegments,
    extractAll example_code example_keys example_files
      = Some (Returned (allSegments, length allSegments)) /\
    (forall i seg, allSegments !! i = Some seg ->
       id seg = js "p" ++ decimal i /\
       isTranslatable (source seg) = true /\
       is_Some (example_files !! source seg) /\
       trim (text seg) <> [] /\ 1 <= runCount seg) /\
    NoDup (map id allSegments).
Proof.
  destruct (extractAll_package example_code example_keys example_files)
    as (segs & Heq & Hall & Hb); [intros path; apply keys_listed|].
  assert (N.of_nat (length segs) <= 2 ^ 53)%N as Hlen.
  { assert (extractAll example_code example_keys example_files
            = Some (Returned
                      ([mkSegment (js "p0") (js "Hello") None
                          (js "word/document.xml") 1], 1))) as Hc
      by (vm_compute; reflexivity).
    rewrite Hc in Heq. injection Heq as <- _. vm_compute. discriminate. }
  destruct (Hb Hlen) as (Hn & Hid & Hnd).
  exists segs. rewrite Heq, Hn. split; [reflexivity|].
  split; [|exact Hnd].
  intros i seg Hi. split; [exact (Hid _ _ Hi)|]. apply (Hall _ _ Hi).
Defined.

(** X6. Injection over a package whose listed paths are its entries, each
    listed once, never asks for a missing entry and returns.  It leaves
    every entry that is not translatable as it is, adds no entry and
    removes none, and replaces each translatable entry by the encoding of
    [replaceParagraphText] of its decoded text. *)
Theorem injectAll_package (decode : list N -> jsstring)
  (encode : jsstring -> list N)
  (objectKeys : gmap jsstring (list N) -> list jsstring)
  (files : gmap jsstring (list N)) (textMap : gmap jsstring jsstring) :
  (forall path, path ∈ objectKeys files <-> is_Some (files !! path)) ->
  NoDup (objectKeys files) ->
  exists files',
    injectAll decode encode objectKeys files textMap
      = Some (Returned files') /\
    forall path,
      (isTranslatable path = false -> files' !! path = files !! path) /\
      (files !! path = None -> files' !! path = None) /\
      (forall bytes,
         files !! path = Some bytes -> isTranslatable path = true ->
         exists newXml,
           replaceParagraphText (decode bytes) textMap = Some newXml /\
           files' !! path = Some (encode newXml)).
Proof.
  intros Hkeys Hnd. unfold injectAll, getTranslatableFiles.
  destruct (injectFiles_spec decode encode textMap
              (List.filter isTranslatable (objectKeys files)) files)
    as (files' & Hf & Hl).
  - apply NoDup_ListNoDup, List.NoDup_filter, NoDup_ListNoDup, Hnd.
  - intros p Hp. apply elem_of_filter_bool in Hp. apply Hkeys, Hp.
  - exists files'. split; [exact Hf|]. intros path. split; [|split].
    + intros Ht. apply (Hl path). rewrite elem_of_filter_bool.
      intros [_ H]. congruence.
    + intros Hn. rewrite <- Hn. apply (Hl path).
      rewrite elem_of_filter_bool. intros [H _]. apply Hkeys in H.
      rewrite Hn in H. destruct H as [? H]. discriminate H.
    + intros bytes Hb Ht. apply (proj2 (Hl path)); [|exact Hb].
      apply elem_of_filter_bool. split; [|exact Ht]. apply Hkeys. eauto.
Qed.

Lemma injectAll_package_witness :
  exists files',
    injectAll example_code example_code example_keys example_files
      {[ js "Hello" := js "Bonjour" ]} = Some (Returned files') /\
    forall path,
      (isTranslatable path = false ->
       files' !! path = example_files !! path) /\
      (example_files !! path = None -> files' !! path = None) /\
      (forall bytes,
         example_files !! path = Some bytes -> isTranslatable path = true ->
         exists newXml,
           replaceParagraphText (example_code bytes)
             {[ js "Hello" := js "Bonjour" ]} = Some newXml /\
           files' !! path = Some (example_code newXml)).
Proof.
  apply (injectAll_package example_code example_code example_keys
           example_files {[ js "Hello" := js "Bonjour" ]}).
  - intros path. apply keys_listed.
  - apply NoDup_fst_map_to_list.
Defined.

(** ** The plain-text form *)

(** X7. Every key of the mapping that [parseTxtTranslations] returns is
    the identifier of a marker line of the content: [p] and one digit or
    more, on a line that holds the identifier in square brackets and
    nothing else. *)
Theorem parseTxtTranslations_keys (content i v : jsstring) :
  parseTxtTranslations content !! i = Some v ->
  isMarkerId i /\ (js "[" ++ i ++ js "]") ∈ split newline content.
Proof.
  rewrite parseTxtTranslations_finalOf.
  set (lines := split newline content).
  set (Q := fun i : jsstring =>
              isMarkerId i /\ (js "[" ++ i ++ js "]") ∈ lines).
  set (P := fun st : gmap jsstring jsstring * option jsstring
                       * list jsstring =>
              (forall i v, st.1.1 !! i = Some v -> Q i) /\
              (forall i, st.1.2 = Some i -> Q i)).
  assert (Hstep : forall st line, line ∈ lines -> P st ->
                    P (parseLine st line)).
  { intros st line Hline [Ht Hc].
    destruct (markerId line) as [j|] eqn:E.
    - rewrite (parseLine_marker st line j E). split; cbn [fst snd].
      + intros i' v'.
        destruct st as [[t [c|]] x]; cbn [savePrevious fst snd].
        * destruct (Nat.ltb 0 (length x)); [|apply Ht].
          destruct (decide (c = i')) as [->|Hne].
          -- intros _. apply Hc. reflexivity.
          -- rewrite lookup_insert_ne by exact Hne. apply Ht.
        * apply Ht.
      + intros i' [= <-]. apply markerId_Some in E. destruct E as [Hj ->].
        split; assumption.
    - rewrite (parseLine_text st line E).
      destruct st as [[t [c|]] x]; cbn [fst snd]; split; assumption. }
  assert (Hfold : forall l st, (forall line, line ∈ l -> line ∈ lines) ->
                    P st -> P (foldl parseLine st l)).
  { induction l as [|line l IH]; intros st Hl Hst; [exact Hst|].
    cbn [foldl]. apply IH.
    - intros ? ?. apply Hl. right. assumption.
    - apply Hstep; [apply Hl; left|exact Hst]. }
  specialize (Hfold lines (∅, None, []) (fun _ H => H)).
  destruct Hfold as [Ht Hc].
  { split; cbn [fst snd]; [intros ? ?; rewrite lookup_empty|];
      discriminate. }
  destruct (foldl parseLine _ lines) as [[t [c|]] x];
    unfold finalOf; cbn [fst snd savePrevious] in *.
  - destruct (Nat.ltb 0 (length x)); [|apply Ht].
    destruct (decide (c = i)) as [->|Hne].
    + intros _. apply Hc. reflexivity.
    + rewrite lookup_insert_ne by exact Hne. apply Ht.
  - apply Ht.
Qed.

Lemma parseTxtTranslations_keys_witness :
  isMarkerId (js "p12") /\
  (js "[" ++ js "p12" ++ js "]")
    ∈ split newline (js "intro" ++ [newline] ++ js "[p12]" ++ [newline]
                       ++ js " Hallo ").
Proof.
  apply (parseTxtTranslations_keys
           (js "intro" ++ [newline] ++ js "[p12]" ++ [newline]
              ++ js " Hallo ")
           (js "p12") (js "Hallo")).
  vm_compute. reflexivity.
Defined.

(** X8. Rendering and reading back.  For segments whose identifiers can
    stand in a marker line and whose texts have no marker line of their
    own, [parseTxtTranslations] of [simpleFormat] is the mapping that
    takes, segment after segment, the identifier to the trimmed text;
    when no two segments share an identifier it takes the identifier of
    each segment to the trimmed text of that segment. *)
Theorem simpleFormat_round_trip (segments : list ParagraphSegment) :
  Forall wfBlock segments ->
  parseTxtTranslations (simpleFormat segments)
    = foldl setTrimmed ∅ segments /\
  (NoDup (map id segments) ->
   forall seg, seg ∈ segments ->
     parseTxtTranslations (simpleFormat segments) !! id seg
       = Some (trim (text seg))).
Proof.
  intros Hwf. pose proof (simpleFormat_parse segments Hwf) as E.
  split; [exact E|]. intros Hnd seg Hseg. rewrite E.
  apply foldl_setTrimmed_lookup; assumption.
Qed.

Lemma simpleFormat_round_trip_witness :
  parseTxtTranslations (simpleFormat example_segments)
    = foldl setTrimmed ∅ example_segments /\
  (NoDup (map id example_segments) ->
   forall seg, seg ∈ example_segments ->
     parseTxtTranslations (simpleFormat example_segments) !! id seg
       = Some (trim (text seg))).
Proof.
  apply (simpleFormat_round_trip example_segments).
  repeat constructor;
    try (eexists _, _; split; [reflexivity|repeat constructor]).
Defined.

(** X9. A pasted text without a marker line gives the empty mapping, and
    with it the web application finds no translation for any segment:
    [textMap] is empty. *)
Theorem no_marker_line (originalSegments : list ParagraphSegment)
  (translated : jsstring) :
  Forall (fun line => markerId line = None) (split newline translated) ->
  parseTxtTranslations translated = ∅ /\
  textMapOfApp originalSegments (parseTxtTranslations translated) = ∅.
Proof.
  intros H.
  assert (E : parseTxtTranslations translated = ∅).
  { rewrite parseTxtTranslations_finalOf.
    rewrite (foldl_no_marker _ (∅, None, []) H eq_refl). reflexivity. }
  split; [exact E|]. rewrite E. unfold textMapOfApp.
  generalize (∅ : gmap jsstring jsstring) at 2 3.
  induction originalSegments as [|s l IH]; intros tm; [reflexivity|].
  cbn [foldl]. rewrite textMapStep_empty. apply IH.
Qed.

(** A text whose marker lines end in a carriage return has none. *)
Lemma no_marker_line_witness :
  parseTxtTranslations
    (js "[p0]" ++ [13%N; newline] ++ js "Hallo" ++ [13%N; newline]) = ∅ /\
  textMapOfApp example_segments
    (parseTxtTranslations
       (js "[p0]" ++ [13%N; newline] ++ js "Hallo" ++ [13%N; newline])) = ∅.
Proof.
  apply (no_marker_line example_segments
           (js "[p0]" ++ [13%N; newline] ++ js "Hallo" ++ [13%N; newline])).
  vm_compute. repeat constructor.
Defined.

(** ** Document parts *)

(** X10. A document part in which [<w:p] or [</w:p>] does not occur has
    no paragraph block: extraction gives no segment and leaves the
    counter as it is, and injection returns the part unchanged. *)
Theorem no_paragraph_block (xml source : jsstring) (startId : nat)
  (translations : gmap jsstring jsstring) :
  breakOn (js "<w:p") xml = None \/ breakOn (js "</w:p>") xml = None ->
  extractParagraphSegments xml source startId = Some ([], startId) /\
  replaceParagraphText xml translations = Some xml.
Proof.
  intros H. apply no_paragraph_match in H. split.
  - rewrite extractParagraphSegments_eq, H. reflexivity.
  - apply replaceParagraphText_miss. intros m key Hm. rewrite H in Hm.
    apply elem_of_nil in Hm. destruct Hm.
Qed.

(** A part of self-closing paragraphs only. *)
Lemma no_paragraph_block_witness :
  extractParagraphSegments (js "<w:body><w:p/><w:p w:rsidR='1'/></w:body>")
    (js "word/document.xml") 7 = Some ([], 7) /\
  replaceParagraphText (js "<w:body><w:p/><w:p w:rsidR='1'/></w:body>")
    {[ [] := js "x" ]}
  = Some (js "<w:body><w:p/><w:p w:rsidR='1'/></w:body>").
Proof.
  apply (no_paragraph_block (js "<w:body><w:p/><w:p w:rsidR='1'/></w:body>")
           (js "word/document.xml") 7 {[ [] := js "x" ]}).
  right. vm_compute. reflexivity.
Defined.

(** X11. Every segment that [extractParagraphSegments] returns comes from
    a paragraph block of the part: its text is the texts of the runs of
    the block put together, its [runCount] is their number and is at
    least one, the text is not blank, the source is the given one and no
    translation is set.  [nextId] is the starting counter after one
    increment for each segment, which is the start plus the number of
    segments when that sum is at most [2^53]. *)
Theorem extracted_segments (xml src : jsstring) (startId : nat) :
  exists segments,
    extractParagraphSegments xml src startId
      = Some (segments, advance startId (length segments)) /\
    ((N.of_nat (startId + length segments) <= 2 ^ 53)%N ->
     advance startId (length segments) = startId + length segments) /\
    forall seg, seg ∈ segments ->
      trim (text seg) <> [] /\ 1 <= runCount seg /\
      source seg = src /\ translation seg = None /\
      exists m, m ∈ globalMatches PARAGRAPH_REGEX xml /\
        collectTexts (orEmpty (group 1 m)) = Some (paragraphTexts m) /\
        text seg = join [] (paragraphTexts m) /\
        runCount seg = length (paragraphTexts m).
Proof.
  eexists. split; [apply extractParagraphSegments_eq|].
  split; [apply advance_exact|].
  intros seg Hseg. apply segmentsOf_elem in Hseg.
  destruct Hseg as (texts & Ht & Htext & Hrun & Htrim & Hsrc & Htr).
  repeat split; try assumption.
  - rewrite Hrun. destruct texts; [|cbn; lia].
    exfalso. apply Htrim. rewrite Htext. reflexivity.
  - apply list_elem_of_In, in_map_iff in Ht. destruct Ht as (m & <- & Hm).
    exists m. split; [apply list_elem_of_In, Hm|].
    split; [apply collectTexts_textRuns|]. split; assumption.
Qed.

(** ** The mapping from original text to translation *)

(** X12. The entries of [textMap] of the web application.  Every entry
    takes the text of a segment to the translation found for the
    identifier of that segment, and the translation is not blank; and
    the text of every segment whose identifier has a translation that is
    not blank is a key. *)
Theorem textMapOfApp_characterised (originalSegments : list ParagraphSegment)
  (idToTranslation : gmap jsstring jsstring) :
  (forall key translation,
     textMapOfApp originalSegments idToTranslation !! key = Some translation ->
     trim translation <> [] /\
     exists segment, segment ∈ originalSegments /\ text segment = key /\
       idToTranslation !! id segment = Some translation) /\
  (forall segment translation,
     segment ∈ originalSegments ->
     idToTranslation !! id segment = Some translation ->
     trim translation <> [] ->
     is_Some (textMapOfApp originalSegments idToTranslation
                !! text segment)).
Proof.
  split.
  - apply textMapOfApp_entries.
  - intros segment translation Hin E Hv.
    apply (textMapOfApp_complete _ _ ∅ segment translation Hin E Hv).
Qed.

(** X13. The last segment wins.  When several segments have the same
    text, the entry of [textMap] for that text is the translation of the
    last of them whose identifier has a translation that is not blank. *)
Theorem textMapOfApp_last_wins (before after : list ParagraphSegment)
  (segment : ParagraphSegment) (idToTranslation : gmap jsstring jsstring)
  (translation : jsstring) :
  idToTranslation !! id segment = Some translation ->
  trim translation <> [] ->
  Forall (fun later =>
            text later = text segment ->
            forall t, idToTranslation !! id later = Some t -> trim t = [])
    after ->
  textMapOfApp (before ++ segment :: after) idToTranslation !! text segment
  = Some translation.
Proof.
  intros E Hv Hafter. unfold textMapOfApp.
  rewrite foldl_app. cbn [foldl].
  rewrite (textMapStep_sets _ _ _ _ _ E Hv).
  generalize (foldl (fun textMap s =>
                       textMapStep idToTranslation textMap (id s) (text s))
                ∅ before).
  intros tm.
  assert (H : forall l tm',
            Forall (fun later =>
                      text later = text segment ->
                      forall t, idToTranslation !! id later = Some t ->
                                trim t = []) l ->
            tm' !! text segment = Some translation ->
            foldl (fun textMap s =>
                     textMapStep idToTranslation textMap (id s) (text s))
              tm' l !! text segment = Some translation).
  { induction l as [|x l IH]; intros tm' Hl Htm; [exact Htm|].
    apply Forall_cons_1 in Hl. destruct Hl as [Hx Hl'].
    cbn [foldl]. apply IH; [exact Hl'|].
    unfold textMapStep. destruct (idToTranslation !! id x) as [t|] eqn:Ex;
      [|exact Htm].
    destruct (truthy t && Nat.ltb 0 (length (trim t))) eqn:C; [|exact Htm].
    destruct (decide (text x = text segment)) as [Et|Hne].
    - apply andb_prop in C. destruct C as [_ C]. apply Nat.ltb_lt in C.
      pose proof (Hx Et t eq_refl) as Hb. rewrite Hb in C. cbn in C. lia.
    - rewrite lookup_insert_ne by exact Hne. exact Htm. }
  apply H; [exact Hafter|]. apply lookup_insert_eq.
Qed.

(** Two paragraphs with the same text and two translations. *)
Lemma textMapOfApp_last_wins_witness :
  textMapOfApp
    ([mkSegment (js "p0") (js "Yes") None (js "word/document.xml") 1]
       ++ mkSegment (js "p1") (js "Yes") None (js "word/document.xml") 1
       :: [mkSegment (js "p2") (js "No") None (js "word/document.xml") 1])
    {[ js "p0" := js "Oui"; js "p1" := js "Si"; js "p2" := js "Non" ]}
    !! text (mkSegment (js "p1") (js "Yes") None (js "word/document.xml") 1)
  = Some (js "Si").
Proof.
  apply (textMapOfApp_last_wins
           [mkSegment (js "p0") (js "Yes") None (js "word/document.xml") 1]
           [mkSegment (js "p2") (js "No") None (js "word/document.xml") 1]
           (mkSegment (js "p1") (js "Yes") None (js "word/document.xml") 1)
           {[ js "p0" := js "Oui"; js "p1" := js "Si"; js "p2" := js "Non" ]}
           (js "Si")).
  - vm_compute. reflexivity.
  - vm_compute. discriminate.
  - constructor; [|constructor]. intros H. vm_compute in H. discriminate H.
Defined.

(** X14. When no two segments share an identifier, [main] of [inject.ts],
    which goes through the [Map] from identifier to text, builds the same
    [textMap] as the web application, which goes through the segments. *)
Theorem textMapOfMain_textMapOfApp (segments : list ParagraphSegment)
  (idToTranslation : gmap jsstring jsstring) :
  NoDup (map id segments) ->
  textMapOfMain segments idToTranslation
    = textMapOfApp segments idToTranslation.
Proof.
  intros Hnd. unfold textMapOfMain, textMapOfApp.
  rewrite (idToOriginal_distinct segments Hnd).
  generalize (∅ : gmap jsstring jsstring).
  induction segments as [|s l IH]; intros tm; [reflexivity|].
  cbn [map foldl fst snd]. apply IH.
  cbn [map] in Hnd. apply NoDup_cons in Hnd. apply Hnd.
Qed.

Lemma textMapOfMain_textMapOfApp_witness :
  textMapOfMain example_segments
    {[ js "p0" := js "Tom et Jerry"; js "p1" := js " " ]}
  = textMapOfApp example_segments
      {[ js "p0" := js "Tom et Jerry"; js "p1" := js " " ]}.
Proof.
  apply (textMapOfMain_textMapOfApp example_segments
           {[ js "p0" := js "Tom et Jerry"; js "p1" := js " " ]}).
  apply (bool_decide_unpack _). vm_compute. exact I.
Defined.

(** X15. When every segment has a text that is not blank, as the
    segments of an extraction have, a paragraph block whose key is blank
    (a block without text runs among them) is returned as it is,
    whatever the pasted translations are. *)
Theorem blank_paragraph_kept (originalSegments : list ParagraphSegment)
  (idToTranslation : gmap jsstring jsstring)
  (fullMatch paragraphContent key : jsstring) :
  Forall (fun segment => trim (text segment) <> []) originalSegments ->
  originalTextOf paragraphContent = Some key ->
  trim key = [] ->
  paragraphCallback (textMapOfApp originalSegments idToTranslation)
    fullMatch paragraphContent = Some fullMatch.
Proof.
  intros Hsegs Hkey Hblank.
  rewrite originalTextOf_textRuns in Hkey. injection Hkey as <-.
  apply paragraphCallback_miss.
  destruct (textMapOfApp _ _ !! _) as [v|] eqn:E; [|reflexivity].
  apply textMapOfApp_entries in E.
  destruct E as (_ & s & Hin & Ht & _).
  rewrite Forall_forall in Hsegs. specialize (Hsegs s Hin).
  rewrite Ht in Hsegs. contradiction.
Qed.

Lemma blank_paragraph_kept_witness :
  paragraphCallback
    (textMapOfApp example_segments {[ js "p0" := js "Tom et Jerry" ]})
    (js "<w:p><w:r><w:t> </w:t></w:r></w:p>")
    (js "<w:r><w:t> </w:t></w:r>")
  = Some (js "<w:p><w:r><w:t> </w:t></w:r></w:p>").
Proof.
  apply (blank_paragraph_kept example_segments
           {[ js "p0" := js "Tom et Jerry" ]}
           (js "<w:p><w:r><w:t> </w:t></w:r></w:p>")
           (js "<w:r><w:t> </w:t></w:r>") (js " ")).
  - repeat constructor; vm_compute; discriminate.
  - vm_compute. reflexivity.
  - vm_compute. reflexivity.
Defined.

(** X16. A selected range copied and pasted back as it is.  For segments
    with distinct identifiers that can stand in a marker line, whose
    texts are not blank and have no marker line of their own, the
    [textMap] that the web application builds from [formattedText] of a
    range takes the text of each segment of the range to that text
    trimmed, and has no other entry. *)
Theorem selected_range_pasted_back (all : list ParagraphSegment)
  (startParagraph endParagraph : nat) :
  NoDup (map id all) ->
  Forall wfBlock all ->
  Forall (fun segment => trim (text segment) <> []) all ->
  let selected := filteredSegments all startParagraph endParagraph in
  let textMap :=
    textMapOfApp all
      (parseTxtTranslations (formattedText all startParagraph endParagraph)) in
  (forall segment, segment ∈ selected ->
     textMap !! text segment = Some (trim (text segment))) /\
  (forall key translation,
     textMap !! key = Some translation ->
     translation = trim key /\
     exists segment, segment ∈ selected /\ text segment = key).
Proof.
  intros Hnd Hwf Htext selected textMap.
  pose proof (filteredSegments_sublist all startParagraph endParagraph)
    as Hsub.
  exact (range_textMap all selected Hsub Hnd Hwf Htext).
Qed.

Lemma selected_range_pasted_back_witness :
  (forall segment, segment ∈ filteredSegments example_segments 0 1 ->
     textMapOfApp example_segments
       (parseTxtTranslations (formattedText example_segments 0 1))
       !! text segment = Some (trim (text segment))) /\
  (forall key translation,
     textMapOfApp example_segments
       (parseTxtTranslations (formattedText example_segments 0 1))
       !! key = Some translation ->
     translation = trim key /\
     exists segment,
       segment ∈ filteredSegments example_segments 0 1 /\
       text segment = key).
Proof.
  apply (selected_range_pasted_back example_segments 0 1).
  - apply (bool_decide_unpack _). vm_compute. exact I.
  - repeat constructor;
      try (eexists _, _; split; [reflexivity|repeat constructor]).
  - repeat constructor; vm_compute; discriminate.
Defined.

(** X17. From the package to the pasted text.  For the segments that
    extraction gives for a package, when there are at most [2^53] of them
    and no line of a text is a marker line, copying a range and pasting
    it back as it is gives a [textMap] that takes the text of each
    segment of the range to that text trimmed, and has no other entry. *)
Theorem extracted_range_pasted_back (decode : list N -> jsstring)
  (objectKeys : gmap jsstring (list N) -> list jsstring)
  (files : gmap jsstring (list N)) (startParagraph endParagraph : nat) :
  (forall path, path ∈ objectKeys files -> is_Some (files !! path)) ->
  exists allSegments nextId,
    extractAll decode objectKeys files
      = Some (Returned (allSegments, nextId)) /\
    ((N.of_nat (length allSegments) <= 2 ^ 53)%N ->
     Forall (fun segment =>
               Forall (fun line => markerId line = None)
                 (split newline (text segment))) allSegments ->
     let selected :=
       filteredSegments allSegments startParagraph endParagraph in
     let textMap :=
       textMapOfApp allSegments
         (parseTxtTranslations
            (formattedText allSegments startParagraph endParagraph)) in
     (forall segment, segment ∈ selected ->
        textMap !! text segment = Some (trim (text segment))) /\
     (forall key translation,
        textMap !! key = Some translation ->
        translation = trim key /\
        exists segment, segment ∈ selected /\ text segment = key)).
Proof.
  intros Hkeys. unfold extractAll, getTranslatableFiles.
  destruct (extractFiles_spec decode
              (List.filter isTranslatable (objectKeys files)) files [] 0)
    as (segs & Hs & Hid).
  { intros p Hp. apply elem_of_filter_bool in Hp. apply Hkeys, Hp. }
  exists segs, (advance 0 (length segs)). split; [exact Hs|].
  intros Hb Hlines. cbv zeta.
  destruct (ids_in_order segs Hb) as [Hdec Hnd];
    [intros i seg Hi; apply (Hid _ _ Hi)|].
  apply (range_textMap segs
           (filteredSegments segs startParagraph endParagraph)
           (filteredSegments_sublist segs startParagraph endParagraph)).
  - exact Hnd.
  - apply Forall_lookup. intros i seg Hi. split.
    + rewrite (Hdec _ _ Hi). apply isMarkerId_decimal.
    + rewrite Forall_lookup in Hlines. apply (Hlines _ _ Hi).
  - apply Forall_lookup. intros i seg Hi. apply (Hid _ _ Hi).
Qed.

Lemma extracted_range_pasted_back_witness :
  exists allSegments nextId,
    extractAll example_code example_keys example_files
      = Some (Returned (allSegments, nextId)) /\
    (Forall (fun segment =>
               Forall (fun line => markerId line = None)
                 (split newline (text segment))) allSegments ->
     (forall segment, segment ∈ filteredSegments allSegments 0 1 ->
        textMapOfApp allSegments
          (parseTxtTranslations (formattedText allSegments 0 1))
          !! text segment = Some (trim (text segment))) /\
     (forall key translation,
        textMapOfApp allSegments
          (parseTxtTranslations (formattedText allSegments 0 1))
          !! key = Some translation ->
        translation = trim key /\
        exists segment,
          segment ∈ filteredSegments allSegments 0 1 /\
          text segment = key)).
Proof.
  destruct (extracted_range_pasted_back example_code example_keys
              example_files 0 1) as (segs & nextId & Heq & H);
    [intros path; apply keys_listed|].
  exists segs, nextId. split; [exact Heq|]. apply H.
  assert (extractAll example_code example_keys example_files
          = Some (Returned
                    ([mkSegment (js "p0") (js "Hello") None
                        (js "word/document.xml") 1], 1))) as Hc
    by (vm_compute; reflexivity).
  rewrite Hc in Heq. injection Heq as <- _. vm_compute. discriminate.
Defined.

(** ** The rewritten paragraph in its document part *)

(** X18. The opening tag that line 110 writes.  What stands between
    [<w:p] and [>] in a paragraph block has no [>] and does not start
    with a word character, so [<w:pPr] starts none.  For a block whose
    key is in the mapping, the written paragraph is [<w:p], the
    attributes that the pattern of line 110 finds in the block, [>], the
    new content and the closing tag.  These attributes have no [>] and
    are empty or start with white space: the opening tag of the written
    paragraph ends at them, however the paragraph is read.  So the
    written paragraph starts with the opening tag of the block exactly
    when what stood between [<w:p] and [>] in the block is empty or
    starts with white space; for a block that starts with [<w:p/>] it
    does not. *)
Theorem opening_tag (xml : jsstring) (translations : gmap jsstring jsstring)
  (i : nat) (m : MatchResult) (key translation : jsstring) :
  globalMatches PARAGRAPH_REGEX xml !! i = Some m ->
  originalTextOf (orEmpty (group 1 m)) = Some key ->
  translations !! key = Some translation ->
  exists a c written newParagraphContent,
    let attributes :=
      orEmpty (matchFirst OPEN_TAG_REGEX (matched m) ≫= group 1) in
    matched m = js "<w:p" ++ a ++ js ">" ++ c ++ js "</w:p>" /\
    group 1 m = Some c /\
    noGt a /\ headOK a /\
    paragraphCallback translations (matched m) (orEmpty (group 1 m))
      = Some written /\
    written = js "<w:p" ++ attributes ++ js ">" ++ newParagraphContent
                ++ js "</w:p>" /\
    noGt attributes /\ startsBlank attributes /\
    (forall b rest,
       noGt b -> written = js "<w:p" ++ b ++ js ">" ++ rest ->
       b = attributes /\ rest = newParagraphContent ++ js "</w:p>") /\
    (attributes = a <-> startsBlank a) /\
    ((exists rest, written = js "<w:p" ++ a ++ js ">" ++ rest)
     <-> startsBlank a).
Proof.
  intros Hm Hkey Hlookup. apply list_elem_of_lookup_2 in Hm.
  destruct (paragraph_match xml m Hm) as (a & c & rest & Hfull & Hg & Hat).
  destruct (paragraphAt_facts _ _ _ Hat) as (Ha & Hh & _).
  destruct (RunParse_total (orEmpty (group 1 m))) as (rl & tail & HP).
  rewrite (RunParse_originalTextOf _ _ _ HP) in Hkey. injection Hkey as <-.
  pose proof (paragraphCallback_hit _ (matched m) _ _ _ _ HP Hlookup) as Hw.
  set (attributes :=
         orEmpty (matchFirst OPEN_TAG_REGEX (matched m) ≫= group 1)) in *.
  set (new := rebuild rl (newTexts translation true rl) tail) in *.
  destruct (wfAttrs_head _ (openTag_attributes_wf (matched m)))
    as [HA _]. fold attributes in HA.
  assert (Hiff : attributes = a <-> startsBlank a).
  { split.
    - intros <-. apply openTag_startsBlank.
    - intros Hb. unfold attributes. rewrite Hfull.
      apply openTag_kept; assumption. }
  exists a, c, (js "<w:p" ++ attributes ++ js ">" ++ new ++ js "</w:p>"),
    new.
  cbv zeta. fold attributes.
  split; [exact Hfull|]. split; [exact Hg|]. split; [exact Ha|].
  split; [exact Hh|]. split; [exact Hw|]. split; [reflexivity|].
  split; [exact HA|]. split; [apply openTag_startsBlank|].
  split; [|split; [exact Hiff|]].
  - intros b rest' Hb E.
    destruct (openTag_unique _ _ _ _ HA Hb E) as [<- <-].
    split; reflexivity.
  - split.
    + intros [rest' E]. apply Hiff.
      destruct (openTag_unique _ _ _ _ HA Ha E) as [-> _]. reflexivity.
    + intros Hb. apply Hiff in Hb. rewrite <- Hb. eexists. reflexivity.
Qed.

(** The block that starts with [<w:p/>]: the written paragraph starts
    with the opening tag of the second paragraph. *)
Lemma opening_tag_witness :
  paragraphCallback {[ js "A" := js "B" ]} example_self_closing
    (js "<w:p w:rsidR='1'><w:r><w:t>A</w:t></w:r>")
  = Some (js "<w:p w:rsidR='1'>"
            ++ js "<w:p w:rsidR='1'><w:r><w:t>B</w:t></w:r></w:p>") /\
  ~ startsBlank (js "/").
Proof.
  destruct (opening_tag example_self_closing {[ js "A" := js "B" ]} 0
              (mkResult 0 example_self_closing
                 [(1, js "<w:p w:rsidR='1'><w:r><w:t>A</w:t></w:r>")]
                 (length example_self_closing))
              (js "A") (js "B"))
    as (a & c & written & new & _ & _ & _ & _ & Hw & _).
  - vm_compute. reflexivity.
  - vm_compute. reflexivity.
  - vm_compute. reflexivity.
  - split; [|vm_compute; discriminate].
    cbn [matched group groups getCapture Nat.eqb orEmpty] in Hw.
    rewrite Hw. vm_compute in Hw. injection Hw as <-. vm_compute.
    reflexivity.
Defined.

(** X19. Injection outside the paragraph blocks.  A document part is the
    pieces before its paragraph blocks, the blocks and the rest; the
    callback returns for every block; and the result of
    [replaceParagraphText] is the same pieces and the same rest with each
    block replaced by what the callback returns for it. *)
Theorem injection_frame (xml : jsstring)
  (translations : gmap jsstring jsstring) :
  exists before blocks outs tail,
    length before = length blocks /\ length outs = length blocks /\
    map matched (globalMatches PARAGRAPH_REGEX xml) = blocks /\
    mapM (fun m => paragraphCallback translations (matched m)
                     (orEmpty (group 1 m)))
      (globalMatches PARAGRAPH_REGEX xml) = Some outs /\
    xml = pieces (zip before blocks) tail /\
    replaceParagraphText xml translations
      = Some (pieces (zip before outs) tail).
Proof.
  destruct (Parse_total paragraphMatchAt paragraphMatchAt_sound xml)
    as (l & tail & HP).
  pose proof (globalMatches_Parse paragraphMatchAt PARAGRAPH_REGEX
                PARAGRAPH_at paragraphMatchAt_sound xml l tail HP) as Hms.
  unfold replaceParagraphText, replaceOpt.
  destruct (callEachOpt_total
              (fun m => paragraphCallback translations (matched m)
                          (orEmpty (group 1 m)))
              (globalMatches PARAGRAPH_REGEX xml)) as (rs & Hrs & Hfst).
  { intros m. apply paragraphCallback_total. }
  rewrite Hrs. cbn [mbind option_bind].
  destruct (callEachOpt_mapM _ _ _ Hrs) as [_ HmapM].
  assert (Hlen : length rs = length l).
  { rewrite <- (length_map fst rs), Hfst, Hms. clear.
    generalize 0. induction l as [|[[? ?] ?] l IH]; intros off;
      [reflexivity|]. cbn [results length]. rewrite IH. reflexivity. }
  exists (map (fun e => e.1.1) l), (map (fun e => e.1.2) l),
    (map snd rs), tail.
  rewrite !length_map. split; [reflexivity|]. split; [exact Hlen|].
  split; [rewrite Hms; apply results_matched|].
  split; [exact HmapM|]. split.
  - rewrite (Parse_assemble paragraphMatchAt paragraphMatchAt_sound
               xml l tail HP) at 1.
    rewrite assemble_pieces by (rewrite length_map; reflexivity).
    f_equal. clear. induction l as [|[[? ?] ?] l IH]; [reflexivity|].
    cbn [map zip_with fst snd]. rewrite IH. reflexivity.
  - f_equal.
    pose proof (substitute_Parse paragraphMatchAt paragraphMatchAt_sound
                  xml l tail HP [] 0 rs eq_refl) as Hs.
    cbn [app length] in Hs. rewrite Hs by (rewrite Hfst; exact Hms).
    rewrite assemble_pieces by (rewrite length_map; exact Hlen).
    f_equal. clear - Hlen. revert rs Hlen.
    induction l as [|[[? ?] ?] l IH]; intros [|[? ?] rs] Hlen;
      try discriminate Hlen; [reflexivity|].
    cbn [map zip_with fst snd]. rewrite IH by (cbn in Hlen; lia).
    reflexivity.
Qed.

(** X20. The paragraph blocks of the rewritten part.  Injection returns;
    the rewritten part has as many paragraph blocks as the part; block
    after block, the block of the rewritten part is what the callback
    returned for the block of the part, and its key is [newKey]: the key
    as it was when the mapping has no entry for it, the escaped
    translation when it has one and the paragraph has a text run. *)
Theorem rewritten_part (xml : jsstring)
  (translations : gmap jsstring jsstring) :
  exists xml',
    replaceParagraphText xml translations = Some xml' /\
    length (globalMatches PARAGRAPH_REGEX xml')
      = length (globalMatches PARAGRAPH_REGEX xml) /\
    forall i m, globalMatches PARAGRAPH_REGEX xml !! i = Some m ->
      exists m',
        globalMatches PARAGRAPH_REGEX xml' !! i = Some m' /\
        paragraphCallback translations (matched m) (orEmpty (group 1 m))
          = Some (matched m') /\
        originalTextOf (orEmpty (group 1 m'))
          = Some (newKey translations (textRuns (orEmpty (group 1 m)))).
Proof.
  destruct (replaceParagraphText_rewritten xml translations)
    as (xml' & outs & Hr & Hcb & Hm & Hk).
  exists xml'. split; [exact Hr|].
  assert (Hlen : length (globalMatches PARAGRAPH_REGEX xml')
                 = length (globalMatches PARAGRAPH_REGEX xml)).
  { rewrite <- (length_map (fun m => join [] (paragraphTexts m))
                  (globalMatches PARAGRAPH_REGEX xml')), Hk.
    apply length_map. }
  split; [exact Hlen|]. intros i m Hi.
  destruct (globalMatches PARAGRAPH_REGEX xml' !! i) as [m'|] eqn:Hi'.
  2:{ apply lookup_ge_None in Hi'. apply lookup_lt_Some in Hi. lia. }
  exists m'. split; [reflexivity|]. split.
  - apply mapM_Some_1 in Hcb.
    destruct (Forall2_lookup_l _ _ _ _ _ Hcb Hi) as (out & Ho & Hout).
    rewrite Hout. f_equal. rewrite <- Hm in Ho.
    rewrite list_lookup_fmap, Hi' in Ho. injection Ho as <-. reflexivity.
  - rewrite originalTextOf_textRuns. f_equal.
    apply (f_equal (fun l => l !! i)) in Hk.
    rewrite !list_lookup_fmap, Hi, Hi' in Hk. injection Hk as Hk. exact Hk.
Qed.

(** X21. A second injection.  When the new key of no paragraph block is a
    key of the mapping, injecting into the rewritten part with the same
    mapping returns the rewritten part as it is. *)
Theorem second_injection (xml : jsstring)
  (translations : gmap jsstring jsstring) :
  Forall (fun m =>
            translations
              !! newKey translations (textRuns (orEmpty (group 1 m)))
            = None)
    (globalMatches PARAGRAPH_REGEX xml) ->
  exists xml',
    replaceParagraphText xml translations = Some xml' /\
    replaceParagraphText xml' translations = Some xml'.
Proof.
  intros Hnew.
  destruct (replaceParagraphText_rewritten xml translations)
    as (xml' & outs & Hr & _ & _ & Hk).
  exists xml'. split; [exact Hr|].
  apply replaceParagraphText_miss. intros m' key Hm' Hkey.
  rewrite originalTextOf_textRuns in Hkey. injection Hkey as <-.
  assert (Hin : join [] (paragraphTexts m')
                ∈ map (fun m => join [] (paragraphTexts m))
                    (globalMatches PARAGRAPH_REGEX xml')).
  { apply list_elem_of_In.
    apply (in_map (fun m => join [] (paragraphTexts m))).
    apply list_elem_of_In, Hm'. }
  rewrite Hk in Hin. apply list_elem_of_In, in_map_iff in Hin.
  destruct Hin as (m & E & Hm). apply list_elem_of_In in Hm.
  rewrite Forall_forall in Hnew. specialize (Hnew m Hm).
  unfold paragraphTexts in E. rewrite <- E. exact Hnew.
Qed.

Lemma second_injection_witness :
  exists xml',
    replaceParagraphText example_xml {[ js "Hello" := js "A & B" ]}
      = Some xml' /\
    replaceParagraphText xml' {[ js "Hello" := js "A & B" ]} = Some xml'.
Proof.
  apply (second_injection example_xml {[ js "Hello" := js "A & B" ]}).
  replace (globalMatches PARAGRAPH_REGEX example_xml)
    with [mkResult 0 (js "<w:p><w:r><w:t>Hello</w:t></w:r></w:p>")
            [(1, js "<w:r><w:t>Hello</w:t></w:r>")] 38]
    by (vm_compute; reflexivity).
  constructor; [vm_compute; reflexivity|constructor].
Defined.

(** X22. Extraction after injection.  The segments that
    [extractParagraphSegments] gives for the rewritten part have as their
    texts, in order, the new keys of the paragraph blocks of the part
    that are not blank: what the next extraction reads is the escaped
    translations.  [nextId] is the starting counter after one increment
    for each segment, the start plus their number when that sum is at
    most [2^53]. *)
Theorem extraction_after_injection (xml src : jsstring) (startId : nat)
  (translations : gmap jsstring jsstring) :
  exists xml' segments,
    replaceParagraphText xml translations = Some xml' /\
    extractParagraphSegments xml' src startId
      = Some (segments, advance startId (length segments)) /\
    ((N.of_nat (startId + length segments) <= 2 ^ 53)%N ->
     advance startId (length segments) = startId + length segments) /\
    map text segments
    = filter (fun k => trim k <> [])
        (map (fun m => newKey translations (textRuns (orEmpty (group 1 m))))
           (globalMatches PARAGRAPH_REGEX xml)).
Proof.
  destruct (replaceParagraphText_rewritten xml translations)
    as (xml' & outs & Hr & _ & _ & Hk).
  exists xml'. eexists. split; [exact Hr|].
  split; [apply extractParagraphSegments_eq|].
  split; [apply advance_exact|].
  rewrite segmentsOf_text, map_map, Hk. reflexivity.
Qed.
